(** * Domain checker: queues, worker pools, statistics and lookups

    A shallow embedding of the [useDomainChecker] hook (the revision that
    keeps dedicated DNS/RDAP queues and incremental statistics, with the
    stop path of the older revision with batches), of the lookup service
    (with and without the lock around the RDAP requests), of the table of
    the page and of the domain utilities, followed by the properties
    established about them.

    JavaScript strings are sequences of UTF-16 code units; they are
    modelled as [list N].  Sets and maps are stdpp's [gset] and [gmap].
    Counters are JavaScript numbers used as integers and are modelled
    as [Z]. *)

From Stdlib Require Import ZArith NArith Ascii String Lia.
From stdpp Require Import gmap list fin_maps.

Local Open Scope Z_scope.

(** ** Strings *)

Module JsString.

Abbreviation jsstring := (list N).

(** A literal: the code units of an ASCII string. *)
Definition js (s : string) : jsstring :=
  List.map N_of_ascii (list_ascii_of_string s).

Fixpoint dropWhile (p : N -> bool) (s : jsstring) : jsstring :=
  match s with
  | [] => []
  | c :: rest => if p c then dropWhile p rest else s
  end.

Fixpoint takeWhile (p : N -> bool) (s : jsstring) : jsstring :=
  match s with
  | [] => []
  | c :: rest => if p c then c :: takeWhile p rest else []
  end.

Definition dropWhileEnd (p : N -> bool) (s : jsstring) : jsstring :=
  rev (dropWhile p (rev s)).

Fixpoint startsWith (prefix s : jsstring) : bool :=
  match prefix, s with
  | [], _ => true
  | p :: prefix', c :: s' => (p =? c)%N && startsWith prefix' s'
  | _ :: _, [] => false
  end.

Definition isEmpty (s : jsstring) : bool :=
  match s with [] => true | _ => false end.

Definition inRange (lo hi c : N) : bool := ((lo <=? c) && (c <=? hi))%N.

(** The code units matched by [\s] (and removed by [trim]):
    WhiteSpace and LineTerminator of ECMAScript. *)
Definition isWhiteSpace (c : N) : bool :=
  inRange 9 13 c || (c =? 32)%N || (c =? 160)%N || (c =? 5760)%N
  || inRange 8192 8202 c || (c =? 8232)%N || (c =? 8233)%N
  || (c =? 8239)%N || (c =? 8287)%N || (c =? 12288)%N || (c =? 65279)%N.

Definition trim (s : jsstring) : jsstring :=
  dropWhileEnd isWhiteSpace (dropWhile isWhiteSpace s).

(** [[a-z]] under the [i] flag (no [u] flag): the ASCII letters. *)
Definition isAsciiLetter (c : N) : bool := inRange 97 122 c || inRange 65 90 c.

Definition isDot (c : N) : bool := (c =? 46)%N.

(** [[/?#]] *)
Definition isDelimiter (c : N) : bool :=
  (c =? 47)%N || (c =? 63)%N || (c =? 35)%N.

(** [[a-z0-9.-]] *)
Definition isDomainChar (c : N) : bool :=
  inRange 97 122 c || inRange 48 57 c || (c =? 46)%N || (c =? 45)%N.

Definition includes (c : N) (s : jsstring) : bool := existsb (N.eqb c) s.

End JsString.

(** ** utils/domainUtils.ts *)

Module DomainUtils.
Import JsString.

Section Normalize.

(** [String.prototype.toLowerCase] of the host.  Its Unicode case
    table is not part of the repository; it is a parameter here. *)
Variable toLowerCase : jsstring -> jsstring.

(** [replace(/\s+/g, "")] *)
Definition removeWhiteSpace (s : jsstring) : jsstring :=
  List.filter (fun c => negb (isWhiteSpace c)) s.

(** [replace(/^[a-z]+:\/\//i, "")]: the longest run of letters at the
    start must be non-empty and followed by [://]. *)
Definition stripScheme (s : jsstring) : jsstring :=
  let rest := dropWhile isAsciiLetter s in
  if negb (isEmpty (takeWhile isAsciiLetter s)) && startsWith (js "://") rest
  then drop 3 rest
  else s.

(** [replace(/^\/\//, "")] *)
Definition stripLeadingSlashes (s : jsstring) : jsstring :=
  if startsWith (js "//") s then drop 2 s else s.

(** [split(/[/?#]/)[0]]; the array always has a first element. *)
Definition beforeDelimiter (s : jsstring) : jsstring :=
  takeWhile (fun c => negb (isDelimiter c)) s.

(** [replace(/^\.*/, "").replace(/\.*$/, "")] *)
Definition stripDots (s : jsstring) : jsstring :=
  dropWhileEnd isDot (dropWhile isDot s).

(** [/^[a-z0-9.-]+$/.test] *)
Definition testDomain (s : jsstring) : bool :=
  negb (isEmpty s) && forallb isDomainChar s.

Definition normalizeDomain (value : jsstring) : option jsstring :=
  if isEmpty value then None else
  let sanitized := toLowerCase (trim value) in
  if isEmpty sanitized then None else
  let sanitized := removeWhiteSpace sanitized in
  let sanitized := stripScheme sanitized in
  let sanitized := stripLeadingSlashes sanitized in
  let sanitized := beforeDelimiter sanitized in
  let sanitized := stripDots sanitized in
  if isEmpty sanitized then None else
  let sanitized :=
    if includes 46%N sanitized then sanitized else sanitized ++ js ".com" in
  if testDomain sanitized then Some sanitized else None.

End Normalize.

(** [s.split(sep)] for a separator of one code unit: the pieces, the
    last one first in the accumulator. *)
Fixpoint splitAcc (isSep : N -> bool) (current : jsstring) (s : jsstring)
    : list jsstring :=
  match s with
  | [] => [current]
  | c :: rest =>
      if isSep c then current :: splitAcc isSep [] rest
      else splitAcc isSep (current ++ [c]) rest
  end.

Definition splitOn (isSep : N -> bool) (s : jsstring) : list jsstring :=
  splitAcc isSep [] s.

(** [parts.join(".")] *)
Fixpoint joinDots (parts : list jsstring) : jsstring :=
  match parts with
  | [] => []
  | [p] => p
  | p :: rest => p ++ js "." ++ joinDots rest
  end.

Definition deriveCore (domain : jsstring) : jsstring :=
  let trimmed := if startsWith (js "www.") domain then drop 4 domain else domain in
  let parts := splitOn isDot trimmed in
  if bool_decide (length parts <= 1)%nat then trimmed
  else joinDots (take (length parts - 1) parts).

(** [[\n,]] *)
Definition isEntrySeparator (c : N) : bool := (c =? 10)%N || (c =? 44)%N.

(** [raw.split(/[\n,]+/).map(trim).filter(Boolean)].  Splitting at every
    separator instead of at every run of separators only adds empty
    pieces, which the filter removes. *)
Definition parseDomainInput (raw : jsstring) : list jsstring :=
  List.filter (fun entry => negb (isEmpty entry))
              (List.map trim (splitOn isEntrySeparator raw)).

(** Lower-casing of the ASCII letters, other code units unchanged: the
    restriction of [toLowerCase] to ASCII input. *)
Definition asciiToLowerCase (s : jsstring) : jsstring :=
  List.map (fun c => if inRange 65 90 c then (c + 32)%N else c) s.

End DomainUtils.

(** ** types/domainTypes.ts *)

Module DomainTypes.
Import JsString.

Inductive DomainStatus := Queued | Checking | Available | Taken | Unknown.
Inductive RdapStatus := RdapAvailable | RdapTaken | RdapUnknown | RdapNotChecked.
Inductive DomainSource := Import_.

Record DomainRecord := mkRecord {
  id : jsstring;
  domain : jsstring;
  core : jsstring;
  status : DomainStatus;
  rdapStatus : RdapStatus;
  createdAt : Z;
  checkedAt : option Z;
  source : DomainSource;
}.

#[export] Instance DomainStatus_eq_dec : EqDecision DomainStatus.
Proof. solve_decision. Defined.
#[export] Instance RdapStatus_eq_dec : EqDecision RdapStatus.
Proof. solve_decision. Defined.

(** [{ ...record, status }] *)
Definition withStatus (s : DomainStatus) (r : DomainRecord) : DomainRecord :=
  mkRecord (id r) (domain r) (core r) s (rdapStatus r) (createdAt r) (checkedAt r) (source r).

Definition withRdapStatus (s : RdapStatus) (r : DomainRecord) : DomainRecord :=
  mkRecord (id r) (domain r) (core r) (status r) s (createdAt r) (checkedAt r) (source r).

Definition withCheckedAt (t : option Z) (r : DomainRecord) : DomainRecord :=
  mkRecord (id r) (domain r) (core r) (status r) (rdapStatus r) (createdAt r) t (source r).

End DomainTypes.

(** ** services/lookupService.ts

    The network is the environment: what a [fetch] produced is an input
    of the lookup functions. *)

Module LookupService.
Import JsString DomainTypes.

(** Outcome of [fetch] against rdap.org: the promise rejects (transport
    failure) or resolves with an HTTP status. *)
Inductive RdapFetch := RdapFetchThrows | RdapResponse (httpStatus : Z).

(** [response.ok] *)
Definition responseOk (httpStatus : Z) : bool :=
  (200 <=? httpStatus) && (httpStatus <=? 299).

(** The value of [data?.Status] in the parsed body. *)
Inductive StatusField :=
| StatusInteger (code : Z)    (* a number with an integral value *)
| StatusOtherNumber           (* any other value of type number *)
| StatusNotANumber.           (* undefined, or a value of another type *)

(** Outcome of [fetch] against dns.google followed by [response.json()]:
    [DnsFetchThrows] is a rejected fetch; in a response, [None] is a body
    whose parsing throws. *)
Inductive DnsFetch :=
| DnsFetchThrows
| DnsResponse (ok : bool) (body : option StatusField).

#[export] Instance StatusField_eq_dec : EqDecision StatusField.
Proof. solve_decision. Defined.
#[export] Instance DnsFetch_eq_dec : EqDecision DnsFetch.
Proof. solve_decision. Defined.

Definition runRdapLookup (fetched : RdapFetch) : RdapStatus :=
  match fetched with
  | RdapFetchThrows => RdapUnknown
  | RdapResponse httpStatus =>
      if httpStatus =? 404 then RdapAvailable
      else if responseOk httpStatus then RdapTaken
      else RdapUnknown
  end.

Definition setOutcome (s : DomainStatus) (r : RdapStatus) (next : DomainRecord) : DomainRecord :=
  withRdapStatus r (withStatus s next).

(** [now] is the value of [Date.now()]; [rdapFetched] is consulted only
    on the branch that calls [runRdapLookup]. *)
Definition runDnsLookup (now : Z) (dnsFetched : DnsFetch) (rdapFetched : RdapFetch)
    (record : DomainRecord) : DomainRecord :=
  let next := withCheckedAt (Some now) record in
  match dnsFetched with
  | DnsFetchThrows => setOutcome Unknown RdapNotChecked next
  | DnsResponse false _ => setOutcome Unknown RdapNotChecked next
  | DnsResponse true None => setOutcome Unknown RdapNotChecked next
  | DnsResponse true (Some code) =>
      match code with
      | StatusInteger 3 => setOutcome Available (runRdapLookup rdapFetched) next
      | StatusInteger 2 | StatusInteger 5 | StatusNotANumber =>
          setOutcome Unknown RdapNotChecked next
      | StatusInteger _ | StatusOtherNumber =>
          setOutcome Taken RdapNotChecked next
      end
  end.

Definition runRdapOnly (now : Z) (rdapFetched : RdapFetch) (record : DomainRecord)
    : DomainRecord :=
  let rdapStatus := runRdapLookup rdapFetched in
  withStatus (status record) (withCheckedAt (Some now) (withRdapStatus rdapStatus record)).

End LookupService.

(** ** services/lookupService.ts, the revision with [withRdapLock]

    In this revision [runRdapLookup] runs its request as the task of
    [withRdapLock], whichever of [runDnsLookup] and [runRdapOnly] calls
    it.  A promise is modelled by its state, pending or resolved; a call
    of [withRdapLock] by the point at which it is suspended; time by a
    clock, a timer being free to fire at its delay or later. *)

Module RdapLock.

(** The delay of [setTimeout(resolve, 500)], in milliseconds. *)
Definition COOL_DOWN : Z := 500.

(** The caller of [runRdapLookup]. *)
Inductive Caller := FromRunDnsLookup | FromRunRdapOnly.

(** Where a call of [withRdapLock] is suspended, with the time at which
    its task was started and the time at which the task settled. *)
Inductive CallPhase :=
| AwaitPrevious                       (* [await previous] *)
| AwaitTask (started : Z)             (* [await task()] *)
| AwaitTimer (started settled : Z)    (* [await new Promise(... setTimeout ...)] *)
| Released (started settled : Z).     (* [release()] was called *)

Record Call := mkCall {
  caller : Caller;
  previous : nat;     (* the promise read from [rdapLock] *)
  release : nat;      (* the promise that [release] resolves *)
  phase : CallPhase;
}.

(** [promises]: for each promise made so far, whether it is resolved;
    promise 0 is the [Promise.resolve()] that [rdapLock] starts with. *)
Record State := mkState {
  promises : list bool;
  rdapLock : nat;
  calls : list Call;
  clock : Z;
}.

Definition initial (t : Z) : State := mkState [true] 0 [] t.

Definition withPhase (ph : CallPhase) (c : Call) : Call :=
  mkCall (caller c) (previous c) (release c) ph.

Inductive Event :=
| Enter (from : Caller)   (* a call, up to [await previous] *)
| Resume (i : nat)         (* [previous] is resolved: the task is started *)
| Settle (i : nat)        (* the task returns or throws: the timer is set *)
| Fire (i : nat)          (* the timer fires: [release()] *)
| Tick (d : Z).           (* time passes *)

Definition perform (e : Event) (s : State) : State :=
  match e with
  | Enter from =>
      mkState (promises s ++ [false]) (length (promises s))
              (calls s ++ [mkCall from (rdapLock s) (length (promises s)) AwaitPrevious])
              (clock s)
  | Resume i =>
      match calls s !! i with
      | Some c =>
          match phase c with
          | AwaitPrevious =>
              mkState (promises s) (rdapLock s)
                      (<[i := withPhase (AwaitTask (clock s)) c]> (calls s)) (clock s)
          | _ => s
          end
      | None => s
      end
  | Settle i =>
      match calls s !! i with
      | Some c =>
          match phase c with
          | AwaitTask started =>
              mkState (promises s) (rdapLock s)
                      (<[i := withPhase (AwaitTimer started (clock s)) c]> (calls s))
                      (clock s)
          | _ => s
          end
      | None => s
      end
  | Fire i =>
      match calls s !! i with
      | Some c =>
          match phase c with
          | AwaitTimer started settled =>
              mkState (<[release c := true]> (promises s)) (rdapLock s)
                      (<[i := withPhase (Released started settled) c]> (calls s))
                      (clock s)
          | _ => s
          end
      | None => s
      end
  | Tick d => mkState (promises s) (rdapLock s) (calls s) (clock s + d)
  end.

(** A call resumes from [await previous] once that promise is resolved,
    and from the timer once its delay has passed. *)
Definition enabled (e : Event) (s : State) : Prop :=
  match e with
  | Enter _ => True
  | Resume i =>
      exists c, calls s !! i = Some c /\ promises s !! previous c = Some true
  | Settle i => True
  | Fire i =>
      exists c started settled,
        calls s !! i = Some c /\ phase c = AwaitTimer started settled
        /\ settled + COOL_DOWN <= clock s
  | Tick d => 0 <= d
  end.

Definition step (s s' : State) : Prop :=
  exists e, enabled e s /\ s' = perform e s.

Definition reachable (s : State) : Prop :=
  exists t, rtc step (initial t) s.

(** The task of the call is running, or its cool-down is. *)
Definition holdsLock (c : Call) : bool :=
  match phase c with
  | AwaitTask _ | AwaitTimer _ _ => true
  | _ => false
  end.

Definition startedAt (c : Call) : option Z :=
  match phase c with
  | AwaitPrevious => None
  | AwaitTask started | AwaitTimer started _ | Released started _ => Some started
  end.

Definition settledAt (c : Call) : option Z :=
  match phase c with
  | AwaitTimer _ settled | Released _ settled => Some settled
  | _ => None
  end.

End RdapLock.

(** ** hooks/useDomainChecker.ts (queues and incremental statistics) *)

Module Hook.
Import JsString DomainTypes LookupService.

Definition BATCH_SIZE : nat := 50.

Definition rdapFinalStatuses : list RdapStatus := [RdapAvailable; RdapTaken].

Record Stats := mkStats {
  total : Z;
  queueCount : Z;
  totalAvailable : Z;
  totalTaken : Z;
  totalChecked : Z;
  takenOverall : Z;
}.

Definition zeroStats : Stats := mkStats 0 0 0 0 0 0.

Inductive Checker := Dns | Rdap.

#[export] Instance Checker_eq_dec : EqDecision Checker.
Proof. solve_decision. Defined.

(** An object [{ dns, rdap }]. *)
Record PerChecker (A : Type) := mkPer { dns : A; rdap : A }.
Arguments mkPer {A} _ _.
Arguments dns {A} _.
Arguments rdap {A} _.

Definition get {A} (c : Checker) (p : PerChecker A) : A :=
  match c with Dns => dns p | Rdap => rdap p end.

Definition set {A} (c : Checker) (x : A) (p : PerChecker A) : PerChecker A :=
  match c with Dns => mkPer x (rdap p) | Rdap => mkPer (dns p) x end.

(** The texts given to [setStatusMessage]. *)
Inductive StatusMessage :=
| MsgIdle
| MsgFailedToLoad
| MsgNoNewDomains
| MsgAdded (n : nat)
| MsgRunning (c : Checker)
| MsgCheckerIdle (c : Checker)
| MsgChecked (c : Checker) (n : nat)
| MsgFinishingBatch
| MsgNothingToCheck (c : Checker)
| MsgStopRequested (c : Checker)
| MsgHistoryCleared.

(** The refs and the state of the hook.  The render throttle
    ([recordsVersion], [renderTimeoutRef] and the copy of the statistics
    given to React) only republishes [statsRef] and is left out. *)
Record HookState := mkHook {
  recordsRef : list DomainRecord;
  indexRef : gmap jsstring nat;
  statsRef : Stats;
  stopRequestedRef : PerChecker bool;
  inFlightRef : PerChecker (gset jsstring);
  dnsQueueRef : list jsstring;
  rdapQueueRef : list jsstring;
  dnsQueueSetRef : gset jsstring;
  rdapQueueSetRef : gset jsstring;
  running : PerChecker bool;
  statusMessage : StatusMessage;
}.

Definition initialHook : HookState :=
  mkHook [] ∅ zeroStats (mkPer false false) (mkPer ∅ ∅) [] [] ∅ ∅
         (mkPer false false) MsgIdle.

Definition isQueueCounted (r : DomainRecord) : bool :=
  bool_decide (status r = Queued) || bool_decide (status r = Checking).
Definition isAvailable (r : DomainRecord) : bool := bool_decide (status r = Available).
Definition isTaken (r : DomainRecord) : bool := bool_decide (status r = Taken).
Definition isChecked (r : DomainRecord) : bool :=
  bool_decide (status r ≠ Queued) && bool_decide (status r ≠ Checking).
Definition isTakenOverall (r : DomainRecord) : bool :=
  bool_decide (status r = Taken) || bool_decide (rdapStatus r = RdapTaken).

(** [if (cond) counter += delta] *)
Definition bump (cond : bool) (delta : Z) (counter : Z) : Z :=
  if cond then counter + delta else counter.

(** One iteration of the loop of [recomputeStats]; and the body of
    [applyDelta] in [adjustStats], which leaves [total] alone. *)
Definition applyDelta (record : DomainRecord) (delta : Z) (s : Stats) : Stats :=
  mkStats (total s)
          (bump (isQueueCounted record) delta (queueCount s))
          (bump (isAvailable record) delta (totalAvailable s))
          (bump (isTaken record) delta (totalTaken s))
          (bump (isChecked record) delta (totalChecked s))
          (bump (isTakenOverall record) delta (takenOverall s)).

Definition recomputeStats (snapshot : list DomainRecord) : Stats :=
  let counted :=
    fold_left (fun s record => applyDelta record 1 s) snapshot zeroStats in
  mkStats (Z.of_nat (length snapshot)) (queueCount counted) (totalAvailable counted)
          (totalTaken counted) (totalChecked counted) (takenOverall counted).

Definition isRdapCandidate (record : DomainRecord) : bool :=
  bool_decide (status record = Available)
  && negb (bool_decide (rdapStatus record ∈ rdapFinalStatuses)).

(** A queue with its membership set. *)
Definition addToQueue (q : list jsstring * gset jsstring) (i : jsstring)
    : list jsstring * gset jsstring :=
  if decide (i ∈ q.2) then q else (q.1 ++ [i], {[i]} ∪ q.2).

Definition removeFromQueue (s : gset jsstring) (i : jsstring) : gset jsstring :=
  s ∖ {[i]}.

Definition adjustStats (prev : option DomainRecord) (next : DomainRecord) (s : Stats)
    : Stats :=
  let s := match prev with Some p => applyDelta p (-1) s | None => s end in
  applyDelta next 1 s.

Definition addTotal (s : Stats) : Stats :=
  mkStats (total s + 1) (queueCount s) (totalAvailable s) (totalTaken s)
          (totalChecked s) (takenOverall s).

(** The body of the [forEach] in [upsertRecords].  An index stored in
    [indexRef] is always a position of [recordsRef] (see
    [coherent_upsertOne]), so the assignment never falls outside the
    array. *)
Definition upsertOne (st : HookState) (item : DomainRecord) : HookState :=
  let existingIndex := indexRef st !! id item in
  let prev := existingIndex ≫= (fun i => recordsRef st !! i) in
  let records' :=
    match existingIndex with
    | Some i => <[i := item]> (recordsRef st)
    | None => recordsRef st ++ [item]
    end in
  let index' :=
    match existingIndex with
    | Some _ => indexRef st
    | None => <[id item := length (recordsRef st)]> (indexRef st)
    end in
  let stats' :=
    match existingIndex with
    | Some _ => statsRef st
    | None => addTotal (statsRef st)
    end in
  let stats' := adjustStats prev item stats' in
  let prevStatus := status <$> prev in
  let dnsSet :=
    if bool_decide (prevStatus = Some Queued) && bool_decide (status item ≠ Queued)
    then removeFromQueue (dnsQueueSetRef st) (id item)
    else dnsQueueSetRef st in
  let dnsQ :=
    if bool_decide (status item = Queued)
    then addToQueue (dnsQueueRef st, dnsSet) (id item)
    else (dnsQueueRef st, dnsSet) in
  let prevRdapCandidate :=
    match prev with Some p => isRdapCandidate p | None => false end in
  let nextRdapCandidate := isRdapCandidate item in
  let rdapSet :=
    if prevRdapCandidate && negb nextRdapCandidate
    then removeFromQueue (rdapQueueSetRef st) (id item)
    else rdapQueueSetRef st in
  let rdapQ :=
    if nextRdapCandidate
    then addToQueue (rdapQueueRef st, rdapSet) (id item)
    else (rdapQueueRef st, rdapSet) in
  mkHook records' index' stats' (stopRequestedRef st) (inFlightRef st)
         dnsQ.1 rdapQ.1 dnsQ.2 rdapQ.2 (running st) (statusMessage st).

(** The synchronous part of [upsertRecords]; what follows it
    ([syncRender], [putRecords]) does not touch the refs. *)
Definition upsertRecords (updates : list DomainRecord) (st : HookState) : HookState :=
  fold_left upsertOne updates st.

(** The effect that loads the stored records when the hook mounts. *)
Definition buildIndex (items : list DomainRecord) : gmap jsstring nat :=
  fold_left (fun m p => <[id p.2 := p.1]> m) (imap pair items) ∅.

Definition loadRecords (items : list DomainRecord) (st : HookState) : HookState :=
  let dnsQ :=
    fold_left (fun q item =>
                 if bool_decide (status item = Queued) then addToQueue q (id item) else q)
              items (dnsQueueRef st, dnsQueueSetRef st) in
  let rdapQ :=
    fold_left (fun q item =>
                 if isRdapCandidate item then addToQueue q (id item) else q)
              items (rdapQueueRef st, rdapQueueSetRef st) in
  mkHook items (buildIndex items) (recomputeStats items)
         (stopRequestedRef st) (inFlightRef st)
         dnsQ.1 rdapQ.1 dnsQ.2 rdapQ.2 (running st) (statusMessage st).

Definition queueOf (c : Checker) (st : HookState) : list jsstring :=
  match c with Dns => dnsQueueRef st | Rdap => rdapQueueRef st end.

Definition queueSetOf (c : Checker) (st : HookState) : gset jsstring :=
  match c with Dns => dnsQueueSetRef st | Rdap => rdapQueueSetRef st end.

Definition withQueue (c : Checker) (q : list jsstring) (s : gset jsstring)
    (st : HookState) : HookState :=
  match c with
  | Dns => mkHook (recordsRef st) (indexRef st) (statsRef st) (stopRequestedRef st)
                  (inFlightRef st) q (rdapQueueRef st) s (rdapQueueSetRef st)
                  (running st) (statusMessage st)
  | Rdap => mkHook (recordsRef st) (indexRef st) (statsRef st) (stopRequestedRef st)
                   (inFlightRef st) (dnsQueueRef st) q (dnsQueueSetRef st) s
                   (running st) (statusMessage st)
  end.

(** The [while (queueRef.length)] loop of [popCandidate]: the result, the
    popped identifier, and what is left of the queue and of its set. *)
Fixpoint popLoop (inFlight : gset jsstring) (index : gmap jsstring nat)
    (records : list DomainRecord) (queue : list jsstring) (members : gset jsstring)
    : option (jsstring * option DomainRecord) * list jsstring * gset jsstring :=
  match queue with
  | [] => (None, [], members)
  | i :: rest =>
      if decide (i ∉ members) then popLoop inFlight index records rest members
      else if decide (i ∈ inFlight) then popLoop inFlight index records rest members
      else match index !! i with
           | None => popLoop inFlight index records rest (members ∖ {[i]})
           | Some idx => (Some (i, records !! idx), rest, members ∖ {[i]})
           end
  end.

(** [popCandidate]: [recordsRef.current[idx]] or [null]. *)
Definition popCandidate (c : Checker) (st : HookState)
    : option DomainRecord * HookState :=
  let '(found, queue', members') :=
    popLoop (get c (inFlightRef st)) (indexRef st) (recordsRef st)
            (queueOf c st) (queueSetOf c st) in
  (found ≫= snd, withQueue c queue' members' st).

Definition withInFlight (c : Checker) (s : gset jsstring) (st : HookState) : HookState :=
  mkHook (recordsRef st) (indexRef st) (statsRef st) (stopRequestedRef st)
         (set c s (inFlightRef st)) (dnsQueueRef st) (rdapQueueRef st)
         (dnsQueueSetRef st) (rdapQueueSetRef st) (running st) (statusMessage st).

Definition withStop (p : PerChecker bool) (st : HookState) : HookState :=
  mkHook (recordsRef st) (indexRef st) (statsRef st) p
         (inFlightRef st) (dnsQueueRef st) (rdapQueueRef st)
         (dnsQueueSetRef st) (rdapQueueSetRef st) (running st) (statusMessage st).

Definition withRunning (p : PerChecker bool) (st : HookState) : HookState :=
  mkHook (recordsRef st) (indexRef st) (statsRef st) (stopRequestedRef st)
         (inFlightRef st) (dnsQueueRef st) (rdapQueueRef st)
         (dnsQueueSetRef st) (rdapQueueSetRef st) p (statusMessage st).

Definition withMessage (m : StatusMessage) (st : HookState) : HookState :=
  mkHook (recordsRef st) (indexRef st) (statsRef st) (stopRequestedRef st)
         (inFlightRef st) (dnsQueueRef st) (rdapQueueRef st)
         (dnsQueueSetRef st) (rdapQueueSetRef st) (running st) m.

(** [processOne] up to its first suspension: the stop check, the pop,
    the in-flight mark and, for DNS, the write of [checking]. *)
Definition processOneClaim (c : Checker) (st : HookState)
    : option DomainRecord * HookState :=
  if get c (stopRequestedRef st) then (None, st)
  else
    match popCandidate c st with
    | (None, st') => (None, st')
    | (Some candidate, st') =>
        let st' := withInFlight c ({[id candidate]} ∪ get c (inFlightRef st')) st' in
        let st' :=
          match c with
          | Dns => upsertRecords [withStatus Checking candidate] st'
          | Rdap => st'
          end in
        (Some candidate, st')
    end.

(** The lookup of [processOne] for a claimed candidate. *)
Definition processOneLookup (c : Checker) (now : Z) (dnsFetched : DnsFetch)
    (rdapFetched : RdapFetch) (candidate : DomainRecord) : DomainRecord :=
  match c with
  | Dns => runDnsLookup now dnsFetched rdapFetched (withStatus Checking candidate)
  | Rdap => runRdapOnly now rdapFetched candidate
  end.

(** [await upsertRecords([processed])], its synchronous part. *)
Definition processOneWrite (processed : DomainRecord) (st : HookState) : HookState :=
  upsertRecords [processed] st.

(** The end of [processOne]: the message and the in-flight release;
    [processedCount] is the counter after its increment. *)
Definition processOneRelease (c : Checker) (processedCount : nat)
    (candidate : DomainRecord) (st : HookState) : HookState :=
  let st := withMessage (MsgChecked c processedCount) st in
  withInFlight c (get c (inFlightRef st) ∖ {[id candidate]}) st.

(** [enqueueDomains].  [createId k] and [now k] are the results of the
    k-th calls of [createId()] and [Date.now()] made by this call. *)
Definition enqueueEntry (toLowerCase : jsstring -> jsstring)
    (createId : nat -> jsstring) (now : nat -> Z)
    (acc : gset jsstring * list DomainRecord) (entry : jsstring)
    : gset jsstring * list DomainRecord :=
  match DomainUtils.normalizeDomain toLowerCase entry with
  | None => acc
  | Some normalized =>
      if decide (normalized ∈ acc.1) then acc
      else ({[normalized]} ∪ acc.1,
            acc.2 ++ [mkRecord (createId (length acc.2)) normalized
                               (DomainUtils.deriveCore normalized)
                               Queued RdapNotChecked (now (length acc.2)) None Import_])
  end.

(** The list [toAdd] built by [enqueueDomains]. *)
Definition newRecords (toLowerCase : jsstring -> jsstring)
    (createId : nat -> jsstring) (now : nat -> Z)
    (rawInput : jsstring) (st : HookState) : list DomainRecord :=
  let entries := DomainUtils.parseDomainInput rawInput in
  let existing : gset jsstring := list_to_set (domain <$> recordsRef st) in
  (fold_left (enqueueEntry toLowerCase createId now) entries (existing, [])).2.

Definition enqueueDomains (toLowerCase : jsstring -> jsstring)
    (createId : nat -> jsstring) (now : nat -> Z)
    (rawInput : jsstring) (st : HookState) : HookState :=
  let toAdd := newRecords toLowerCase createId now rawInput st in
  match toAdd with
  | [] => withMessage MsgNoNewDomains st
  | _ => withMessage (MsgAdded (length toAdd)) (upsertRecords toAdd st)
  end.

(** [startChecker] up to the launch of the workers. *)
Definition startCheckerBegin (c : Checker) (st : HookState) : HookState :=
  if get c (running st) then st
  else
    let st := withInFlight c ∅ st in
    let st := withStop (set c false (stopRequestedRef st)) st in
    let st := withRunning (set c true (running st)) st in
    withMessage (MsgRunning c) st.

(** [startChecker] after [Promise.all(workers)]. *)
Definition startCheckerEnd (c : Checker) (processedCount : nat) (st : HookState)
    : HookState :=
  let wasStopped := get c (stopRequestedRef st) in
  let st := withStop (set c false (stopRequestedRef st)) st in
  let st := withRunning (set c false (running st)) st in
  withMessage
    (if wasStopped then MsgFinishingBatch
     else if bool_decide (processedCount = 0%nat) then MsgNothingToCheck c
     else MsgCheckerIdle c) st.

Definition stopChecker (c : Checker) (st : HookState) : HookState :=
  if negb (get c (running st)) then st
  else
    let st := withStop (set c true (stopRequestedRef st)) st in
    withMessage (MsgStopRequested c) st.

(** [handleClear]; the queues, their sets and the in-flight sets are not
    reset by it. *)
Definition handleClear (st : HookState) : HookState :=
  mkHook [] ∅ zeroStats (mkPer true true) (inFlightRef st)
         (dnsQueueRef st) (rdapQueueRef st) (dnsQueueSetRef st) (rdapQueueSetRef st)
         (mkPer false false) MsgHistoryCleared.

End Hook.

(** ** The worker pools of [startChecker]

    JavaScript runs each piece of code between two suspension points
    without interruption.  A worker is therefore modelled by the phase it
    is suspended in, and the scheduler by a step relation in which any
    worker of either pool, or the user (enqueue, start, stop, clear), takes
    the next step. *)

Module Pool.
Import JsString DomainTypes LookupService Hook.

(** Where a worker of [startChecker] is suspended. *)
Inductive WorkerPhase :=
| AtLoopHead                                          (* at the test of [while] *)
| Holding (before : nat) (candidate : DomainRecord)   (* lookup outstanding *)
| Written (before : nat) (candidate : DomainRecord)   (* result written, [putRecords] outstanding *)
| AfterProcessOne (before : nat)                      (* [processOne] has returned *)
| Exited.

(** The key a worker has claimed and not yet released. *)
Definition holds (w : WorkerPhase) : option jsstring :=
  match w with
  | Holding _ candidate | Written _ candidate => Some (id candidate)
  | _ => None
  end.

(** One call of [startChecker]: its workers and its [processedCount].
    No workers: the call has completed. *)
Record PoolState := mkPool {
  workers : list WorkerPhase;
  processedCount : nat;
}.

(** The hook, and for each checker the calls of [startChecker] made so
    far, in their order.  The guard of [startChecker] is [running], which
    [handleClear] resets while the workers of a call may still be
    suspended: the workers of several calls can be alive at once, each
    with the [processedCount] of its own call and all on the same refs. *)
Record System := mkSystem {
  hook : HookState;
  pools : PerChecker (list PoolState);
}.

(** What the network and the clock give to one worker step. *)
Record Oracle := mkOracle {
  clock : Z;
  dnsFetched : DnsFetch;
  rdapFetched : RdapFetch;
}.

(** The next step of a worker in phase [w]: its new phase, the new
    [processedCount] and the new state of the hook. *)
Definition workerStep (c : Checker) (o : Oracle) (w : WorkerPhase)
    (count : nat) (st : HookState) : WorkerPhase * nat * HookState :=
  match w with
  | AtLoopHead =>
      if get c (stopRequestedRef st) then (Exited, count, st)
      else
        match processOneClaim c st with
        | (Some candidate, st') => (Holding count candidate, count, st')
        | (None, st') => (AfterProcessOne count, count, st')
        end
  | Holding before candidate =>
      let processed :=
        processOneLookup c (clock o) (dnsFetched o) (rdapFetched o) candidate in
      (Written before candidate, count, processOneWrite processed st)
  | Written before candidate =>
      (AfterProcessOne before, S count, processOneRelease c (S count) candidate st)
  | AfterProcessOne before =>
      if get c (stopRequestedRef st) then (Exited, count, st)
      else
        let progressMade := bool_decide (before < count)%nat in
        let hasMore := negb (bool_decide (size (queueSetOf c st) = 0%nat)) in
        if negb progressMade && negb hasMore then (Exited, count, st)
        else (AtLoopHead, count, st)
  | Exited => (Exited, count, st)
  end.

(** A step of worker [i] of call [g] of checker [c]. *)
Definition runWorker (c : Checker) (g i : nat) (o : Oracle) (s : System) : System :=
  match get c (pools s) !! g with
  | None => s
  | Some pool =>
      match workers pool !! i with
      | None => s
      | Some w =>
          let '(w', count', st') := workerStep c o w (processedCount pool) (hook s) in
          mkSystem st'
            (set c (<[g := mkPool (<[i := w']> (workers pool)) count']> (get c (pools s)))
                 (pools s))
      end
  end.

Definition allExited (ws : list WorkerPhase) : bool :=
  forallb (fun w => match w with Exited => true | _ => false end) ws.

(** A call of [startChecker]: nothing when [running] is set, else the
    launch of [BATCH_SIZE] workers beside those of earlier calls. *)
Definition start (c : Checker) (s : System) : System :=
  if get c (running (hook s)) then s
  else mkSystem (startCheckerBegin c (hook s))
                (set c (get c (pools s) ++ [mkPool (replicate BATCH_SIZE AtLoopHead) 0])
                     (pools s)).

(** The continuation of [await Promise.all(workers)] of call [g]. *)
Definition finish (c : Checker) (g : nat) (s : System) : System :=
  match get c (pools s) !! g with
  | None => s
  | Some pool =>
      mkSystem (startCheckerEnd c (processedCount pool) (hook s))
               (set c (<[g := mkPool [] (processedCount pool)]> (get c (pools s)))
                    (pools s))
  end.

(** What can happen next: a step of worker [i] of call [g] of a checker,
    the completion of a call, or a request of the user. *)
Inductive Event :=
| WorkerStep (c : Checker) (g i : nat) (o : Oracle)
| Enqueue (createId : nat -> jsstring) (now : nat -> Z) (rawInput : jsstring)
| Start (c : Checker)
| Finish (c : Checker) (g : nat)
| Stop (c : Checker)
| Clear.

Section Steps.

Variable toLowerCase : jsstring -> jsstring.

Definition perform (e : Event) (s : System) : System :=
  match e with
  | WorkerStep c g i o => runWorker c g i o s
  | Enqueue createId now rawInput =>
      mkSystem (enqueueDomains toLowerCase createId now rawInput (hook s)) (pools s)
  | Start c => start c s
  | Finish c g => finish c g s
  | Stop c => mkSystem (stopChecker c (hook s)) (pools s)
  | Clear => mkSystem (handleClear (hook s)) (pools s)
  end.

(** A worker that exists can take its step at any time; a call completes
    once, when its workers have all exited; the requests of the user can
    come at any time ([startChecker] and [stopChecker] test [running]
    themselves). *)
Definition enabled (e : Event) (s : System) : Prop :=
  match e with
  | WorkerStep c g i _ =>
      exists pool, get c (pools s) !! g = Some pool /\ (i < length (workers pool))%nat
  | Finish c g =>
      exists pool, get c (pools s) !! g = Some pool
                   /\ workers pool <> [] /\ allExited (workers pool) = true
  | Start _ | Enqueue _ _ _ | Stop _ | Clear => True
  end.

Definition step (s s' : System) : Prop :=
  exists e, enabled e s /\ s' = perform e s.

(** The hook after it has mounted: the stored records are loaded (none
    when the store is empty), no checker was started. *)
Definition initial (s : System) : Prop :=
  exists items, s = mkSystem (loadRecords items initialHook) (mkPer [] []).

Definition reachable (s : System) : Prop :=
  exists s0, initial s0 /\ rtc step s0 s.

(** The identifiers that an event takes from [createId]. *)
Definition issued (e : Event) (s : System) : list jsstring :=
  match e with
  | Enqueue createId now rawInput =>
      id <$> newRecords toLowerCase createId now rawInput (hook s)
  | _ => []
  end.

(** The same steps with the guarantee [createId] relies on
    ([crypto.randomUUID]): an identifier is issued once.  The second
    component is the set of the identifiers in use so far. *)
Definition performUnique (e : Event) (p : System * gset jsstring)
    : System * gset jsstring :=
  (perform e p.1, list_to_set (issued e p.1) ∪ p.2).

Definition stepUnique (p p' : System * gset jsstring) : Prop :=
  exists e, enabled e p.1
    /\ NoDup (issued e p.1)
    /\ (forall k, k ∈ issued e p.1 -> k ∉ p.2)
    /\ p' = performUnique e p.

(** The object store is keyed by [id]: the records loaded from it have
    distinct identifiers. *)
Definition initialUnique (p : System * gset jsstring) : Prop :=
  exists items, NoDup (id <$> items)
    /\ p = (mkSystem (loadRecords items initialHook) (mkPer [] []),
            list_to_set (id <$> items)).

Definition reachableUnique (p : System * gset jsstring) : Prop :=
  exists p0, initialUnique p0 /\ rtc stepUnique p0 p.

End Steps.

End Pool.

(** ** hooks/useDomainChecker.ts, the revision without queues

    The first revision of the hook keeps the records in a state array
    that [upsertRecords] rebuilds through a [Map], and computes the
    counters by filtering that array.  A [Map] keeps its keys in the
    order of their first insertion; it is a list of entries here. *)

Module HookV1.
Import JsString DomainTypes Hook.

Definition JsMap := list (jsstring * DomainRecord).

(** [map.set(key, value)]: the value of a present key is replaced where
    it is, a new key is added at the end. *)
Definition mapSet (map : JsMap) (key : jsstring) (value : DomainRecord) : JsMap :=
  if decide (key ∈ map.*1)
  then (fun entry => if decide (entry.1 = key) then (key, value) else entry) <$> map
  else map ++ [(key, value)].

(** [new Map(entries)] *)
Definition newMap (entries : list (jsstring * DomainRecord)) : JsMap :=
  fold_left (fun map entry => mapSet map entry.1 entry.2) entries [].

(** [upsertRecords], the array it leaves in [recordsRef]. *)
Definition upsertRecords (updates prev : list DomainRecord) : list DomainRecord :=
  match updates with
  | [] => prev
  | _ =>
      let map := newMap ((fun item => (id item, item)) <$> prev) in
      let map := fold_left (fun map item => mapSet map (id item) item) updates map in
      map.*2
  end.

(** [records.filter(pred).length] *)
Definition count (pred : DomainRecord -> bool) (records : list DomainRecord) : Z :=
  Z.of_nat (length (List.filter pred records)).

Definition queueCount (records : list DomainRecord) : Z := count isQueueCounted records.
Definition totalAvailable (records : list DomainRecord) : Z := count isAvailable records.
Definition totalTaken (records : list DomainRecord) : Z := count isTaken records.
Definition totalChecked (records : list DomainRecord) : Z := count isChecked records.
Definition takenOverall (records : list DomainRecord) : Z := count isTakenOverall records.

End HookV1.

(** ** hooks/useDomainChecker.ts, the revision with batches

    The oldest revision of the hook has one checker, which processes the
    candidates in batches of [BATCH_SIZE] and waits for a whole batch
    before it tests the stop flag.  Its [upsertRecords] is the one of the
    revision without queues. *)

Module HookBatch.
Import JsString DomainTypes LookupService Hook.

Inductive StatusMessage :=
| MsgIdle
| MsgRdapOnlyRunning
| MsgCheckerStarted
| MsgNothingLeft
| MsgProcessed (n : nat)
| MsgStopRequested
| MsgCheckerIdle.

Record State := mkState {
  recordsRef : list DomainRecord;
  stopRequestedRef : bool;
  rdapOnlyRef : bool;
  isRunning : bool;
  statusMessage : StatusMessage;
}.



Definition withMessage (m : StatusMessage) (st : State) : State :=
  mkState (recordsRef st) (stopRequestedRef st) (rdapOnlyRef st) (isRunning st) m.











End HookBatch.

(** ** features/domain-checker/DomainCheckerPage.tsx

    The table of the page: the filters, the pages of [PAGE_SIZE] rows and
    the sort state.  [sortRecords] is the sort of the host and is not
    modelled; the table is given the sorted array. *)

Module DomainCheckerPage.
Import JsString DomainTypes.

Definition PAGE_SIZE : Z := 20.

(** The relative index of [Array.prototype.slice]. *)
Definition relativeIndex (len k : Z) : Z :=
  if k <? 0 then Z.max (len + k) 0 else Z.min k len.

(** [array.slice(start, end)] *)
Definition slice {A : Type} (start final : Z) (array : list A) : list A :=
  let len := Z.of_nat (length array) in
  let k := relativeIndex len start in
  let final := relativeIndex len final in
  take (Z.to_nat (final - k)) (drop (Z.to_nat k) array).

(** [Math.ceil(a / b)] for an array length [a] and a positive integer [b]:
    the quotient of the two integers is rounded to a double that is an
    integer only when the division is exact. *)
Definition ceilDiv (a b : Z) : Z := if a mod b =? 0 then a / b else a / b + 1.

Definition totalPages (sortedRecords : list DomainRecord) : Z :=
  Z.max 1 (ceilDiv (Z.of_nat (length sortedRecords)) PAGE_SIZE).

Definition safePage (page : Z) (sortedRecords : list DomainRecord) : Z :=
  Z.min page (totalPages sortedRecords).

Definition pagedRecords (page : Z) (sortedRecords : list DomainRecord)
    : list DomainRecord :=
  slice ((safePage page sortedRecords - 1) * PAGE_SIZE)
        (safePage page sortedRecords * PAGE_SIZE) sortedRecords.

Definition showingStart (page : Z) (sortedRecords : list DomainRecord) : Z :=
  (safePage page sortedRecords - 1) * PAGE_SIZE + 1.

Definition showingEnd (page : Z) (sortedRecords : list DomainRecord) : Z :=
  Z.min (safePage page sortedRecords * PAGE_SIZE) (Z.of_nat (length sortedRecords)).

(** The effect that follows a change of [page] or [totalPages]. *)
Definition clampPage (page : Z) (sortedRecords : list DomainRecord) : Z :=
  if page >? totalPages sortedRecords then totalPages sortedRecords else page.


Inductive SortField := SortDomain | SortCore | SortCreatedAt.

#[global] Instance SortField_eq_dec : EqDecision SortField.
Proof. solve_decision. Defined.




(** [haystack.includes(needle)] *)
Fixpoint includesString (needle haystack : jsstring) : bool :=
  startsWith needle haystack
  || match haystack with
     | [] => false
     | _ :: rest => includesString needle rest
     end.

(** The filters of the table; [None] is the choice [all]. *)
Record Filters := mkFilters {
  statusFilter : option DomainStatus;
  rdapFilter : option RdapStatus;
  searchTerm : jsstring;
  minChars : jsstring;
  maxChars : jsstring;
}.

Section Filter.

(** [String.prototype.toLowerCase] of the host, and
    [Number.parseInt(s, 10)] where [Number.isFinite] holds of it: an
    integer, or [None] for [NaN] and the infinities. *)
Variable toLowerCase : jsstring -> jsstring.
Variable parseInt : jsstring -> option Z.

Definition matches (f : Filters) (item : DomainRecord) : bool :=
  let term := toLowerCase (trim (searchTerm f)) in
  let minCharsValue := parseInt (minChars f) in
  let maxCharsValue := parseInt (maxChars f) in
  let statusMatch :=
    match statusFilter f with
    | None => true
    | Some s => bool_decide (status item = s)
    end in
  let rdapMatch :=
    match rdapFilter f with
    | None => true
    | Some r => bool_decide (rdapStatus item = r)
    end in
  let textMatch :=
    isEmpty term || includesString term (domain item) || includesString term (core item) in
  let coreLength := Z.of_nat (length (core item)) in
  let minMatch :=
    match minCharsValue with None => true | Some m => coreLength >=? m end in
  let maxMatch :=
    match maxCharsValue with None => true | Some m => coreLength <=? m end in
  statusMatch && rdapMatch && textMatch && minMatch && maxMatch.

Definition filteredRecords (f : Filters) (records : list DomainRecord)
    : list DomainRecord :=
  List.filter (matches f) records.

End Filter.

End DomainCheckerPage.

(** ** Vocabulary of the properties *)

Import JsString DomainTypes LookupService Hook.

(** What a result of [normalizeDomain] looks like. *)
Definition wellFormedDomain (d : jsstring) : Prop :=
  d <> [] /\ Forall (fun c => isDomainChar c = true) d
  /\ includes 46%N d = true
  /\ head d <> Some 46%N /\ last d <> Some 46%N.

(** The number of entries of a key in a queue. *)
Definition entries (i : jsstring) (q : list jsstring) : nat :=
  length (filter (fun j => j = i) q).

(** [addToQueue] called [n] times with the same key. *)
Fixpoint enqueueTimes (n : nat) (i : jsstring) (q : list jsstring * gset jsstring)
    : list jsstring * gset jsstring :=
  match n with
  | O => q
  | S n' => enqueueTimes n' i (addToQueue q i)
  end.

(** Every index kept in [indexRef] is the position of the record with that
    identifier. *)
Definition coherent (st : HookState) : Prop :=
  forall i idx, indexRef st !! i = Some idx ->
    exists r, recordsRef st !! idx = Some r /\ id r = i.

(** The operations on the store: an enqueue, an upsert of one or several
    records, a clear. *)
Inductive StoreOp :=
| OpEnqueue (createId : nat -> jsstring) (now : nat -> Z) (rawInput : jsstring)
| OpUpsert (updates : list DomainRecord)
| OpClear.

Definition applyOp (toLowerCase : jsstring -> jsstring) (st : HookState) (op : StoreOp)
    : HookState :=
  match op with
  | OpEnqueue createId now rawInput => enqueueDomains toLowerCase createId now rawInput st
  | OpUpsert updates => upsertRecords updates st
  | OpClear => handleClear st
  end.

(** The number of records of a snapshot that satisfy a predicate. *)
Fixpoint tally (f : DomainRecord -> bool) (snapshot : list DomainRecord) : Z :=
  match snapshot with
  | [] => 0
  | r :: rest => (if f r then 1 else 0) + tally f rest
  end.

Definition indicator (b : bool) : Z := if b then 1 else 0.

(** The statistics kept in [statsRef] are those of a rescan. *)
Definition statsExact (st : HookState) : Prop :=
  statsRef st = recomputeStats (recordsRef st).

(** An authoritative-positive answer of the DNS lookup: a numeric [Status]
    other than 3 (NXDOMAIN), 2 and 5. *)
Definition authoritativePositive (code : StatusField) : Prop :=
  match code with
  | StatusInteger n => n <> 3 /\ n <> 2 /\ n <> 5
  | StatusOtherNumber => True
  | StatusNotANumber => False
  end.

(** The record stored for an identifier. *)
Definition stored (i : jsstring) (st : HookState) : option DomainRecord :=
  indexRef st !! i ≫= (fun idx => recordsRef st !! idx).

(** [n] successive claims of one checker: the candidates obtained. *)
Fixpoint claimTimes (c : Checker) (n : nat) (st : HookState)
    : list DomainRecord * HookState :=
  match n with
  | O => ([], st)
  | S n' =>
      let '(found, st') := processOneClaim c st in
      let '(rest, st'') := claimTimes c n' st' in
      (match found with Some r => r :: rest | None => rest end, st'')
  end.

Definition exampleRecord (s : DomainStatus) (r : RdapStatus) : DomainRecord :=
  mkRecord (js "id-1") (js "a.test") (js "a") s r 1 None Import_.

(** A run in which the RDAP lookup of the only record fails: the record
    is loaded, the RDAP pool is started, its first worker claims the
    record, and the failed lookup is written back. *)
Definition failingOracle : Pool.Oracle := Pool.mkOracle 9 DnsFetchThrows RdapFetchThrows.


(** Worker [i] of call [g] of checker [c] is in phase [w]. *)
Definition workerAt (s : Pool.System) (c : Checker) (g i : nat) (w : Pool.WorkerPhase)
    : Prop :=
  exists pool, get c (Pool.pools s) !! g = Some pool /\ Pool.workers pool !! i = Some w.

(** A worker of the list has an outstanding lookup for [candidate]. *)
Definition lookingUp (ws : list Pool.WorkerPhase) (candidate : DomainRecord) : Prop :=
  exists i before, ws !! i = Some (Pool.Holding before candidate).

(** A worker of checker [c], of any call, has an outstanding lookup for
    [candidate]. *)
Definition looksUp (c : Checker) (s : Pool.System) (candidate : DomainRecord) : Prop :=
  exists g i before, workerAt s c g i (Pool.Holding before candidate).

(** No two workers, of whatever checker and call, have a lookup
    outstanding for the same key. *)
Definition lookupsUnique (s : Pool.System) : Prop :=
  forall c g i b candidate c' g' i' b' candidate',
    workerAt s c g i (Pool.Holding b candidate) ->
    workerAt s c' g' i' (Pool.Holding b' candidate') ->
    id candidate = id candidate' -> c = c' /\ g = g' /\ i = i'.

(** A lookup is outstanding for key [k], in either pool. *)
Definition busy (s : Pool.System) (k : jsstring) : Prop :=
  exists c candidate, id candidate = k /\ looksUp c s candidate.

(** The members of a queue set that are in the store are eligible for the
    stage of the queue. *)
Definition queuesSound (st : HookState) : Prop :=
  (forall k r, k ∈ dnsQueueSetRef st -> stored k st = Some r -> status r = Queued)
  /\ (forall k r, k ∈ rdapQueueSetRef st -> stored k st = Some r ->
        isRdapCandidate r = true).

(** The second version of a hook state has the store of the first and
    queue sets that are not larger. *)
Definition quieter (st st' : HookState) : Prop :=
  recordsRef st' = recordsRef st /\ indexRef st' = indexRef st
  /\ dnsQueueSetRef st' ⊆ dnsQueueSetRef st
  /\ rdapQueueSetRef st' ⊆ rdapQueueSetRef st.

(** What holds of the pipeline in every state reached with identifiers
    issued once: the index agrees with the array; the queue sets are
    sound; the identifiers in the index, in the queue sets or under lookup
    are in use; a key under lookup is in neither queue set; no two workers
    look up the same key; the verify stage only looks up available items
    and the resolve stage only queued ones. *)
Definition pipelineInvariant (p : Pool.System * gset jsstring) : Prop :=
  coherent (Pool.hook p.1)
  /\ queuesSound (Pool.hook p.1)
  /\ (forall k, is_Some (indexRef (Pool.hook p.1) !! k)
                \/ k ∈ dnsQueueSetRef (Pool.hook p.1)
                \/ k ∈ rdapQueueSetRef (Pool.hook p.1)
                \/ busy p.1 k -> k ∈ p.2)
  /\ (forall k, busy p.1 k ->
        (k ∉ dnsQueueSetRef (Pool.hook p.1)) /\ (k ∉ rdapQueueSetRef (Pool.hook p.1)))
  /\ lookupsUnique p.1
  /\ (forall candidate, looksUp Rdap p.1 candidate -> status candidate = Available)
  /\ (forall candidate, looksUp Dns p.1 candidate -> status candidate = Queued).

(** Key [x] is settled with record [final]: it is in use, in neither queue
    set, under no lookup, and its record, when it is in the store, is
    [final]. *)
Definition settled (x : jsstring) (final : DomainRecord)
    (p : Pool.System * gset jsstring) : Prop :=
  (x ∈ p.2)
  /\ (x ∉ dnsQueueSetRef (Pool.hook p.1))
  /\ (x ∉ rdapQueueSetRef (Pool.hook p.1))
  /\ ~ busy p.1 x
  /\ (forall r, stored x (Pool.hook p.1) = Some r -> r = final).


(** A run in which the only record, queued, is claimed by the first worker
    of the DNS pool. *)
Definition claimedByDns : Pool.System * gset jsstring :=
  Pool.performUnique DomainUtils.asciiToLowerCase (Pool.WorkerStep Dns 0 0 failingOracle)
    (Pool.performUnique DomainUtils.asciiToLowerCase (Pool.Start Dns)
       (Pool.mkSystem (loadRecords [exampleRecord Queued RdapNotChecked] initialHook)
                      (mkPer [] []),
        list_to_set (id <$> [exampleRecord Queued RdapNotChecked]))).

(** The three kinds of steps of a worker of pool [c], from phase [w] and
    hook state [st]: a step that starts no lookup and writes nothing; the
    claim of a candidate; the write of the result of a lookup. *)
Inductive workerEffect (c : Checker) (st : HookState) (w : Pool.WorkerPhase)
  : Pool.WorkerPhase -> HookState -> Prop :=
| EffectQuiet w' st' :
    (forall b candidate, w' <> Pool.Holding b candidate) ->
    quieter st st' ->
    workerEffect c st w w' st'
| EffectClaim b candidate st1 :
    (forall b' candidate', w <> Pool.Holding b' candidate') ->
    quieter st st1 ->
    id candidate ∈ queueSetOf c st ->
    stored (id candidate) st = Some candidate ->
    id candidate ∉ queueSetOf c st1 ->
    workerEffect c st w (Pool.Holding b candidate)
      (match c with
       | Dns => upsertOne st1 (withStatus Checking candidate)
       | Rdap => st1
       end)
| EffectWrite b candidate item :
    w = Pool.Holding b candidate ->
    id item = id candidate ->
    match c with
    | Dns => status item <> Queued
    | Rdap => status item = status candidate
    end ->
    workerEffect c st w (Pool.Written b candidate) (upsertOne st item).

(** The last record of a batch of updates that has identifier [k]. *)
Definition lastUpdate (k : jsstring) (updates : list DomainRecord) : option DomainRecord :=
  last (filter (fun r => id r = k) updates).

(** What [enqueueDomains] guarantees of a record it creates, in a store
    with the records [existing]. *)
Definition newlyQueued (existing : list DomainRecord) (r : DomainRecord) : Prop :=
  status r = Queued /\ rdapStatus r = RdapNotChecked /\ checkedAt r = None
  /\ wellFormedDomain (domain r)
  /\ core r = DomainUtils.deriveCore (domain r)
  /\ domain r ∉ domain <$> existing.

(** The entries that [popCandidate] shifts off a queue without returning
    them: keys that are no member of the queue set, keys in flight, and
    keys without an index. *)
Definition passedOver (c : Checker) (st : HookState) (i : jsstring) : Prop :=
  i ∉ queueSetOf c st \/ i ∈ get c (inFlightRef st) \/ indexRef st !! i = None.

(** What [normalizeDomain] removes in front of the host: nothing, [//],
    or a scheme of letters with [://]. *)
Definition urlPrefix (p : jsstring) : Prop :=
  p = [] \/ p = js "//"
  \/ exists scheme, scheme <> [] /\ forallb isAsciiLetter scheme = true
                    /\ p = scheme ++ js "://".

(** What [normalizeDomain] removes behind the host: nothing, or a path, a
    query or a fragment. *)
Definition urlSuffix (s : jsstring) : Prop :=
  s = [] \/ exists d tail, s = d :: tail /\ isDelimiter d = true.

(** Every record of the array has its position in the index. *)
Definition indexComplete (st : HookState) : Prop :=
  forall idx r, recordsRef st !! idx = Some r -> indexRef st !! id r = Some idx.



(** A run that drops the queue entry of a key in flight: two records wait
    for RDAP; worker 0 claims the first and worker 1 the second; the
    lookup of worker 1 is answered and written; the lookup of worker 0
    fails and is written, which enqueues its key again; worker 1 releases
    its key, goes round the loop and pops: it shifts the entry of the key
    that worker 0 has not released yet. *)
Definition answeringOracle : Pool.Oracle :=
  Pool.mkOracle 9 DnsFetchThrows (RdapResponse 200).

Definition otherRecord : DomainRecord :=
  mkRecord (js "id-2") (js "b.test") (js "b") Available RdapNotChecked 2 None Import_.

Definition droppedEntryRun : list Pool.Event :=
  [Pool.Start Rdap;
   Pool.WorkerStep Rdap 0 0 failingOracle; Pool.WorkerStep Rdap 0 1 answeringOracle;
   Pool.WorkerStep Rdap 0 1 answeringOracle; Pool.WorkerStep Rdap 0 0 failingOracle;
   Pool.WorkerStep Rdap 0 1 answeringOracle; Pool.WorkerStep Rdap 0 1 answeringOracle;
   Pool.WorkerStep Rdap 0 1 answeringOracle].

Definition afterDroppedEntry : Pool.System :=
  fold_left (fun s e => Pool.perform DomainUtils.asciiToLowerCase e s) droppedEntryRun
    (Pool.mkSystem
       (loadRecords [exampleRecord Available RdapNotChecked; otherRecord] initialHook)
       (mkPer [] [])).

(** A run in which the history is cleared, and the RDAP checker started
    again, while two workers of its first call are suspended in lookups.
    Two records wait for RDAP; worker 0 of the first call claims the first
    and worker 1 the second.  [handleClear] empties the store and resets
    [running]; the second call of [startChecker] passes the guard, empties
    the in-flight set and resets the stop flag.  The lookup of worker 0
    fails and is written, which stores its record again and enqueues its
    key; the lookup of worker 1 is answered and written; worker 1 releases
    its key, goes round the loop and pops the key of worker 0, which is no
    longer in the in-flight set. *)
Definition restartRun : list Pool.Event :=
  [Pool.Start Rdap;
   Pool.WorkerStep Rdap 0 0 failingOracle; Pool.WorkerStep Rdap 0 1 answeringOracle;
   Pool.Clear; Pool.Start Rdap;
   Pool.WorkerStep Rdap 0 0 failingOracle; Pool.WorkerStep Rdap 0 1 answeringOracle;
   Pool.WorkerStep Rdap 0 1 answeringOracle; Pool.WorkerStep Rdap 0 1 answeringOracle;
   Pool.WorkerStep Rdap 0 1 answeringOracle].

Definition afterRestart : Pool.System :=
  fold_left (fun s e => Pool.perform DomainUtils.asciiToLowerCase e s) restartRun
    (Pool.mkSystem
       (loadRecords [exampleRecord Available RdapNotChecked; otherRecord] initialHook)
       (mkPer [] [])).

(** *** The rate limiter of the RDAP lookups *)

(** The call has run its task and its cool-down and has released the
    lock. *)
Definition hasReleased (c : RdapLock.Call) : Prop :=
  exists started settled, RdapLock.phase c = RdapLock.Released started settled.

(** The times that a call recorded lie in the past, in their order, and
    a call that released the lock did so no sooner than its cool-down
    allowed. *)
Definition timely (now : Z) (c : RdapLock.Call) : Prop :=
  match RdapLock.phase c with
  | RdapLock.AwaitPrevious => True
  | RdapLock.AwaitTask started => started <= now
  | RdapLock.AwaitTimer started settled => started <= settled /\ settled <= now
  | RdapLock.Released started settled =>
      started <= settled /\ settled + RdapLock.COOL_DOWN <= now
  end.

(** The calls before call [i] have all released the lock, each
    [COOL_DOWN] or more before the time [t]. *)
Definition predecessorsDone (s : RdapLock.State) (i : nat) (t : Z) : Prop :=
  forall (h : nat) (ch : RdapLock.Call),
    (h < i)%nat -> RdapLock.calls s !! h = Some ch ->
    exists started settled,
      RdapLock.phase ch = RdapLock.Released started settled
      /\ started <= settled
      /\ settled + RdapLock.COOL_DOWN <= t.

(** The calls form a chain: call [i] awaits the promise that call
    [i - 1] resolves, and [rdapLock] is the promise of the last call. *)
Definition lockInvariant (s : RdapLock.State) : Prop :=
  RdapLock.rdapLock s = length (RdapLock.calls s)
  /\ length (RdapLock.promises s) = S (length (RdapLock.calls s))
  /\ RdapLock.promises s !! 0%nat = Some true
  /\ (forall (i : nat) (c : RdapLock.Call),
        RdapLock.calls s !! i = Some c ->
        RdapLock.previous c = i /\ RdapLock.release c = S i
        /\ (RdapLock.promises s !! S i = Some true <-> hasReleased c)
        /\ timely (RdapLock.clock s) c)
  /\ (forall (j : nat) (cj : RdapLock.Call) (t : Z),
        RdapLock.calls s !! j = Some cj ->
        RdapLock.startedAt cj = Some t ->
        predecessorsDone s j t).

(** A run of the limiter: three calls from both callers, the second and
    the third made while the task of the first is running. *)
Definition lockRun : list RdapLock.Event :=
  [RdapLock.Enter RdapLock.FromRunRdapOnly; RdapLock.Resume 0;
   RdapLock.Enter RdapLock.FromRunDnsLookup;
   RdapLock.Enter RdapLock.FromRunRdapOnly;
   RdapLock.Tick 120; RdapLock.Settle 0; RdapLock.Tick 500; RdapLock.Fire 0;
   RdapLock.Resume 1; RdapLock.Tick 80; RdapLock.Settle 1].

Definition afterLockRun : RdapLock.State :=
  fold_left (fun s e => RdapLock.perform e s) lockRun (RdapLock.initial 1000).

(** Two RDAP workers of the revision without the lock after each took
    an item. *)
Definition twoLookupsRun : list Pool.Event :=
  [Pool.Start Rdap;
   Pool.WorkerStep Rdap 0 0 failingOracle;
   Pool.WorkerStep Rdap 0 1 failingOracle].

Definition twoLookups : Pool.System :=
  fold_left (fun s e => Pool.perform DomainUtils.asciiToLowerCase e s) twoLookupsRun
    (Pool.mkSystem
       (loadRecords [exampleRecord Available RdapNotChecked; otherRecord] initialHook)
       (mkPer [] [])).

(** The RDAP requests outstanding in a state of the worker pools, for
    the revision of the lookup service without [withRdapLock]: there
    [runRdapOnly] calls [runRdapLookup], which calls [fetch] at once, so
    that every RDAP worker suspended in its lookup has a request
    outstanding, for the domain of its candidate. *)
Definition requestOf (w : Pool.WorkerPhase) : option jsstring :=
  match w with
  | Pool.Holding _ candidate => Some (domain candidate)
  | _ => None
  end.

Definition rdapRequests (s : Pool.System) : list jsstring :=
  omap requestOf (concat (Pool.workers <$> get Rdap (Pool.pools s))).

(** The calls of [withRdapLock] whose task or cool-down is running. *)
Definition occupants (s : RdapLock.State) : list RdapLock.Call :=
  List.filter RdapLock.holdsLock (RdapLock.calls s).

(** * Properties *)

(** ** Strings and [normalizeDomain] *)

Lemma last_rev (s : jsstring) : last (rev s) = head s.
Proof. destruct s as [|a s]; simpl; [reflexivity|]. apply last_snoc. Qed.

Section StringLemmas.

Variable p : N -> bool.

Lemma dropWhile_head (s : jsstring) c :
  head (dropWhile p s) = Some c -> p c = false.
Proof.
  induction s as [|a s IH]; simpl; [discriminate|].
  destruct (p a) eqn:Ha; [exact IH|].
  simpl. intros [= <-]. exact Ha.
Qed.

Lemma dropWhile_fixed (s : jsstring) :
  (forall c, head s = Some c -> p c = false) -> dropWhile p s = s.
Proof.
  destruct s as [|a s]; simpl; [reflexivity|].
  intros H. rewrite (H a eq_refl). reflexivity.
Qed.

Lemma dropWhile_suffix (s : jsstring) : exists pre, s = pre ++ dropWhile p s.
Proof.
  induction s as [|a s [pre IH]]; simpl.
  - exists []. reflexivity.
  - destruct (p a).
    + exists (a :: pre). simpl. congruence.
    + exists []. reflexivity.
Qed.

Lemma dropWhileEnd_prefix (s : jsstring) : exists post, s = dropWhileEnd p s ++ post.
Proof.
  unfold dropWhileEnd.
  destruct (dropWhile_suffix (rev s)) as [pre H].
  exists (rev pre).
  rewrite <- rev_app_distr, <- H, rev_involutive. reflexivity.
Qed.

Lemma dropWhileEnd_last (s : jsstring) c :
  last (dropWhileEnd p s) = Some c -> p c = false.
Proof.
  unfold dropWhileEnd. rewrite last_rev. apply dropWhile_head.
Qed.

Lemma dropWhileEnd_fixed (s : jsstring) :
  (forall c, last s = Some c -> p c = false) -> dropWhileEnd p s = s.
Proof.
  intros H. unfold dropWhileEnd.
  rewrite dropWhile_fixed.
  - apply rev_involutive.
  - intros c Hc. apply H. rewrite <- (rev_involutive s), last_rev. exact Hc.
Qed.

Lemma dropWhileEnd_head (s : jsstring) c :
  head (dropWhileEnd p s) = Some c -> head s = Some c.
Proof.
  destruct (dropWhileEnd_prefix s) as [post H].
  destruct (dropWhileEnd p s) as [|a t] eqn:E; simpl; [discriminate|].
  intros [= <-]. rewrite H. reflexivity.
Qed.

Lemma takeWhile_all (s : jsstring) : forallb p s = true -> takeWhile p s = s.
Proof.
  induction s as [|a s IH]; simpl; [reflexivity|].
  intros [Ha Hs]%andb_prop. rewrite Ha, IH by exact Hs. reflexivity.
Qed.

Lemma filter_all (s : jsstring) : forallb p s = true -> List.filter p s = s.
Proof.
  induction s as [|a s IH]; simpl; [reflexivity|].
  intros [Ha Hs]%andb_prop. rewrite Ha, IH by exact Hs. reflexivity.
Qed.

Lemma forallb_dropWhile (q : N -> bool) (s : jsstring) :
  forallb q s = true -> forallb q (dropWhile p s) = true.
Proof.
  induction s as [|a s IH]; simpl; [reflexivity|].
  intros H. destruct (p a); [|exact H].
  apply IH. apply andb_prop in H. tauto.
Qed.

End StringLemmas.

Lemma forallb_head (q : N -> bool) (s : jsstring) c :
  forallb q s = true -> head s = Some c -> q c = true.
Proof.
  destruct s as [|a s]; simpl; [discriminate|].
  intros [Ha _]%andb_prop [= <-]. exact Ha.
Qed.

Lemma forallb_last (q : N -> bool) (s : jsstring) c :
  forallb q s = true -> last s = Some c -> q c = true.
Proof.
  intros H Hc. rewrite <- (rev_involutive s), last_rev in Hc.
  apply (forallb_head q (rev s)); [|exact Hc].
  rewrite forallb_forall in *. intros x Hx. apply H. now apply in_rev.
Qed.

Lemma domainChar_cases c :
  isDomainChar c = true ->
  ((97 <= c <= 122) \/ (48 <= c <= 57) \/ c = 46 \/ c = 45)%N.
Proof.
  unfold isDomainChar, inRange. intros H.
  repeat (apply orb_prop in H; destruct H as [H|H]);
    try (apply andb_prop in H; destruct H as [H1 H2];
         apply N.leb_le in H1; apply N.leb_le in H2);
    try apply N.eqb_eq in H; lia.
Qed.

Lemma domainChar_not_white c : isDomainChar c = true -> isWhiteSpace c = false.
Proof.
  intros H%domainChar_cases. unfold isWhiteSpace, inRange.
  repeat (apply orb_false_intro);
    try (apply andb_false_iff; rewrite !N.leb_gt; lia);
    try (apply N.eqb_neq; lia).
Qed.

Lemma domainChar_not_delimiter c : isDomainChar c = true -> isDelimiter c = false.
Proof.
  intros H%domainChar_cases. unfold isDelimiter.
  repeat (apply orb_false_intro); apply N.eqb_neq; lia.
Qed.

Lemma startsWith_head (pre s : jsstring) a :
  head pre = Some a -> startsWith pre s = true -> head s = Some a.
Proof.
  destruct pre as [|x pre]; simpl; [discriminate|].
  intros [= ->]. destruct s as [|c s]; [discriminate|].
  intros [H _]%andb_prop. apply N.eqb_eq in H. simpl. congruence.
Qed.

Lemma startsWith_domainChars (pre s : jsstring) a :
  head pre = Some a -> isDomainChar a = false ->
  forallb isDomainChar s = true -> startsWith pre s = false.
Proof.
  intros Hpre Ha Hs.
  destruct (startsWith pre s) eqn:E; [|reflexivity].
  pose proof (startsWith_head _ _ _ Hpre E) as Hh.
  pose proof (forallb_head _ _ _ Hs Hh). congruence.
Qed.

Lemma includes_app c (s t : jsstring) :
  includes c (s ++ t) = includes c s || includes c t.
Proof. unfold includes. apply existsb_app. Qed.

Lemma normalizeDomain_inv toLowerCase s d :
  DomainUtils.normalizeDomain toLowerCase s = Some d ->
  exists x, let t := DomainUtils.stripDots x in
    t <> [] /\ d = (if includes 46%N t then t else t ++ js ".com")
    /\ DomainUtils.testDomain d = true.
Proof.
  unfold DomainUtils.normalizeDomain.
  destruct (isEmpty s); [discriminate|].
  destruct (isEmpty (toLowerCase (trim s))); [discriminate|].
  set (x := DomainUtils.beforeDelimiter _).
  destruct (isEmpty (DomainUtils.stripDots x)) eqn:E; [discriminate|].
  destruct (DomainUtils.testDomain _) eqn:T; [|discriminate].
  intros [= <-]. exists x. cbn zeta. repeat split; [|exact T].
  intros Hnil. rewrite Hnil in E. discriminate.
Qed.

Lemma stripDots_head x : head (DomainUtils.stripDots x) <> Some 46%N.
Proof.
  unfold DomainUtils.stripDots. intros H.
  apply dropWhileEnd_head in H. apply dropWhile_head in H. discriminate.
Qed.

Lemma stripDots_last x : last (DomainUtils.stripDots x) <> Some 46%N.
Proof.
  unfold DomainUtils.stripDots. intros H.
  apply dropWhileEnd_last in H. discriminate.
Qed.

Lemma normalizeDomain_wellFormed toLowerCase s d :
  DomainUtils.normalizeDomain toLowerCase s = Some d -> wellFormedDomain d.
Proof.
  intros (x & Ht & Hd & Htest)%normalizeDomain_inv. cbn zeta in *.
  set (t := DomainUtils.stripDots x) in *.
  unfold DomainUtils.testDomain in Htest.
  apply andb_prop in Htest as [Hne Hall].
  assert (Hhead : head d <> Some 46%N).
  { rewrite Hd. destruct (includes 46%N t); [apply stripDots_head|].
    destruct t as [|a t'] eqn:E; [congruence|].
    pose proof (stripDots_head x) as Hh. fold t in Hh. rewrite E in Hh. exact Hh. }
  assert (Hlast : last d <> Some 46%N).
  { rewrite Hd. destruct (includes 46%N t); [apply stripDots_last|].
    change (js ".com") with ([46; 99; 111]%N ++ [109%N]).
    rewrite app_assoc, last_snoc. discriminate. }
  assert (Hdot : includes 46%N d = true).
  { rewrite Hd. destruct (includes 46%N t) eqn:E; [exact E|].
    rewrite includes_app. apply orb_true_r. }
  repeat split; try assumption.
  - intros ->. discriminate.
  - apply Forall_forall. rewrite forallb_forall in Hall.
    intros c Hc. apply Hall. now apply list_elem_of_In.
Qed.

Lemma normalizeDomain_fixed toLowerCase d :
  (forall s, forallb isDomainChar s = true -> toLowerCase s = s) ->
  wellFormedDomain d -> DomainUtils.normalizeDomain toLowerCase d = Some d.
Proof.
  intros Hlower (Hne & Hall & Hdot & Hhead & Hlast).
  assert (Hall' : forallb isDomainChar d = true).
  { apply forallb_forall. rewrite Forall_forall in Hall.
    intros c Hc. apply Hall. now apply list_elem_of_In. }
  assert (Hempty : isEmpty d = false) by (destruct d; [congruence|reflexivity]).
  assert (Htrim : trim d = d).
  { unfold trim. rewrite (dropWhile_fixed isWhiteSpace d).
    - apply dropWhileEnd_fixed. intros c Hc.
      apply domainChar_not_white. eapply forallb_last; eauto.
    - intros c Hc. apply domainChar_not_white. eapply forallb_head; eauto. }
  assert (Hws : DomainUtils.removeWhiteSpace d = d).
  { unfold DomainUtils.removeWhiteSpace. apply filter_all.
    apply forallb_forall. rewrite forallb_forall in Hall'.
    intros c Hc. rewrite domainChar_not_white; auto. }
  assert (Hscheme : DomainUtils.stripScheme d = d).
  { unfold DomainUtils.stripScheme.
    rewrite (startsWith_domainChars (js "://") _ 58%N); try reflexivity.
    - now rewrite andb_false_r.
    - now apply forallb_dropWhile. }
  assert (Hslash : DomainUtils.stripLeadingSlashes d = d).
  { unfold DomainUtils.stripLeadingSlashes.
    now rewrite (startsWith_domainChars (js "//") _ 47%N). }
  assert (Hdelim : DomainUtils.beforeDelimiter d = d).
  { unfold DomainUtils.beforeDelimiter. apply takeWhile_all.
    apply forallb_forall. rewrite forallb_forall in Hall'.
    intros c Hc. rewrite domainChar_not_delimiter; auto. }
  assert (Hdots : DomainUtils.stripDots d = d).
  { unfold DomainUtils.stripDots. rewrite (dropWhile_fixed isDot d).
    - apply dropWhileEnd_fixed. intros c Hc. unfold isDot.
      apply N.eqb_neq. congruence.
    - intros c Hc. unfold isDot. apply N.eqb_neq. congruence. }
  unfold DomainUtils.normalizeDomain.
  rewrite Hempty, Htrim, (Hlower d Hall'), Hempty, Hws, Hscheme, Hslash, Hdelim,
    Hdots, Hempty, Hdot.
  unfold DomainUtils.testDomain. now rewrite Hempty, Hall'.
Qed.

(** C10. [normalizeDomain] produces well-formed results and is idempotent:
    a result [d] is a non-empty string over [[a-z0-9.-]] (it matches
    [/^[a-z0-9.-]+$/]), it contains a dot, it neither starts nor ends with
    a dot, and normalizing it again gives [d].  The host's [toLowerCase] is
    only assumed to leave strings over [[a-z0-9.-]] unchanged. *)
Theorem normalizeDomain_idempotent_wellformed
    (toLowerCase : jsstring -> jsstring)
    (toLowerCase_stable :
       forall s, forallb isDomainChar s = true -> toLowerCase s = s)
    (s d : jsstring) :
  DomainUtils.normalizeDomain toLowerCase s = Some d ->
  DomainUtils.testDomain d = true
  /\ wellFormedDomain d
  /\ DomainUtils.normalizeDomain toLowerCase d = Some d.
Proof.
  intros H. pose proof (normalizeDomain_wellFormed _ _ _ H) as Hwf.
  split; [|split].
  - apply normalizeDomain_inv in H as (x & _ & _ & Ht). exact Ht.
  - exact Hwf.
  - now apply normalizeDomain_fixed.
Qed.

Lemma asciiToLowerCase_stable s :
  forallb isDomainChar s = true -> DomainUtils.asciiToLowerCase s = s.
Proof.
  unfold DomainUtils.asciiToLowerCase.
  induction s as [|c s IH]; simpl; [reflexivity|].
  intros [Hc Hs]%andb_prop. rewrite IH by exact Hs.
  apply domainChar_cases in Hc.
  replace (inRange 65 90 c) with false; [reflexivity|].
  symmetry. unfold inRange. apply andb_false_iff. rewrite !N.leb_gt. lia.
Qed.

Lemma normalizeDomain_idempotent_wellformed_witness :
  let s := js "  HTTPS://Www.Example.COM/path?x " in
  let d := js "www.example.com" in
  DomainUtils.normalizeDomain DomainUtils.asciiToLowerCase s = Some d
  /\ DomainUtils.testDomain d = true
  /\ wellFormedDomain d
  /\ DomainUtils.normalizeDomain DomainUtils.asciiToLowerCase d = Some d.
Proof.
  split; [vm_compute; reflexivity|].
  apply (normalizeDomain_idempotent_wellformed
           DomainUtils.asciiToLowerCase asciiToLowerCase_stable
           (js "  HTTPS://Www.Example.COM/path?x ")).
  vm_compute; reflexivity.
Defined.

(** ** The queues *)

Lemma entries_app (i : jsstring) (q1 q2 : list jsstring) :
  entries i (q1 ++ q2) = (entries i q1 + entries i q2)%nat.
Proof. unfold entries. now rewrite filter_app, length_app. Qed.

Lemma entries_self (i : jsstring) : entries i [i] = 1%nat.
Proof. unfold entries. rewrite filter_cons_True by reflexivity. reflexivity. Qed.

Lemma addToQueue_member (q : list jsstring) (members : gset jsstring) (i : jsstring) :
  i ∈ members -> addToQueue (q, members) i = (q, members).
Proof. intros H. unfold addToQueue. simpl. now rewrite decide_True. Qed.

Lemma addToQueue_fresh (q : list jsstring) (members : gset jsstring) (i : jsstring) :
  i ∉ members -> addToQueue (q, members) i = (q ++ [i], {[i]} ∪ members).
Proof. intros H. unfold addToQueue. simpl. now rewrite decide_False. Qed.

Lemma addToQueue_is_member (q : list jsstring * gset jsstring) (i : jsstring) :
  i ∈ (addToQueue q i).2.
Proof.
  unfold addToQueue. destruct (decide (i ∈ q.2)); simpl; [assumption|set_solver].
Qed.

Lemma enqueueTimes_once (n : nat) (i : jsstring) (q : list jsstring * gset jsstring) :
  (1 <= n)%nat -> enqueueTimes n i q = addToQueue q i.
Proof.
  intros Hn. destruct n as [|n]; [lia|]. clear Hn. simpl.
  pose proof (addToQueue_is_member q i) as Hin.
  generalize dependent (addToQueue q i). intros q' Hin.
  induction n as [|n IH]; simpl; [reflexivity|].
  destruct q' as [l m]. rewrite addToQueue_member by exact Hin. exact IH.
Qed.

(** C5. Enqueue is a no-op when the key is in the membership set, and
    otherwise appends the key to the tail and adds it to the set; hence
    enqueuing a key [n >= 1] times does what enqueuing it once does, and
    leaves exactly one entry for it, given that before the first enqueue
    the key has an entry exactly when it is a member (in particular when it
    is new to the queue). *)
Theorem enqueue_dedup (q : list jsstring) (members : gset jsstring)
    (i : jsstring) (n : nat) :
  (1 <= n)%nat ->
  (i ∈ members -> addToQueue (q, members) i = (q, members))
  /\ (i ∉ members -> addToQueue (q, members) i = (q ++ [i], {[i]} ∪ members))
  /\ enqueueTimes n i (q, members) = addToQueue (q, members) i
  /\ (entries i q = (if decide (i ∈ members) then 1 else 0)%nat ->
      entries i (enqueueTimes n i (q, members)).1 = 1%nat
      /\ i ∈ (enqueueTimes n i (q, members)).2).
Proof.
  intros Hn. split; [apply addToQueue_member|].
  split; [apply addToQueue_fresh|].
  split; [now apply enqueueTimes_once|].
  intros Hq. rewrite enqueueTimes_once by exact Hn.
  split; [|apply addToQueue_is_member].
  destruct (decide (i ∈ members)) as [Hin|Hout].
  - now rewrite addToQueue_member.
  - rewrite addToQueue_fresh by exact Hout. simpl.
    rewrite entries_app, entries_self, Hq. reflexivity.
Qed.

Lemma enqueue_dedup_witness :
  entries (js "k") (enqueueTimes 3 (js "k") ([js "a"], {[js "a"]})).1 = 1%nat
  /\ js "k" ∈ (enqueueTimes 3 (js "k") ([js "a"], {[js "a"]})).2.
Proof.
  apply (enqueue_dedup [js "a"] {[js "a"]} (js "k") 3); [lia|].
  vm_compute. reflexivity.
Defined.

(** ** The store and its statistics *)

Lemma bump_indicator b delta x : bump b delta x = x + delta * indicator b.
Proof. unfold bump, indicator. destruct b; lia. Qed.

Lemma tally_app f (l1 l2 : list DomainRecord) :
  tally f (l1 ++ l2) = tally f l1 + tally f l2.
Proof. induction l1 as [|r l1 IH]; simpl; [reflexivity|]. rewrite IH. lia. Qed.

Lemma tally_insert f (l : list DomainRecord) (i : nat) prev item :
  l !! i = Some prev ->
  tally f (<[i := item]> l) = tally f l - indicator (f prev) + indicator (f item).
Proof.
  revert i. induction l as [|r l IH]; intros [|i] H; simpl in *; try discriminate.
  - injection H as ->. unfold indicator. lia.
  - rewrite (IH i H). lia.
Qed.

(** The counters after the loop of [recomputeStats], started from [s]. *)
Lemma recompute_loop (snapshot : list DomainRecord) (s : Stats) :
  fold_left (fun s record => applyDelta record 1 s) snapshot s =
  mkStats (total s)
          (queueCount s + tally isQueueCounted snapshot)
          (totalAvailable s + tally isAvailable snapshot)
          (totalTaken s + tally isTaken snapshot)
          (totalChecked s + tally isChecked snapshot)
          (takenOverall s + tally isTakenOverall snapshot).
Proof.
  revert s. induction snapshot as [|r l IH]; intros s; simpl.
  - destruct s; simpl. f_equal; lia.
  - rewrite IH. unfold applyDelta; simpl. rewrite !bump_indicator.
    unfold indicator. f_equal; lia.
Qed.

Lemma recomputeStats_tally (snapshot : list DomainRecord) :
  recomputeStats snapshot =
  mkStats (Z.of_nat (length snapshot))
          (tally isQueueCounted snapshot) (tally isAvailable snapshot)
          (tally isTaken snapshot) (tally isChecked snapshot)
          (tally isTakenOverall snapshot).
Proof. unfold recomputeStats. rewrite recompute_loop. reflexivity. Qed.

Lemma applyDelta_tally (r : DomainRecord) (delta : Z) (s : Stats) :
  applyDelta r delta s =
  mkStats (total s)
          (queueCount s + delta * indicator (isQueueCounted r))
          (totalAvailable s + delta * indicator (isAvailable r))
          (totalTaken s + delta * indicator (isTaken r))
          (totalChecked s + delta * indicator (isChecked r))
          (takenOverall s + delta * indicator (isTakenOverall r)).
Proof. unfold applyDelta. now rewrite !bump_indicator. Qed.

Lemma upsertOne_records (st : HookState) (item : DomainRecord) :
  recordsRef (upsertOne st item) =
  match indexRef st !! id item with
  | Some i => <[i := item]> (recordsRef st)
  | None => recordsRef st ++ [item]
  end.
Proof. reflexivity. Qed.

Lemma upsertOne_index (st : HookState) (item : DomainRecord) :
  indexRef (upsertOne st item) =
  match indexRef st !! id item with
  | Some _ => indexRef st
  | None => <[id item := length (recordsRef st)]> (indexRef st)
  end.
Proof. reflexivity. Qed.

Lemma upsertOne_stats (st : HookState) (item : DomainRecord) :
  statsRef (upsertOne st item) =
  adjustStats (indexRef st !! id item ≫= (fun i => recordsRef st !! i)) item
    match indexRef st !! id item with
    | Some _ => statsRef st
    | None => addTotal (statsRef st)
    end.
Proof. reflexivity. Qed.

Lemma coherent_upsertOne (st : HookState) (item : DomainRecord) :
  coherent st -> coherent (upsertOne st item).
Proof.
  intros Hc i idx. rewrite upsertOne_records, upsertOne_index.
  destruct (indexRef st !! id item) as [k|] eqn:E.
  - intros Hi. destruct (Hc _ _ Hi) as (r & Hr & Hid).
    destruct (decide (idx = k)) as [->|Hne].
    + exists item. split.
      * apply list_lookup_insert_eq. now apply lookup_lt_Some in Hr.
      * destruct (Hc _ _ E) as (r' & Hr' & Hid'). congruence.
    + exists r. split; [|exact Hid]. now rewrite list_lookup_insert_ne.
  - destruct (decide (i = id item)) as [->|Hne].
    + rewrite lookup_insert_eq. intros [= <-]. exists item.
      split; [|reflexivity]. now rewrite lookup_app_r, Nat.sub_diag.
    + rewrite lookup_insert_ne by congruence. intros Hi.
      destruct (Hc _ _ Hi) as (r & Hr & Hid). exists r.
      split; [|exact Hid]. now apply lookup_app_l_Some.
Qed.

Lemma statsExact_upsertOne (st : HookState) (item : DomainRecord) :
  coherent st -> statsExact st -> statsExact (upsertOne st item).
Proof.
  unfold statsExact. intros Hc Hs.
  rewrite upsertOne_stats, upsertOne_records, Hs.
  destruct (indexRef st !! id item) as [k|] eqn:E; unfold adjustStats; cbn [mbind option_bind].
  - destruct (Hc _ _ E) as (prev & Hprev & _). rewrite Hprev.
    rewrite !recomputeStats_tally, !applyDelta_tally; cbn [total queueCount totalAvailable totalTaken totalChecked takenOverall].
    rewrite length_insert, !(tally_insert _ _ _ _ _ Hprev). f_equal; lia.
  - rewrite !recomputeStats_tally. unfold addTotal. rewrite applyDelta_tally;
      cbn [total queueCount totalAvailable totalTaken totalChecked takenOverall].
    rewrite length_app, !tally_app; cbn [tally length]. f_equal; unfold indicator; lia.
Qed.

Lemma upsertRecords_invariant (updates : list DomainRecord) (st : HookState) :
  coherent st /\ statsExact st ->
  coherent (upsertRecords updates st) /\ statsExact (upsertRecords updates st).
Proof.
  unfold upsertRecords. revert st.
  induction updates as [|item l IH]; intros st [Hc Hs]; simpl; [tauto|].
  apply IH. split; [now apply coherent_upsertOne|now apply statsExact_upsertOne].
Qed.

Lemma buildIndex_lookup (items : list DomainRecord) (i : jsstring) (idx : nat) :
  buildIndex items !! i = Some idx ->
  exists r, items !! idx = Some r /\ id r = i.
Proof.
  unfold buildIndex. revert idx.
  induction items as [|x l IH] using rev_ind; intros idx.
  - simpl. rewrite lookup_empty. discriminate.
  - rewrite imap_app, fold_left_app. simpl. rewrite Nat.add_0_r.
    destruct (decide (i = id x)) as [->|Hne].
    + rewrite lookup_insert_eq. intros [= <-]. exists x.
      split; [|reflexivity]. now rewrite lookup_app_r, Nat.sub_diag.
    + rewrite lookup_insert_ne by congruence. intros H.
      destruct (IH _ H) as (r & Hr & Hid). exists r.
      split; [|exact Hid]. now apply lookup_app_l_Some.
Qed.

Lemma loadRecords_invariant (items : list DomainRecord) (st : HookState) :
  coherent (loadRecords items st) /\ statsExact (loadRecords items st).
Proof.
  split; [|reflexivity].
  intros i idx. apply buildIndex_lookup.
Qed.

Lemma handleClear_invariant (st : HookState) :
  coherent (handleClear st) /\ statsExact (handleClear st).
Proof.
  split; [|reflexivity].
  intros i idx. simpl. rewrite lookup_empty. discriminate.
Qed.

Lemma enqueueDomains_invariant toLowerCase createId now rawInput (st : HookState) :
  coherent st /\ statsExact st ->
  coherent (enqueueDomains toLowerCase createId now rawInput st)
  /\ statsExact (enqueueDomains toLowerCase createId now rawInput st).
Proof.
  intros H. unfold enqueueDomains.
  destruct (newRecords _ _ _ _ _) as [|r l]; [exact H|].
  apply (upsertRecords_invariant (r :: l)) in H. exact H.
Qed.

Lemma applyOp_invariant toLowerCase (st : HookState) (op : StoreOp) :
  coherent st /\ statsExact st ->
  coherent (applyOp toLowerCase st op) /\ statsExact (applyOp toLowerCase st op).
Proof.
  destruct op; simpl; intros H.
  - now apply enqueueDomains_invariant.
  - now apply upsertRecords_invariant.
  - apply handleClear_invariant.
Qed.

(** C3. After the load of any stored records and any sequence of enqueue,
    upsert (of one or several records) and clear operations, the counters
    kept in [statsRef] are those [recomputeStats] computes from the store.
    The incremental path is [adjustStats], which is given the previous
    counters and the two versions of one record and never the store. *)
Theorem stats_match_rescan (toLowerCase : jsstring -> jsstring)
    (items : list DomainRecord) (ops : list StoreOp) :
  let st := fold_left (applyOp toLowerCase) ops (loadRecords items initialHook) in
  statsRef st = recomputeStats (recordsRef st)
  /\ total (statsRef st) = Z.of_nat (length (recordsRef st))
  /\ queueCount (statsRef st) = tally isQueueCounted (recordsRef st)
  /\ totalAvailable (statsRef st) = tally isAvailable (recordsRef st)
  /\ totalTaken (statsRef st) = tally isTaken (recordsRef st)
  /\ totalChecked (statsRef st) = tally isChecked (recordsRef st)
  /\ takenOverall (statsRef st) = tally isTakenOverall (recordsRef st).
Proof.
  cbn zeta.
  assert (H : coherent (fold_left (applyOp toLowerCase) ops (loadRecords items initialHook))
              /\ statsExact (fold_left (applyOp toLowerCase) ops (loadRecords items initialHook))).
  { generalize (loadRecords_invariant items initialHook).
    generalize (loadRecords items initialHook). clear items.
    induction ops as [|op l IH]; intros st H; simpl; [exact H|].
    apply IH. now apply applyOp_invariant. }
  destruct H as [_ H]. split; [exact H|].
  rewrite H, recomputeStats_tally. simpl. tauto.
Qed.

(** ** What a write of one record does to the queues *)

Lemma upsertOne_dnsQueue (st : HookState) (item : DomainRecord) :
  (dnsQueueRef (upsertOne st item), dnsQueueSetRef (upsertOne st item)) =
  let dnsSet :=
    if bool_decide (status <$> stored (id item) st = Some Queued)
       && bool_decide (status item ≠ Queued)
    then removeFromQueue (dnsQueueSetRef st) (id item)
    else dnsQueueSetRef st in
  if bool_decide (status item = Queued)
  then addToQueue (dnsQueueRef st, dnsSet) (id item)
  else (dnsQueueRef st, dnsSet).
Proof.
  unfold upsertOne, stored. cbn zeta. cbn [dnsQueueRef dnsQueueSetRef].
  symmetry. apply surjective_pairing.
Qed.

Lemma upsertOne_rdapQueue (st : HookState) (item : DomainRecord) :
  (rdapQueueRef (upsertOne st item), rdapQueueSetRef (upsertOne st item)) =
  let rdapSet :=
    if match stored (id item) st with Some p => isRdapCandidate p | None => false end
       && negb (isRdapCandidate item)
    then removeFromQueue (rdapQueueSetRef st) (id item)
    else rdapQueueSetRef st in
  if isRdapCandidate item
  then addToQueue (rdapQueueRef st, rdapSet) (id item)
  else (rdapQueueRef st, rdapSet).
Proof.
  unfold upsertOne, stored. cbn zeta. cbn [rdapQueueRef rdapQueueSetRef].
  symmetry. apply surjective_pairing.
Qed.


(** A record that is not queued is not put into the DNS queue. *)
Lemma upsertOne_dns_not_enqueued (st : HookState) (item : DomainRecord) :
  status item <> Queued ->
  dnsQueueRef (upsertOne st item) = dnsQueueRef st
  /\ dnsQueueSetRef (upsertOne st item) ⊆ dnsQueueSetRef st.
Proof.
  intros Hs. pose proof (upsertOne_dnsQueue st item) as H. cbn zeta in H.
  rewrite (bool_decide_eq_false_2 _ Hs) in H.
  pose proof (proj1 (pair_equal_spec _ _ _ _) H) as [H1 H2]. rewrite H1, H2. split; [reflexivity|].
  destruct (_ && _); unfold removeFromQueue; [apply subseteq_difference_l|]; done.
Qed.

(** A record that is not eligible is not put into the RDAP queue. *)
Lemma upsertOne_rdap_not_enqueued (st : HookState) (item : DomainRecord) :
  isRdapCandidate item = false ->
  rdapQueueRef (upsertOne st item) = rdapQueueRef st
  /\ rdapQueueSetRef (upsertOne st item) ⊆ rdapQueueSetRef st.
Proof.
  intros Hs. pose proof (upsertOne_rdapQueue st item) as H. cbn zeta in H.
  rewrite Hs in H.
  pose proof (proj1 (pair_equal_spec _ _ _ _) H) as [H1 H2]. rewrite H1, H2. split; [reflexivity|].
  destruct (_ && _); unfold removeFromQueue; [apply subseteq_difference_l|]; done.
Qed.

(** An eligible record is a member of the RDAP queue after its write; when
    it was not a member before, an entry is appended for it. *)
Lemma upsertOne_rdap_enqueued (st : HookState) (item : DomainRecord) :
  isRdapCandidate item = true ->
  id item ∈ rdapQueueSetRef (upsertOne st item)
  /\ (id item ∉ rdapQueueSetRef st ->
      rdapQueueRef (upsertOne st item) = rdapQueueRef st ++ [id item]).
Proof.
  intros Hs. pose proof (upsertOne_rdapQueue st item) as H. cbn zeta in H.
  rewrite Hs, andb_false_r in H.
  split.
  - replace (rdapQueueSetRef (upsertOne st item)) with
      (rdapQueueRef (upsertOne st item), rdapQueueSetRef (upsertOne st item)).2
      by reflexivity.
    rewrite H. apply addToQueue_is_member.
  - intros Hout. rewrite addToQueue_fresh in H by exact Hout.
    now pose proof (proj1 (pair_equal_spec _ _ _ _) H) as [H1 H2].
Qed.

Lemma candidate_status (r : DomainRecord) :
  isRdapCandidate r = true -> status r = Available.
Proof.
  unfold isRdapCandidate. intros [H _]%andb_prop. now apply bool_decide_eq_true in H.
Qed.

Lemma not_candidate_status (r : DomainRecord) :
  status r <> Available -> isRdapCandidate r = false.
Proof.
  unfold isRdapCandidate. intros H. now rewrite (bool_decide_eq_false_2 _ H).
Qed.


Lemma stored_upsertOne_same (st : HookState) (item : DomainRecord) :
  coherent st -> stored (id item) (upsertOne st item) = Some item.
Proof.
  intros Hc. unfold stored. rewrite upsertOne_records, upsertOne_index.
  destruct (indexRef st !! id item) as [k|] eqn:E.
  - rewrite E. simpl. destruct (Hc _ _ E) as (r & Hr & _).
    apply list_lookup_insert_eq. now apply lookup_lt_Some in Hr.
  - rewrite lookup_insert_eq. simpl. now rewrite lookup_app_r, Nat.sub_diag.
Qed.

Lemma stored_upsertOne_other (st : HookState) (item : DomainRecord) (i : jsstring) :
  coherent st -> i <> id item -> stored i (upsertOne st item) = stored i st.
Proof.
  intros Hc Hne. unfold stored. rewrite upsertOne_records, upsertOne_index.
  destruct (indexRef st !! id item) as [k|] eqn:E.
  - destruct (indexRef st !! i) as [idx|] eqn:Ei; simpl; [|reflexivity].
    apply list_lookup_insert_ne. intros <-.
    destruct (Hc _ _ E) as (r & Hr & Hid). destruct (Hc _ _ Ei) as (r' & Hr' & Hid').
    congruence.
  - rewrite lookup_insert_ne by congruence.
    destruct (indexRef st !! i) as [idx|] eqn:Ei; simpl; [|reflexivity].
    destruct (Hc _ _ Ei) as (r & Hr & _). rewrite Hr. now apply lookup_app_l_Some.
Qed.

(** ** The lookups *)

Ltac case_lookup :=
  repeat match goal with
         | |- context [match ?x with _ => _ end] => destruct x
         end.

Lemma runDnsLookup_id now df rf (r : DomainRecord) : id (runDnsLookup now df rf r) = id r.
Proof. unfold runDnsLookup. case_lookup; reflexivity. Qed.

Lemma runRdapOnly_id now rf (r : DomainRecord) : id (runRdapOnly now rf r) = id r.
Proof. reflexivity. Qed.

Lemma processOneLookup_id c now df rf (r : DomainRecord) :
  id (processOneLookup c now df rf r) = id r.
Proof. destruct c; simpl; [now rewrite runDnsLookup_id|reflexivity]. Qed.


Lemma runDnsLookup_positive now code rf (r : DomainRecord) :
  authoritativePositive code ->
  status (runDnsLookup now (DnsResponse true (Some code)) rf r) = Taken
  /\ rdapStatus (runDnsLookup now (DnsResponse true (Some code)) rf r) = RdapNotChecked.
Proof.
  unfold runDnsLookup. destruct code as [n| |]; simpl; [|tauto|tauto].
  intros (H3 & H2 & H5). case_lookup; try (split; reflexivity); lia.
Qed.

(** Only the answer NXDOMAIN makes [runDnsLookup] call [runRdapLookup]. *)
Lemma runDnsLookup_rdapStatus now df rf (r : DomainRecord) :
  rdapStatus (runDnsLookup now df rf r) =
  if bool_decide (df = DnsResponse true (Some (StatusInteger 3)))
  then runRdapLookup rf else RdapNotChecked.
Proof.
  destruct (decide (df = DnsResponse true (Some (StatusInteger 3)))) as [->|Hne].
  - reflexivity.
  - rewrite bool_decide_eq_false_2 by exact Hne.
    unfold runDnsLookup. case_lookup; try reflexivity; congruence.
Qed.

Lemma runRdapLookup_checked rf : runRdapLookup rf <> RdapNotChecked.
Proof.
  unfold runRdapLookup. destruct rf as [|h]; [discriminate|].
  destruct (h =? 404); [discriminate|]. destruct (responseOk h); discriminate.
Qed.

Lemma processOneWrite_dns_not_enqueued (processed : DomainRecord) (st : HookState) :
  status processed <> Queued ->
  dnsQueueRef (processOneWrite processed st) = dnsQueueRef st
  /\ dnsQueueSetRef (processOneWrite processed st) ⊆ dnsQueueSetRef st.
Proof. apply upsertOne_dns_not_enqueued. Qed.

Lemma processOneWrite_rdap_not_enqueued (processed : DomainRecord) (st : HookState) :
  isRdapCandidate processed = false ->
  rdapQueueRef (processOneWrite processed st) = rdapQueueRef st
  /\ rdapQueueSetRef (processOneWrite processed st) ⊆ rdapQueueSetRef st.
Proof. apply upsertOne_rdap_not_enqueued. Qed.


Lemma newRecords_fresh toLowerCase createId now rawInput (st : HookState) :
  Forall (fun r => status r = Queued /\ rdapStatus r = RdapNotChecked)
         (newRecords toLowerCase createId now rawInput st).
Proof.
  unfold newRecords.
  generalize (DomainUtils.parseDomainInput rawInput). intros entries.
  generalize (list_to_set (domain <$> recordsRef st) : gset jsstring). intros existing.
  assert (H : Forall (fun r => status r = Queued /\ rdapStatus r = RdapNotChecked)
                     (existing, @nil DomainRecord).2) by constructor.
  revert H. generalize (existing, @nil DomainRecord). clear existing.
  induction entries as [|e l IH]; intros acc H; simpl; [exact H|].
  apply IH. unfold enqueueEntry.
  destruct (DomainUtils.normalizeDomain toLowerCase e) as [d|]; [|exact H].
  destruct (decide (d ∈ acc.1)); [exact H|]. simpl.
  apply Forall_app. split; [exact H|]. constructor; [|constructor]. split; reflexivity.
Qed.

(** ** [popCandidate] *)

Lemma popLoop_members (inFlight : gset jsstring) (index : gmap jsstring nat)
    (records : list DomainRecord) (queue : list jsstring) (members : gset jsstring) :
  (popLoop inFlight index records queue members).2 ⊆ members.
Proof.
  revert members. induction queue as [|i rest IH]; intros members; simpl; [done|].
  destruct (decide (i ∉ members)); [apply IH|].
  destruct (decide (i ∈ inFlight)); [apply IH|].
  destruct (index !! i); simpl.
  - apply subseteq_difference_l. done.
  - etrans; [apply IH|]. apply subseteq_difference_l. done.
Qed.

(** What [popCandidate] returns was a member of the queue set, was not in
    flight, is indexed, and is no longer a member; the entries up to and
    including its own are gone from the queue. *)
Lemma popLoop_found (inFlight : gset jsstring) (index : gmap jsstring nat)
    (records : list DomainRecord) (queue : list jsstring) (members : gset jsstring)
    (i : jsstring) (found : option DomainRecord) :
  (popLoop inFlight index records queue members).1.1 = Some (i, found) ->
  (i ∈ members) /\ (i ∉ inFlight)
  /\ (exists idx, index !! i = Some idx /\ found = records !! idx)
  /\ (i ∉ (popLoop inFlight index records queue members).2)
  /\ exists skipped,
       queue = skipped ++ i :: (popLoop inFlight index records queue members).1.2.
Proof.
  revert members. induction queue as [|j rest IH]; intros members; simpl; [discriminate|].
  destruct (decide (j ∉ members)) as [Hj|Hj].
  { intros H. destruct (IH _ H) as (H1 & H2 & H3 & H4 & skipped & H5).
    repeat split; try assumption. exists (j :: skipped). simpl. congruence. }
  destruct (decide (j ∈ inFlight)) as [Hf|Hf].
  { intros H. destruct (IH _ H) as (H1 & H2 & H3 & H4 & skipped & H5).
    repeat split; try assumption. exists (j :: skipped). simpl. congruence. }
  destruct (index !! j) as [idx|] eqn:E; simpl.
  - intros [= <- <-]. repeat split.
    + now apply dec_stable.
    + exact Hf.
    + exists idx. split; [exact E|reflexivity].
    + apply not_elem_of_difference. right. now apply elem_of_singleton.
    + exists []. reflexivity.
  - intros H. destruct (IH _ H) as (H1 & H2 & H3 & H4 & skipped & H5).
    repeat split; try assumption.
    + apply elem_of_difference in H1. tauto.
    + exists (j :: skipped). simpl. congruence.
Qed.

(** When nothing is returned the queue has been emptied. *)
Lemma popLoop_none (inFlight : gset jsstring) (index : gmap jsstring nat)
    (records : list DomainRecord) (queue : list jsstring) (members : gset jsstring) :
  (popLoop inFlight index records queue members).1.1 = None ->
  (popLoop inFlight index records queue members).1.2 = [].
Proof.
  revert members. induction queue as [|j rest IH]; intros members; simpl; [done|].
  destruct (decide (j ∉ members)); [apply IH|].
  destruct (decide (j ∈ inFlight)); [apply IH|].
  destruct (index !! j); simpl; [discriminate|apply IH].
Qed.

Lemma popCandidate_unfold (c : Checker) (st : HookState) :
  popCandidate c st =
  let r := popLoop (get c (inFlightRef st)) (indexRef st) (recordsRef st)
                   (queueOf c st) (queueSetOf c st) in
  (r.1.1 ≫= snd, withQueue c r.1.2 r.2 st).
Proof. unfold popCandidate. now destruct (popLoop _ _ _ _ _) as [[a b] d]. Qed.

Lemma withQueue_fields (c : Checker) (q : list jsstring) (m : gset jsstring)
    (st : HookState) :
  recordsRef (withQueue c q m st) = recordsRef st
  /\ indexRef (withQueue c q m st) = indexRef st
  /\ statsRef (withQueue c q m st) = statsRef st
  /\ stopRequestedRef (withQueue c q m st) = stopRequestedRef st
  /\ inFlightRef (withQueue c q m st) = inFlightRef st
  /\ running (withQueue c q m st) = running st
  /\ statusMessage (withQueue c q m st) = statusMessage st
  /\ queueOf c (withQueue c q m st) = q
  /\ queueSetOf c (withQueue c q m st) = m.
Proof. destruct c; repeat split. Qed.

Lemma withQueue_other (c c' : Checker) (q : list jsstring) (m : gset jsstring)
    (st : HookState) :
  c' <> c ->
  queueOf c' (withQueue c q m st) = queueOf c' st
  /\ queueSetOf c' (withQueue c q m st) = queueSetOf c' st.
Proof. destruct c, c'; try congruence; repeat split. Qed.

Lemma popCandidate_store (c : Checker) (st : HookState) :
  recordsRef (popCandidate c st).2 = recordsRef st
  /\ indexRef (popCandidate c st).2 = indexRef st
  /\ statsRef (popCandidate c st).2 = statsRef st
  /\ stopRequestedRef (popCandidate c st).2 = stopRequestedRef st
  /\ inFlightRef (popCandidate c st).2 = inFlightRef st
  /\ running (popCandidate c st).2 = running st
  /\ queueSetOf c (popCandidate c st).2 ⊆ queueSetOf c st.
Proof.
  rewrite popCandidate_unfold. cbn zeta. cbn [snd].
  destruct (withQueue_fields c
              (popLoop (get c (inFlightRef st)) (indexRef st) (recordsRef st)
                       (queueOf c st) (queueSetOf c st)).1.2
              (popLoop (get c (inFlightRef st)) (indexRef st) (recordsRef st)
                       (queueOf c st) (queueSetOf c st)).2 st)
    as (H1 & H2 & H3 & H4 & H5 & H6 & _ & _ & H9).
  repeat split; try assumption. rewrite H9. apply popLoop_members.
Qed.

Lemma popCandidate_other (c c' : Checker) (st : HookState) :
  c' <> c ->
  queueOf c' (popCandidate c st).2 = queueOf c' st
  /\ queueSetOf c' (popCandidate c st).2 = queueSetOf c' st.
Proof. intros H. rewrite popCandidate_unfold. cbn zeta. now apply withQueue_other. Qed.

(** The candidate returned by [popCandidate] is the stored record of a key
    that was a member of the queue set and not in flight; the key is no
    longer a member when [popCandidate] returns. *)
Lemma popCandidate_found (c : Checker) (st : HookState) (r : DomainRecord) :
  coherent st ->
  (popCandidate c st).1 = Some r ->
  (id r ∈ queueSetOf c st)
  /\ (id r ∉ get c (inFlightRef st))
  /\ stored (id r) st = Some r
  /\ (id r ∉ queueSetOf c (popCandidate c st).2).
Proof.
  intros Hc. rewrite popCandidate_unfold. cbn zeta. cbn [fst snd].
  destruct (popLoop _ _ _ _ _).1.1 as [[i found]|] eqn:E; [|discriminate].
  simpl. intros ->.
  destruct (popLoop_found _ _ _ _ _ _ _ E) as (H1 & H2 & (idx & H3 & H4) & H5 & _).
  destruct (Hc _ _ H3) as (r' & Hr' & Hid).
  assert (r' = r) by congruence. subst r'. subst i.
  destruct (withQueue_fields c
              (popLoop (get c (inFlightRef st)) (indexRef st) (recordsRef st)
                       (queueOf c st) (queueSetOf c st)).1.2
              (popLoop (get c (inFlightRef st)) (indexRef st) (recordsRef st)
                       (queueOf c st) (queueSetOf c st)).2 st)
    as (_ & _ & _ & _ & _ & _ & _ & _ & H9).
  rewrite H9. repeat split; try assumption.
  unfold stored. rewrite H3. simpl. congruence.
Qed.

(** ** The claim of the verify stage *)

Lemma processOneClaim_rdap (st : HookState) :
  recordsRef (processOneClaim Rdap st).2 = recordsRef st
  /\ indexRef (processOneClaim Rdap st).2 = indexRef st
  /\ (rdapQueueSetRef (processOneClaim Rdap st).2 ⊆ rdapQueueSetRef st)
  /\ (coherent st -> forall r, (processOneClaim Rdap st).1 = Some r ->
        id r ∈ rdapQueueSetRef st /\ stored (id r) st = Some r).
Proof.
  unfold processOneClaim.
  destruct (get Rdap (stopRequestedRef st)).
  { split; [done|]. split; [done|]. split; [done|]. intros _ r. discriminate. }
  pose proof (popCandidate_store Rdap st) as (H1 & H2 & _ & _ & _ & _ & H7).
  pose proof (popCandidate_found Rdap st) as Hf.
  destruct (popCandidate Rdap st) as [[r|] st'] eqn:E; simpl in *.
  - split; [exact H1|]. split; [exact H2|]. split; [exact H7|].
    intros Hc r' [= <-]. destruct (Hf r Hc eq_refl) as (Ha & _ & Hb & _). tauto.
  - split; [exact H1|]. split; [exact H2|]. split; [exact H7|].
    intros _ r'. discriminate.
Qed.

Lemma claimTimes_skips (x : jsstring) (n : nat) (st : HookState) :
  coherent st -> x ∉ rdapQueueSetRef st ->
  Forall (fun r => id r <> x) (claimTimes Rdap n st).1
  /\ x ∉ rdapQueueSetRef (claimTimes Rdap n st).2.
Proof.
  revert st. induction n as [|n IH]; intros st Hc Hx; simpl; [split; [constructor|done]|].
  pose proof (processOneClaim_rdap st) as (H1 & H2 & H3 & H4).
  destruct (processOneClaim Rdap st) as [found st'] eqn:E. simpl in *.
  assert (Hc' : coherent st').
  { intros i idx. rewrite H1, H2. apply Hc. }
  assert (Hx' : x ∉ rdapQueueSetRef st') by (intros Hin; apply Hx, H3, Hin).
  specialize (IH st' Hc' Hx').
  destruct (claimTimes Rdap n st') as [rest st''] eqn:E'. simpl in *.
  destruct IH as [IH1 IH2]. split; [|exact IH2].
  destruct found as [r|]; [|exact IH1].
  constructor; [|exact IH1].
  destruct (H4 Hc r eq_refl) as [Hin _]. intros <-. contradiction.
Qed.

(** C4. An item is written to the store while it is eligible for the
    verify stage, which makes it a member of the RDAP queue.  When it is
    then written with a state that is not eligible, it is no longer a
    member although the queue itself is unchanged, and none of any number
    of claims made afterwards by the verify stage returns it: the workers
    skip its entry, and the RDAP lookup, which is run on claimed
    candidates only, is not run for it. *)
Theorem ineligible_item_is_skipped
    (st : HookState) (item item' : DomainRecord) (n : nat) :
  coherent st ->
  isRdapCandidate item = true ->
  id item' = id item ->
  isRdapCandidate item' = false ->
  let enqueued := upsertRecords [item] st in
  let changed := upsertRecords [item'] enqueued in
  status item = Available
  /\ (id item ∈ rdapQueueSetRef enqueued)
  /\ (id item ∉ rdapQueueSetRef st ->
      rdapQueueRef enqueued = rdapQueueRef st ++ [id item])
  /\ rdapQueueRef changed = rdapQueueRef enqueued
  /\ (id item ∉ rdapQueueSetRef changed)
  /\ Forall (fun r => id r <> id item) (claimTimes Rdap n changed).1.
Proof.
  intros Hc Hcand Hid Hnot. cbn zeta. unfold upsertRecords. cbn [fold_left].
  pose proof (upsertOne_rdap_enqueued st item Hcand) as [Hin Happ].
  pose proof (coherent_upsertOne st item Hc) as Hc1.
  pose proof (coherent_upsertOne _ item' Hc1) as Hc2.
  pose proof (upsertOne_rdapQueue (upsertOne st item) item') as Hq. cbn zeta in Hq.
  rewrite Hid, (stored_upsertOne_same st item Hc), Hcand, Hnot in Hq.
  cbn [andb negb] in Hq.
  pose proof (proj1 (pair_equal_spec _ _ _ _) Hq) as [Hq1 Hq2].
  assert (Hout : id item ∉ rdapQueueSetRef (upsertOne (upsertOne st item) item')).
  { rewrite Hq2. unfold removeFromQueue.
    apply not_elem_of_difference. right. now apply elem_of_singleton. }
  split; [now apply candidate_status|].
  split; [exact Hin|]. split; [exact Happ|]. split; [exact Hq1|]. split; [exact Hout|].
  apply claimTimes_skips; assumption.
Qed.

Lemma ineligible_item_is_skipped_witness :
  let item := exampleRecord Available RdapNotChecked in
  let item' := exampleRecord Taken RdapNotChecked in
  Forall (fun r => id r <> id item)
         (claimTimes Rdap 3 (upsertRecords [item'] (upsertRecords [item] initialHook))).1.
Proof.
  cbn zeta.
  apply (ineligible_item_is_skipped initialHook
           (exampleRecord Available RdapNotChecked)
           (exampleRecord Taken RdapNotChecked) 3).
  - intros i idx. simpl. rewrite lookup_empty. discriminate.
  - reflexivity.
  - reflexivity.
  - reflexivity.
Defined.

(** ** Stopping a checker *)

Lemma get_set_eq {A} (c : Checker) (x : A) (p : PerChecker A) : get c (set c x p) = x.
Proof. now destruct c. Qed.

Lemma get_set_ne {A} (c c' : Checker) (x : A) (p : PerChecker A) :
  c' <> c -> get c' (set c x p) = get c' p.
Proof. destruct c, c'; intros H; try reflexivity; now destruct H. Qed.

Lemma coherent_same_store (st st' : HookState) :
  recordsRef st' = recordsRef st -> indexRef st' = indexRef st ->
  coherent st -> coherent st'.
Proof. intros Hr Hi Hc i idx. rewrite Hr, Hi. apply Hc. Qed.








(** ** The worker pools *)

Lemma coherent_upsertRecords (updates : list DomainRecord) (st : HookState) :
  coherent st -> coherent (upsertRecords updates st).
Proof.
  unfold upsertRecords. revert st.
  induction updates as [|item l IH]; intros st H; simpl; [exact H|].
  apply IH. now apply coherent_upsertOne.
Qed.

Lemma upsertRecords_control (updates : list DomainRecord) (st : HookState) :
  inFlightRef (upsertRecords updates st) = inFlightRef st
  /\ stopRequestedRef (upsertRecords updates st) = stopRequestedRef st
  /\ running (upsertRecords updates st) = running st.
Proof.
  unfold upsertRecords. revert st.
  induction updates as [|item l IH]; intros st; simpl; [repeat split|].
  destruct (IH (upsertOne st item)) as (H1 & H2 & H3).
  rewrite H1, H2, H3. repeat split.
Qed.

Lemma enqueueDomains_control toLowerCase createId now rawInput (st : HookState) :
  coherent st ->
  coherent (enqueueDomains toLowerCase createId now rawInput st)
  /\ inFlightRef (enqueueDomains toLowerCase createId now rawInput st) = inFlightRef st.
Proof.
  intros Hc. unfold enqueueDomains.
  destruct (newRecords _ _ _ _ _) as [|r l]; [split; [exact Hc|reflexivity]|].
  split.
  - apply (coherent_same_store (upsertRecords (r :: l) st)); try reflexivity.
    now apply coherent_upsertRecords.
  - apply (upsertRecords_control (r :: l) st).
Qed.

(** The claim of [processOne]: the candidate was not in flight, it is in
    flight afterwards, and it is no longer a member of the queue set. *)
Lemma processOneClaim_spec (c : Checker) (st : HookState) :
  coherent st ->
  coherent (processOneClaim c st).2
  /\ (forall c', c' <> c ->
        get c' (inFlightRef (processOneClaim c st).2) = get c' (inFlightRef st))
  /\ match (processOneClaim c st).1 with
     | None => inFlightRef (processOneClaim c st).2 = inFlightRef st
     | Some r =>
         (id r ∈ queueSetOf c st)
         /\ (id r ∉ get c (inFlightRef st))
         /\ get c (inFlightRef (processOneClaim c st).2)
            = {[id r]} ∪ get c (inFlightRef st)
         /\ (id r ∉ queueSetOf c (processOneClaim c st).2)
     end.
Proof.
  intros Hc. unfold processOneClaim.
  destruct (get c (stopRequestedRef st)).
  { cbn [fst snd]. split; [exact Hc|]. split; reflexivity. }
  pose proof (popCandidate_store c st) as (H1 & H2 & _ & _ & H5 & _ & _).
  pose proof (popCandidate_found c st) as Hf.
  destruct (popCandidate c st) as [[r|] st'] eqn:E; cbn [fst snd] in *.
  - destruct (Hf r Hc eq_refl) as (Hin & Hout & _ & Hgone).
    assert (Hc' : coherent st') by (now apply (coherent_same_store st st')).
    destruct c; cbn [fst snd].
    + pose proof (upsertRecords_control [withStatus Checking r]
                    (withInFlight Dns ({[id r]} ∪ get Dns (inFlightRef st')) st'))
        as (Hi & _ & _).
      split; [apply coherent_upsertRecords; now apply (coherent_same_store st' _)|].
      split; [intros c' Hne; rewrite Hi; simpl; destruct c'; [congruence|];
              now rewrite H5|].
      split; [exact Hin|]. split; [exact Hout|].
      split; [rewrite Hi; simpl; now rewrite H5|].
      intros Hmem. apply Hgone.
      apply (upsertOne_dns_not_enqueued
               (withInFlight Dns ({[id r]} ∪ get Dns (inFlightRef st')) st')
               (withStatus Checking r)); [discriminate|exact Hmem].
    + split; [now apply (coherent_same_store st' _)|].
      split; [intros c' Hne; simpl; destruct c'; [|congruence]; now rewrite H5|].
      split; [exact Hin|]. split; [exact Hout|].
      split; [simpl; now rewrite H5|exact Hgone].
  - split; [now apply (coherent_same_store st st')|].
    split; [intros c' _; now rewrite H5|exact H5].
Qed.

Lemma processOneRelease_spec (c : Checker) (n : nat) (candidate : DomainRecord)
    (st : HookState) :
  recordsRef (processOneRelease c n candidate st) = recordsRef st
  /\ indexRef (processOneRelease c n candidate st) = indexRef st
  /\ get c (inFlightRef (processOneRelease c n candidate st))
     = get c (inFlightRef st) ∖ {[id candidate]}
  /\ (forall c', c' <> c ->
        get c' (inFlightRef (processOneRelease c n candidate st))
        = get c' (inFlightRef st)).
Proof.
  unfold processOneRelease. simpl. repeat split.
  - apply get_set_eq.
  - intros c' Hne. now apply get_set_ne.
Qed.

Lemma workerStep_coherent (c : Checker) (o : Pool.Oracle) (w : Pool.WorkerPhase)
    (count : nat) (st : HookState) :
  coherent st -> coherent (Pool.workerStep c o w count st).2.
Proof.
  intros Hc. destruct w as [|before candidate|before candidate|before|];
    unfold Pool.workerStep; cbv beta iota zeta.
  - destruct (get c (stopRequestedRef st)); [exact Hc|].
    pose proof (processOneClaim_spec c st Hc) as (H1 & _).
    now destruct (processOneClaim c st) as [[r|] st'].
  - unfold processOneWrite. now apply coherent_upsertRecords.
  - pose proof (processOneRelease_spec c (S count) candidate st) as (H1 & H2 & _).
    now apply (coherent_same_store st _ H1 H2).
  - destruct (get c (stopRequestedRef st)); [exact Hc|].
    now destruct (_ && _).
  - exact Hc.
Qed.

(** *** The workers of a system *)

Lemma runWorker_unfold (c : Checker) (g i : nat) (o : Pool.Oracle) (s : Pool.System)
    (pool : Pool.PoolState) (w : Pool.WorkerPhase) :
  get c (Pool.pools s) !! g = Some pool -> Pool.workers pool !! i = Some w ->
  Pool.runWorker c g i o s =
  let '(w', count', st') :=
    Pool.workerStep c o w (Pool.processedCount pool) (Pool.hook s) in
  Pool.mkSystem st'
    (set c (<[g := Pool.mkPool (<[i := w']> (Pool.workers pool)) count']>
              (get c (Pool.pools s)))
         (Pool.pools s)).
Proof. intros Hg Hi. unfold Pool.runWorker. now rewrite Hg, Hi. Qed.

Lemma runWorker_idle (c : Checker) (g i : nat) (o : Pool.Oracle) (s : Pool.System) :
  (forall w, ~ workerAt s c g i w) -> Pool.runWorker c g i o s = s.
Proof.
  intros Hnone. unfold Pool.runWorker.
  destruct (get c (Pool.pools s) !! g) as [pool|] eqn:Hg; [|reflexivity].
  destruct (Pool.workers pool !! i) as [w|] eqn:Hi; [|reflexivity].
  exfalso. apply (Hnone w). now exists pool.
Qed.

(** The workers after a step of worker [i] of call [g] of checker [c]. *)
Lemma workerAt_update (s : Pool.System) (c : Checker) (g i : nat)
    (pool : Pool.PoolState) (w w' : Pool.WorkerPhase) (n' : nat) (st' : HookState)
    (c' : Checker) (g' i' : nat) (w'' : Pool.WorkerPhase) :
  get c (Pool.pools s) !! g = Some pool -> Pool.workers pool !! i = Some w ->
  workerAt
    (Pool.mkSystem st'
       (set c (<[g := Pool.mkPool (<[i := w']> (Pool.workers pool)) n']>
                 (get c (Pool.pools s)))
            (Pool.pools s)))
    c' g' i' w'' <->
  (c' = c /\ g' = g /\ i' = i /\ w'' = w')
  \/ (~ (c' = c /\ g' = g /\ i' = i) /\ workerAt s c' g' i' w'').
Proof.
  intros Hg Hi. unfold workerAt. cbn [Pool.pools].
  assert (Hlg : (g < length (get c (Pool.pools s)))%nat) by (now apply lookup_lt_Some in Hg).
  assert (Hli : (i < length (Pool.workers pool))%nat) by (now apply lookup_lt_Some in Hi).
  destruct (decide (c' = c)) as [->|Hc].
  - rewrite get_set_eq. destruct (decide (g' = g)) as [->|Hgne].
    + rewrite list_lookup_insert_eq by exact Hlg.
      destruct (decide (i' = i)) as [->|Hine].
      * split.
        -- intros (p & [= <-] & Hw). cbn [Pool.workers] in Hw.
           rewrite list_lookup_insert_eq in Hw by exact Hli. left. now injection Hw as <-.
        -- intros [(_ & _ & _ & ->)|[Hn _]]; [|exfalso; now apply Hn].
           eexists. split; [reflexivity|]. cbn [Pool.workers].
           now apply list_lookup_insert_eq.
      * split.
        -- intros (p & [= <-] & Hw). cbn [Pool.workers] in Hw.
           rewrite list_lookup_insert_ne in Hw by congruence.
           right. split; [intros (_ & _ & ?); congruence|]. now exists pool.
        -- intros [(_ & _ & ? & _)|[_ (p & Hp & Hw)]]; [congruence|].
           assert (p = pool) by congruence. subst p.
           eexists. split; [reflexivity|]. cbn [Pool.workers].
           now rewrite list_lookup_insert_ne by congruence.
    + rewrite list_lookup_insert_ne by congruence. split.
      * intros H. right. split; [intros (_ & ? & _); congruence|exact H].
      * intros [(_ & ? & _)|[_ H]]; [congruence|exact H].
  - rewrite get_set_ne by exact Hc. split.
    + intros H. right. split; [intros (? & _); congruence|exact H].
    + intros [(? & _)|[_ H]]; [congruence|exact H].
Qed.

Lemma workerAt_hook (s : Pool.System) (st' : HookState) (c : Checker) (g i : nat)
    (w : Pool.WorkerPhase) :
  workerAt (Pool.mkSystem st' (Pool.pools s)) c g i w <-> workerAt s c g i w.
Proof. reflexivity. Qed.

(** A call of [startChecker] adds workers at the head of their loop. *)
Lemma workerAt_start (s : Pool.System) (c c' : Checker) (g i : nat) (w : Pool.WorkerPhase) :
  workerAt (Pool.start c s) c' g i w -> workerAt s c' g i w \/ w = Pool.AtLoopHead.
Proof.
  unfold Pool.start. destruct (get c (running (Pool.hook s))); [now left|].
  unfold workerAt. cbn [Pool.pools]. destruct (decide (c' = c)) as [->|Hne].
  - rewrite get_set_eq. intros (pool & Hg & Hw).
    apply lookup_app_Some in Hg as [Hg|[_ Hg]]; [left; now exists pool|].
    right. apply list_lookup_singleton_Some in Hg as [_ <-]. cbn [Pool.workers] in Hw.
    apply list_elem_of_lookup_2, elem_of_replicate in Hw. tauto.
  - rewrite get_set_ne by exact Hne. now left.
Qed.

Lemma workerAt_start_old (s : Pool.System) (c c' : Checker) (g i : nat)
    (w : Pool.WorkerPhase) :
  workerAt s c' g i w -> workerAt (Pool.start c s) c' g i w.
Proof.
  unfold Pool.start. destruct (get c (running (Pool.hook s))); [tauto|].
  unfold workerAt. cbn [Pool.pools]. destruct (decide (c' = c)) as [->|Hne].
  - rewrite get_set_eq. intros (pool & Hg & Hw). exists pool.
    split; [now apply lookup_app_l_Some|exact Hw].
  - now rewrite get_set_ne by exact Hne.
Qed.

(** The completion of a call removes workers only. *)
Lemma workerAt_finish (s : Pool.System) (c c' : Checker) (g g' i : nat)
    (w : Pool.WorkerPhase) :
  workerAt (Pool.finish c g s) c' g' i w -> workerAt s c' g' i w.
Proof.
  unfold Pool.finish. destruct (get c (Pool.pools s) !! g) as [pool|] eqn:Hg; [|tauto].
  unfold workerAt. cbn [Pool.pools]. destruct (decide (c' = c)) as [->|Hne].
  - rewrite get_set_eq. destruct (decide (g' = g)) as [->|Hgne].
    + rewrite list_lookup_insert_eq by (now apply lookup_lt_Some in Hg).
      intros (p & [= <-] & Hw). discriminate.
    + now rewrite list_lookup_insert_ne by congruence.
  - now rewrite get_set_ne by exact Hne.
Qed.

(** ** A restart after a clear *)

Lemma afterRestart_reachable :
  Pool.reachable DomainUtils.asciiToLowerCase afterRestart.
Proof.
  exists (Pool.mkSystem
            (loadRecords [exampleRecord Available RdapNotChecked; otherRecord] initialHook)
            (mkPer [] [])).
  split; [eexists; reflexivity|].
  unfold afterRestart, restartRun. cbn [fold_left].
  eapply rtc_l; [exists (Pool.Start Rdap); split; [exact I|reflexivity]|].
  eapply rtc_l; [exists (Pool.WorkerStep Rdap 0 0 failingOracle); split; [eexists; split; [reflexivity|vm_compute; lia]|reflexivity]|].
  eapply rtc_l; [exists (Pool.WorkerStep Rdap 0 1 answeringOracle); split; [eexists; split; [reflexivity|vm_compute; lia]|reflexivity]|].
  eapply rtc_l; [exists Pool.Clear; split; [exact I|reflexivity]|].
  eapply rtc_l; [exists (Pool.Start Rdap); split; [exact I|reflexivity]|].
  eapply rtc_l; [exists (Pool.WorkerStep Rdap 0 0 failingOracle); split; [eexists; split; [reflexivity|vm_compute; lia]|reflexivity]|].
  eapply rtc_l; [exists (Pool.WorkerStep Rdap 0 1 answeringOracle); split; [eexists; split; [reflexivity|vm_compute; lia]|reflexivity]|].
  eapply rtc_l; [exists (Pool.WorkerStep Rdap 0 1 answeringOracle); split; [eexists; split; [reflexivity|vm_compute; lia]|reflexivity]|].
  eapply rtc_l; [exists (Pool.WorkerStep Rdap 0 1 answeringOracle); split; [eexists; split; [reflexivity|vm_compute; lia]|reflexivity]|].
  eapply rtc_l; [exists (Pool.WorkerStep Rdap 0 1 answeringOracle); split; [eexists; split; [reflexivity|vm_compute; lia]|reflexivity]|].
  apply rtc_refl.
Qed.

(** C1. The claim fails when the RDAP checker is started again after a
    clear while workers of its first call are suspended: in the state
    reached by [restartRun], workers 0 and 1 of the first call both hold
    the key [id-1], worker 0 between the write of its result and its
    release, worker 1 in a lookup of the record that worker 0 wrote.  The
    release of worker 0 then takes the key out of the in-flight set while
    worker 1 still holds it, so that the set is no longer the set of the
    keys held.  The step in which worker 1 claimed the key was a regular
    one: [popCandidate] returned a member of the queue set that was not in
    the in-flight set. *)
Theorem clear_then_start_double_claim :
  Pool.reachable DomainUtils.asciiToLowerCase afterRestart
  /\ (exists w0 w1,
        workerAt afterRestart Rdap 0 0 w0 /\ workerAt afterRestart Rdap 0 1 w1
        /\ Pool.holds w0 = Some (js "id-1") /\ Pool.holds w1 = Some (js "id-1"))
  /\ (let released := Pool.runWorker Rdap 0 0 failingOracle afterRestart in
      (exists w1, workerAt released Rdap 0 1 w1 /\ Pool.holds w1 = Some (js "id-1"))
      /\ (js "id-1" ∉ get Rdap (inFlightRef (Pool.hook released)))).
Proof.
  split; [exact afterRestart_reachable|]. split.
  - eexists _, _. split; [eexists; split; vm_compute; reflexivity|].
    split; [eexists; split; vm_compute; reflexivity|]. split; reflexivity.
  - cbn zeta. split.
    + eexists. split; [eexists; split; vm_compute; reflexivity|reflexivity].
    + apply (bool_decide_unpack _). vm_compute. exact I.
Qed.

(** ** The pipeline with identifiers issued once *)

Lemma addToQueue_members (q : list jsstring * gset jsstring) (i k : jsstring) :
  k ∈ (addToQueue q i).2 <-> k = i \/ k ∈ q.2.
Proof.
  unfold addToQueue. destruct (decide (i ∈ q.2)) as [Hin|Hout]; simpl.
  - split; [tauto|]. intros [->|H]; assumption.
  - rewrite elem_of_union, elem_of_singleton. reflexivity.
Qed.

(** The membership of the queue sets after a write. *)
Lemma upsertOne_dns_members (st : HookState) (item : DomainRecord) (k : jsstring) :
  k ∈ dnsQueueSetRef (upsertOne st item) <->
  (k = id item /\ status item = Queued)
  \/ (k ∈ dnsQueueSetRef st
      /\ ~ (k = id item /\ status <$> stored (id item) st = Some Queued
            /\ status item <> Queued)).
Proof.
  pose proof (upsertOne_dnsQueue st item) as H. cbn zeta in H.
  replace (dnsQueueSetRef (upsertOne st item))
    with (dnsQueueRef (upsertOne st item), dnsQueueSetRef (upsertOne st item)).2
    by reflexivity.
  rewrite H. clear H.
  destruct (decide (status item = Queued)) as [Hq|Hq].
  - rewrite (bool_decide_eq_true_2 _ Hq), (bool_decide_eq_false_2 (status item ≠ Queued)),
      andb_false_r by tauto.
    rewrite addToQueue_members. simpl. split.
    + intros [->|H]; [left; tauto|]. right. split; [exact H|]. tauto.
    + intros [[-> _]|[H _]]; tauto.
  - rewrite (bool_decide_eq_false_2 _ Hq), (bool_decide_eq_true_2 (status item ≠ Queued))
      by exact Hq. rewrite andb_true_r. simpl.
    destruct (decide (status <$> stored (id item) st = Some Queued)) as [Hp|Hp].
    + rewrite (bool_decide_eq_true_2 _ Hp). unfold removeFromQueue.
      rewrite elem_of_difference, elem_of_singleton. split.
      * intros [H Hne]. right. split; [exact H|]. tauto.
      * intros [[_ H]|[H Hn]]; [contradiction|]. split; [exact H|]. intros ->. tauto.
    + rewrite (bool_decide_eq_false_2 _ Hp). split.
      * intros H. right. split; [exact H|]. tauto.
      * intros [[_ H]|[H _]]; [contradiction|exact H].
Qed.

Lemma upsertOne_rdap_members (st : HookState) (item : DomainRecord) (k : jsstring) :
  k ∈ rdapQueueSetRef (upsertOne st item) <->
  (k = id item /\ isRdapCandidate item = true)
  \/ (k ∈ rdapQueueSetRef st
      /\ ~ (k = id item /\ isRdapCandidate <$> stored (id item) st = Some true
            /\ isRdapCandidate item = false)).
Proof.
  pose proof (upsertOne_rdapQueue st item) as H. cbn zeta in H.
  replace (rdapQueueSetRef (upsertOne st item))
    with (rdapQueueRef (upsertOne st item), rdapQueueSetRef (upsertOne st item)).2
    by reflexivity.
  rewrite H. clear H.
  destruct (isRdapCandidate item) eqn:Hq.
  - rewrite andb_false_r, addToQueue_members. simpl. split.
    + intros [->|H]; [left; tauto|]. right. split; [exact H|].
      intros (_ & _ & ?). discriminate.
    + intros [[-> _]|[H _]]; tauto.
  - rewrite andb_true_r. simpl.
    destruct (stored (id item) st) as [prev|] eqn:Hprev; simpl.
    + destruct (isRdapCandidate prev) eqn:Hp; unfold removeFromQueue.
      * rewrite elem_of_difference, elem_of_singleton. split.
        -- intros [H Hne]. right. split; [exact H|]. tauto.
        -- intros [[_ H]|[H Hn]]; [discriminate|]. split; [exact H|]. intros ->.
           apply Hn. tauto.
      * split.
        -- intros H. right. split; [exact H|]. intros (_ & ? & _). discriminate.
        -- intros [[_ H]|[H _]]; [discriminate|exact H].
    + split.
      * intros H. right. split; [exact H|]. intros (_ & ? & _). discriminate.
      * intros [[_ H]|[H _]]; [discriminate|exact H].
Qed.

Lemma upsertOne_index_dom (st : HookState) (item : DomainRecord) (k : jsstring) :
  is_Some (indexRef (upsertOne st item) !! k) ->
  is_Some (indexRef st !! k) \/ k = id item.
Proof.
  rewrite upsertOne_index. destruct (indexRef st !! id item); [tauto|].
  destruct (decide (k = id item)) as [->|Hne]; [tauto|].
  rewrite lookup_insert_ne by congruence. tauto.
Qed.

(** A write keeps the queue sets sound when the key written is either
    eligible for a queue or not a member of its set. *)
Lemma queuesSound_upsertOne (st : HookState) (item : DomainRecord) :
  coherent st -> queuesSound st ->
  id item ∉ dnsQueueSetRef st \/ status item = Queued ->
  id item ∉ rdapQueueSetRef st \/ isRdapCandidate item = true ->
  queuesSound (upsertOne st item).
Proof.
  intros Hc [Hd Hr] Hdns Hrdap. split.
  - intros k r Hk Hs. apply upsertOne_dns_members in Hk.
    destruct (decide (k = id item)) as [->|Hne].
    + rewrite stored_upsertOne_same in Hs by exact Hc. injection Hs as <-.
      destruct Hk as [[_ H]|[H Hn]]; [exact H|].
      destruct Hdns as [Hout|Hq]; [contradiction|exact Hq].
    + rewrite stored_upsertOne_other in Hs by assumption.
      destruct Hk as [[H _]|[H _]]; [contradiction|]. now apply (Hd k).
  - intros k r Hk Hs. apply upsertOne_rdap_members in Hk.
    destruct (decide (k = id item)) as [->|Hne].
    + rewrite stored_upsertOne_same in Hs by exact Hc. injection Hs as <-.
      destruct Hk as [[_ H]|[H Hn]]; [exact H|].
      destruct Hrdap as [Hout|Hq]; [contradiction|exact Hq].
    + rewrite stored_upsertOne_other in Hs by assumption.
      destruct Hk as [[H _]|[H _]]; [contradiction|]. now apply (Hr k).
Qed.

Lemma queuesSound_quieter (st st' : HookState) :
  quieter st st' -> queuesSound st -> queuesSound st'.
Proof.
  intros (Hr & Hi & Hd & Hq) [H1 H2]. split.
  - intros k r Hk. unfold stored. rewrite Hr, Hi. apply H1. now apply Hd.
  - intros k r Hk. unfold stored. rewrite Hr, Hi. apply H2. now apply Hq.
Qed.

Lemma quieter_refl (st : HookState) : quieter st st.
Proof. repeat split; done. Qed.

Lemma popCandidate_quieter (c : Checker) (st : HookState) :
  quieter st (popCandidate c st).2.
Proof.
  pose proof (popCandidate_store c st) as (H1 & H2 & _ & _ & _ & _ & H7).
  split; [exact H1|]. split; [exact H2|].
  destruct c.
  - split; [exact H7|].
    destruct (popCandidate_other Dns Rdap st) as [_ H]; [discriminate|].
    simpl in H. now rewrite H.
  - split; [|exact H7].
    destruct (popCandidate_other Rdap Dns st) as [_ H]; [discriminate|].
    simpl in H. now rewrite H.
Qed.

Lemma runDnsLookup_status now df rf (r : DomainRecord) :
  status (runDnsLookup now df rf r) <> Queued.
Proof. unfold runDnsLookup. case_lookup; discriminate. Qed.

Lemma quieter_withInFlight (c : Checker) (F : gset jsstring) (st st' : HookState) :
  quieter st st' -> quieter st (withInFlight c F st').
Proof. intros H. exact H. Qed.

Lemma quieter_withMessage (m : StatusMessage) (st st' : HookState) :
  quieter st st' -> quieter st (withMessage m st').
Proof. intros H. exact H. Qed.

Lemma workerStep_effect (c : Checker) (o : Pool.Oracle) (w : Pool.WorkerPhase)
    (count : nat) (st : HookState) :
  coherent st ->
  let '(w', _, st') := Pool.workerStep c o w count st in
  workerEffect c st w w' st'.
Proof.
  intros Hc. destruct w as [|before candidate|before candidate|before|];
    unfold Pool.workerStep; cbv beta iota zeta.
  - destruct (get c (stopRequestedRef st)) eqn:Hstop.
    { apply EffectQuiet; [discriminate|apply quieter_refl]. }
    unfold processOneClaim. rewrite Hstop.
    pose proof (popCandidate_quieter c st) as Hq.
    pose proof (popCandidate_found c st) as Hf.
    destruct (popCandidate c st) as [[r|] st1]; cbn [fst snd] in *.
    + destruct (Hf r Hc eq_refl) as (Hin & _ & Hs & Hgone).
      pose proof (EffectClaim c st Pool.AtLoopHead count r
                    (withInFlight c ({[id r]} ∪ get c (inFlightRef st1)) st1)) as H.
      destruct c; apply H; try assumption; discriminate.
    + apply EffectQuiet; [discriminate|exact Hq].
  - apply (EffectWrite c st _ before candidate); [reflexivity| |].
    + apply processOneLookup_id.
    + destruct c; [apply runDnsLookup_status|reflexivity].
  - apply EffectQuiet; [discriminate|exact (quieter_refl st)].
  - destruct (get c (stopRequestedRef st)).
    { apply EffectQuiet; [discriminate|apply quieter_refl]. }
    destruct (_ && _); (apply EffectQuiet; [discriminate|apply quieter_refl]).
  - apply EffectQuiet; [discriminate|apply quieter_refl].
Qed.

Lemma upsertOne_untouched (st : HookState) (item : DomainRecord) (x : jsstring) :
  coherent st -> x <> id item ->
  stored x (upsertOne st item) = stored x st
  /\ (x ∈ dnsQueueSetRef (upsertOne st item) <-> x ∈ dnsQueueSetRef st)
  /\ (x ∈ rdapQueueSetRef (upsertOne st item) <-> x ∈ rdapQueueSetRef st).
Proof.
  intros Hc Hne. split; [now apply stored_upsertOne_other|]. split.
  - rewrite upsertOne_dns_members. split; [intros [[H _]|[H _]]; tauto|].
    intros H. right. split; [exact H|]. tauto.
  - rewrite upsertOne_rdap_members. split; [intros [[H _]|[H _]]; tauto|].
    intros H. right. split; [exact H|]. tauto.
Qed.

(** A write of a record that is not queued adds nothing to the DNS queue
    set; a write of a record that is not eligible adds nothing to the RDAP
    queue set; a write adds at most its own key. *)
Lemma upsertOne_dns_grows (st : HookState) (item : DomainRecord) (k : jsstring) :
  k ∈ dnsQueueSetRef (upsertOne st item) ->
  k ∈ dnsQueueSetRef st \/ (k = id item /\ status item = Queued).
Proof. rewrite upsertOne_dns_members. tauto. Qed.

Lemma upsertOne_rdap_grows (st : HookState) (item : DomainRecord) (k : jsstring) :
  k ∈ rdapQueueSetRef (upsertOne st item) ->
  k ∈ rdapQueueSetRef st \/ (k = id item /\ isRdapCandidate item = true).
Proof. rewrite upsertOne_rdap_members. tauto. Qed.

Lemma coherent_quieter (st st' : HookState) :
  quieter st st' -> coherent st -> coherent st'.
Proof. intros (Hr & Hi & _). now apply coherent_same_store. Qed.

Lemma stored_quieter (st st' : HookState) (k : jsstring) :
  quieter st st' -> stored k st' = stored k st.
Proof. intros (Hr & Hi & _). unfold stored. now rewrite Hr, Hi. Qed.

Lemma looksUp_busy (c : Checker) (s : Pool.System) (g i b : nat) (candidate : DomainRecord) :
  workerAt s c g i (Pool.Holding b candidate) -> busy s (id candidate).
Proof. intros H. exists c, candidate. split; [reflexivity|]. now exists g, i, b. Qed.

(** A step that writes nothing, adds nothing to the queue sets and starts
    no lookup. *)
Lemma pipeline_mono (s s' : Pool.System) (used used' : gset jsstring) :
  used ⊆ used' ->
  quieter (Pool.hook s) (Pool.hook s') ->
  (forall c g i b candidate,
     workerAt s' c g i (Pool.Holding b candidate) ->
     workerAt s c g i (Pool.Holding b candidate)) ->
  pipelineInvariant (s, used) -> pipelineInvariant (s', used').
Proof.
  intros Hsub Hq Hat (Hc & Hsound & Hknown & Hbusy & Hx & Havail & Hqd).
  unfold pipelineInvariant. cbn [fst snd] in *.
  assert (Hlu : forall c cand, looksUp c s' cand -> looksUp c s cand).
  { intros c cand (g & i & b & H). exists g, i, b. now apply Hat. }
  assert (Hb : forall k, busy s' k -> busy s k).
  { intros k (c & cand & Hid & H). exists c, cand. split; [exact Hid|]. now apply Hlu. }
  split; [now apply (coherent_quieter (Pool.hook s))|].
  destruct Hq as (Hr & Hi & Hd & Hrd).
  split; [now apply (queuesSound_quieter (Pool.hook s))|].
  split; [|split; [|split; [|split]]].
  - intros k H. apply Hsub, Hknown. rewrite Hi in H.
    destruct H as [H|[H|[H|H]]]; auto.
  - intros k H. destruct (Hbusy k (Hb k H)) as [H1 H2]. split; auto.
  - intros c g i b cand c' g' i' b' cand' H1 H2. apply (Hx c g i b cand c' g' i' b' cand');
      now apply Hat.
  - intros cand H. apply Havail. now apply Hlu.
  - intros cand H. apply Hqd. now apply Hlu.
Qed.

(** The write of the result of a lookup by the worker that holds the
    key. *)
Lemma pipeline_write (s s' : Pool.System) (used : gset jsstring) (item : DomainRecord)
    (c : Checker) (g i b : nat) (candidate : DomainRecord) :
  Pool.hook s' = upsertOne (Pool.hook s) item ->
  workerAt s c g i (Pool.Holding b candidate) ->
  id item = id candidate -> status item <> Queued ->
  (forall c' g' i' b' candidate',
     workerAt s' c' g' i' (Pool.Holding b' candidate') ->
     workerAt s c' g' i' (Pool.Holding b' candidate')
     /\ ~ (c' = c /\ g' = g /\ i' = i)) ->
  pipelineInvariant (s, used) -> pipelineInvariant (s', used).
Proof.
  intros Hhook Hw Hid Hstatus Hat (Hc & Hsound & Hknown & Hbusy & Hx & Havail & Hqd).
  unfold pipelineInvariant. cbn [fst snd] in *.
  assert (Hitem : busy s (id item)).
  { rewrite Hid. now apply (looksUp_busy c s g i b). }
  destruct (Hbusy _ Hitem) as [Hnd Hnr].
  assert (Hlu : forall c' cand, looksUp c' s' cand ->
                  looksUp c' s cand /\ id cand <> id item).
  { intros c' cand (g' & i' & b' & H). destruct (Hat _ _ _ _ _ H) as [H1 H2].
    split; [now exists g', i', b'|]. intros Heq. apply H2.
    destruct (Hx c' g' i' b' cand c g i b candidate H1 Hw) as (-> & -> & ->);
      [congruence|tauto]. }
  assert (Hb : forall k, busy s' k -> busy s k /\ k <> id item).
  { intros k (c' & cand & Hk & H). destruct (Hlu c' cand H) as [H1 H2].
    split; [exists c', cand; tauto|congruence]. }
  rewrite Hhook.
  split; [now apply coherent_upsertOne|].
  split; [apply queuesSound_upsertOne; auto|].
  split; [|split; [|split; [|split]]].
  - intros k H. apply Hknown. destruct H as [H|[H|[H|H]]].
    + apply upsertOne_index_dom in H as [H| ->]; auto.
    + apply upsertOne_dns_grows in H as [H|[-> _]]; auto.
    + apply upsertOne_rdap_grows in H as [H|[-> _]]; auto.
    + apply Hb in H as [H _]. auto.
  - intros k H. apply Hb in H as [H Hne]. destruct (Hbusy k H) as [H1 H2].
    destruct (upsertOne_untouched (Pool.hook s) item k Hc Hne) as (_ & Hd & Hr).
    rewrite Hd, Hr. tauto.
  - intros c1 g1 i1 b1 cand1 c2 g2 i2 b2 cand2 H1 H2.
    apply (Hx c1 g1 i1 b1 cand1 c2 g2 i2 b2 cand2); now apply Hat.
  - intros cand H. apply Havail. now apply Hlu.
  - intros cand H. apply Hqd. now apply Hlu.
Qed.

(** The claim of a candidate by worker [i] of call [g] of checker [c]. *)
Lemma pipeline_claim (c : Checker) (g i : nat) (s s' : Pool.System)
    (used : gset jsstring) (candidate : DomainRecord) (st1 : HookState) :
  quieter (Pool.hook s) st1 ->
  Pool.hook s' = match c with
                 | Dns => upsertOne st1 (withStatus Checking candidate)
                 | Rdap => st1
                 end ->
  id candidate ∈ queueSetOf c (Pool.hook s) ->
  stored (id candidate) (Pool.hook s) = Some candidate ->
  id candidate ∉ queueSetOf c st1 ->
  (forall c' g' i' b' candidate',
     workerAt s' c' g' i' (Pool.Holding b' candidate') ->
     workerAt s c' g' i' (Pool.Holding b' candidate')
     \/ (c' = c /\ g' = g /\ i' = i /\ candidate' = candidate)) ->
  pipelineInvariant (s, used) -> pipelineInvariant (s', used).
Proof.
  intros Hq Hhook Hin Hs Hgone Hat (Hc & Hsound & Hknown & Hbusy & Hx & Havail & Hqd).
  unfold pipelineInvariant. cbn [fst snd] in *.
  assert (Hc1 : coherent st1) by (now apply (coherent_quieter (Pool.hook s))).
  assert (Hsound1 : queuesSound st1) by (now apply (queuesSound_quieter (Pool.hook s))).
  destruct Hsound as [HS1 HS2]. destruct Hq as (Hr & Hi & Hd & Hrd).
  assert (Hk : id candidate ∈ used).
  { apply Hknown. destruct c; simpl in Hin; auto. }
  assert (Hidle : ~ busy s (id candidate)).
  { intros H. apply Hbusy in H as [H1 H2]. destruct c; simpl in Hin; contradiction. }
  assert (Hlu : forall c' cand, looksUp c' s' cand ->
                  looksUp c' s cand \/ (c' = c /\ cand = candidate)).
  { intros c' cand (g' & i' & b' & H).
    destruct (Hat _ _ _ _ _ H) as [H1|(-> & _ & _ & ->)]; [|now right].
    left. now exists g', i', b'. }
  assert (Hb : forall k, busy s' k -> busy s k \/ k = id candidate).
  { intros k (c' & cand & Hid & H). destruct (Hlu c' cand H) as [H1|[_ ->]].
    - left. exists c', cand. tauto.
    - right. congruence. }
  assert (Hx' : lookupsUnique s').
  { intros c1 g1 i1 b1 cand1 c2 g2 i2 b2 cand2 H1 H2 Heq.
    destruct (Hat _ _ _ _ _ H1) as [H1'|(-> & -> & -> & ->)];
      destruct (Hat _ _ _ _ _ H2) as [H2'|(-> & -> & -> & ->)].
    - now apply (Hx c1 g1 i1 b1 cand1 c2 g2 i2 b2 cand2).
    - exfalso. apply Hidle. rewrite <- Heq. now apply (looksUp_busy c1 s g1 i1 b1).
    - exfalso. apply Hidle. rewrite Heq. now apply (looksUp_busy c2 s g2 i2 b2).
    - tauto. }
  rewrite Hhook. destruct c; simpl in Hin, Hgone.
  - (* the resolve stage: the candidate is queued, and marked as checking *)
    assert (Hqueued : status candidate = Queued) by (now apply (HS1 (id candidate))).
    assert (Hnr : id candidate ∉ rdapQueueSetRef (Pool.hook s)).
    { intros H. apply (HS2 _ _ H) in Hs. apply candidate_status in Hs. congruence. }
    assert (Hdns : forall k,
               k ∈ dnsQueueSetRef (upsertOne st1 (withStatus Checking candidate)) ->
               k ∈ dnsQueueSetRef st1).
    { intros k H. apply upsertOne_dns_grows in H as [H|[_ H]]; [exact H|discriminate]. }
    assert (Hrdap : forall k,
               k ∈ rdapQueueSetRef (upsertOne st1 (withStatus Checking candidate)) ->
               k ∈ rdapQueueSetRef st1).
    { intros k H. apply upsertOne_rdap_grows in H as [H|[_ H]]; [exact H|discriminate]. }
    split; [now apply coherent_upsertOne|].
    split; [apply queuesSound_upsertOne; auto|].
    split; [|split; [|split; [|split]]].
    + intros k H. destruct H as [H|[H|[H|H]]].
      * apply upsertOne_index_dom in H as [H| ->]; [|exact Hk].
        apply Hknown. rewrite Hi in H. auto.
      * apply Hknown. right. left. now apply Hd, Hdns.
      * apply Hknown. right. right. left. now apply Hrd, Hrdap.
      * apply Hb in H as [H| ->]; [|exact Hk]. apply Hknown. auto.
    + intros k H. split.
      * intros Hm. apply Hdns in Hm. apply Hb in H as [H| ->]; [|contradiction].
        apply Hbusy in H as [H _]. apply H. now apply Hd.
      * intros Hm. apply Hrdap, Hrd in Hm. apply Hb in H as [H| ->]; [|contradiction].
        apply Hbusy in H as [_ H]. contradiction.
    + exact Hx'.
    + intros cr H. destruct (Hlu Rdap cr H) as [H'|[? _]]; [|discriminate].
      now apply Havail.
    + intros cd H. destruct (Hlu Dns cd H) as [H'|[_ ->]]; [now apply Hqd|].
      exact Hqueued.
  - (* the verify stage: the candidate is available *)
    assert (Hcand : isRdapCandidate candidate = true) by (now apply (HS2 (id candidate))).
    assert (Havailable : status candidate = Available) by (now apply candidate_status).
    assert (Hnd : id candidate ∉ dnsQueueSetRef (Pool.hook s)).
    { intros H. apply (HS1 _ _ H) in Hs. congruence. }
    split; [exact Hc1|].
    split; [exact Hsound1|].
    split; [|split; [|split; [|split]]].
    + intros k H. destruct H as [H|[H|[H|H]]].
      * apply Hknown. rewrite Hi in H. auto.
      * apply Hknown. right. left. now apply Hd.
      * apply Hknown. right. right. left. now apply Hrd.
      * apply Hb in H as [H| ->]; [|exact Hk]. apply Hknown. auto.
    + intros k H. split.
      * intros Hm. apply Hd in Hm. apply Hb in H as [H| ->]; [|contradiction].
        apply Hbusy in H as [H _]. contradiction.
      * intros Hm. apply Hb in H as [H| ->]; [|contradiction].
        apply Hbusy in H as [_ H]. apply H. now apply Hrd.
    + exact Hx'.
    + intros cr H. destruct (Hlu Rdap cr H) as [H'|[_ ->]]; [now apply Havail|].
      exact Havailable.
    + intros cd H. destruct (Hlu Dns cd H) as [H'|[? _]]; [|discriminate].
      now apply Hqd.
Qed.

Lemma pipeline_worker (c : Checker) (g i : nat) (o : Pool.Oracle) (s : Pool.System)
    (used : gset jsstring) :
  pipelineInvariant (s, used) -> pipelineInvariant (Pool.runWorker c g i o s, used).
Proof.
  intros Hinv. pose proof Hinv as (Hc & Hsound & Hknown & Hbusy & Hx & Havail & Hqd).
  cbn [fst snd] in *.
  destruct (get c (Pool.pools s) !! g) as [pool|] eqn:Hg;
    [|unfold Pool.runWorker; now rewrite Hg].
  destruct (Pool.workers pool !! i) as [w|] eqn:Hw;
    [|unfold Pool.runWorker; now rewrite Hg, Hw].
  assert (Hat : workerAt s c g i w) by (now exists pool).
  rewrite (runWorker_unfold c g i o s pool w Hg Hw).
  pose proof (workerStep_effect c o w (Pool.processedCount pool) (Pool.hook s) Hc) as Heff.
  destruct (Pool.workerStep c o w _ (Pool.hook s)) as [[w' n'] st'].
  destruct Heff as [w' st' Hnot Hq|b cand st1 Hnot Hq Hin Hs Hgone|b cand item -> Hid Hst].
  - (* nothing claimed, nothing written *)
    apply (pipeline_mono s _ used used); [done|exact Hq| |exact Hinv].
    intros c' g' i' b cand H.
    apply (workerAt_update s c g i pool w w' n' st' c' g' i' _ Hg Hw) in H
      as [(_ & _ & _ & H)|[_ H]]; [|exact H].
    symmetry in H. now apply Hnot in H.
  - (* a claim *)
    apply (pipeline_claim c g i s _ used cand st1 Hq); try assumption; [reflexivity|].
    intros c' g' i' b' cand' H.
    apply (workerAt_update s c g i pool w _ n' _ c' g' i' _ Hg Hw) in H
      as [(-> & -> & -> & H)|[_ H]]; [|now left].
    right. injection H as _ ->. tauto.
  - (* the write of a result *)
    apply (pipeline_write s _ used item c g i b cand); try assumption; [reflexivity| |].
    + destruct c; [exact Hst|]. rewrite Hst.
      rewrite (Havail cand); [discriminate|]. now exists g, i, b.
    + intros c' g' i' b' cand' H.
      apply (workerAt_update s c g i pool _ _ n' _ c' g' i' _ Hg Hw) in H
        as [(_ & _ & _ & H)|[Hne H]]; [discriminate|tauto].
Qed.

(** The write of a new, queued record with an identifier not yet in use. *)
Lemma pipeline_enqueue_one (st : HookState) (pools : PerChecker (list Pool.PoolState))
    (used : gset jsstring) (item : DomainRecord) :
  pipelineInvariant (Pool.mkSystem st pools, used) ->
  id item ∉ used -> status item = Queued ->
  pipelineInvariant (Pool.mkSystem (upsertOne st item) pools, {[id item]} ∪ used).
Proof.
  intros (Hc & Hsound & Hknown & Hbusy & Hx & Havail & Hqd) Hfresh Hq.
  unfold pipelineInvariant. cbn [fst snd Pool.hook] in *.
  split; [now apply coherent_upsertOne|].
  split.
  { apply queuesSound_upsertOne; auto. left. intros H. apply Hfresh, Hknown. auto. }
  split; [|split; [|split; [|split]]].
  - intros k H. apply elem_of_union. rewrite elem_of_singleton.
    destruct H as [H|[H|[H|H]]].
    + apply upsertOne_index_dom in H as [H| ->]; [right; apply Hknown; auto|now left].
    + apply upsertOne_dns_grows in H as [H|[-> _]]; [right; apply Hknown; auto|now left].
    + apply upsertOne_rdap_grows in H as [H|[-> _]]; [right; apply Hknown; auto|now left].
    + right. apply Hknown. auto.
  - intros k H. assert (Hne : k <> id item).
    { intros ->. apply Hfresh, Hknown. auto. }
    destruct (upsertOne_untouched st item k Hc Hne) as (_ & Hd & Hr).
    rewrite Hd, Hr. now apply Hbusy.
  - exact Hx.
  - exact Havail.
  - exact Hqd.
Qed.

Lemma pipeline_enqueue_list (items : list DomainRecord) (st : HookState)
    (pools : PerChecker (list Pool.PoolState)) (used : gset jsstring) :
  pipelineInvariant (Pool.mkSystem st pools, used) ->
  NoDup (id <$> items) ->
  (forall k, k ∈ id <$> items -> k ∉ used) ->
  Forall (fun r => status r = Queued /\ rdapStatus r = RdapNotChecked) items ->
  pipelineInvariant (Pool.mkSystem (upsertRecords items st) pools,
                     list_to_set (id <$> items) ∪ used).
Proof.
  unfold upsertRecords. revert st used.
  induction items as [|item l IH]; intros st used Hinv Hnd Hfresh Hq.
  - simpl. now rewrite (left_id_L ∅ (∪)).
  - rewrite fmap_cons in Hnd, Hfresh. apply NoDup_cons in Hnd as [Hnot Hnd].
    apply Forall_cons in Hq as [[Hq _] Hrest].
    assert (Hfirst : id item ∉ used) by (apply Hfresh; now left).
    pose proof (pipeline_enqueue_one st pools used item Hinv Hfirst Hq) as Hone.
    specialize (IH (upsertOne st item) ({[id item]} ∪ used) Hone Hnd).
    assert (Heq : forall A B C : gset jsstring, (A ∪ B) ∪ C = B ∪ (A ∪ C)).
    { intros A B C. rewrite (comm_L (∪) A B). symmetry. apply (assoc_L (∪)). }
    rewrite fmap_cons, list_to_set_cons, Heq. cbn [fold_left].
    apply IH; [|exact Hrest]. intros k Hk Hin.
    apply elem_of_union in Hin as [Hin|Hin].
    + apply elem_of_singleton in Hin as ->. contradiction.
    + apply (Hfresh k); [now right|exact Hin].
Qed.

Lemma pipeline_clear (s : Pool.System) (used : gset jsstring) :
  pipelineInvariant (s, used) ->
  pipelineInvariant (Pool.mkSystem (handleClear (Pool.hook s)) (Pool.pools s), used).
Proof.
  intros (Hc & Hsound & Hknown & Hbusy & Hx & Havail & Hqd).
  unfold pipelineInvariant. cbn [fst snd Pool.hook] in *.
  split; [apply handleClear_invariant|].
  split.
  { split; intros k r _; unfold stored; simpl; rewrite lookup_empty; discriminate. }
  split; [|split; [|split; [|split]]].
  - intros k H. apply Hknown. destruct H as [H|[H|[H|H]]]; auto.
    simpl in H. rewrite lookup_empty in H. now destruct H.
  - exact Hbusy.
  - exact Hx.
  - exact Havail.
  - exact Hqd.
Qed.

(** Start, finish and stop requests write nothing to the store or to the
    queue sets, and start no lookup. *)
Lemma control_quiet (toLowerCase : jsstring -> jsstring) (e : Pool.Event) (s : Pool.System) :
  match e with
  | Pool.Start _ | Pool.Finish _ _ | Pool.Stop _ => True
  | _ => False
  end ->
  quieter (Pool.hook s) (Pool.hook (Pool.perform toLowerCase e s))
  /\ (forall c g i b candidate,
        workerAt (Pool.perform toLowerCase e s) c g i (Pool.Holding b candidate) ->
        workerAt s c g i (Pool.Holding b candidate)).
Proof.
  destruct e as [c g i o|createId now rawInput|c|c g|c|]; try contradiction; intros _;
    cbn [Pool.perform].
  - split.
    + unfold Pool.start. destruct (get c (running (Pool.hook s))) eqn:Hrun;
        [apply quieter_refl|].
      unfold startCheckerBegin. rewrite Hrun. exact (quieter_refl (Pool.hook s)).
    + intros c' g' i' b cand H. apply workerAt_start in H as [H|H]; [exact H|discriminate].
  - split.
    + unfold Pool.finish. destruct (get c (Pool.pools s) !! g);
        exact (quieter_refl (Pool.hook s)).
    + intros c' g' i' b cand H. now apply workerAt_finish in H.
  - split; [|intros c' g' i' b cand H; exact H].
    unfold stopChecker. cbn [Pool.hook].
    destruct (negb _); exact (quieter_refl (Pool.hook s)).
Qed.

Lemma pipeline_perform (toLowerCase : jsstring -> jsstring) (e : Pool.Event)
    (p : Pool.System * gset jsstring) :
  pipelineInvariant p ->
  NoDup (Pool.issued toLowerCase e p.1) ->
  (forall k, k ∈ Pool.issued toLowerCase e p.1 -> k ∉ p.2) ->
  pipelineInvariant (Pool.perform toLowerCase e p.1,
                     list_to_set (Pool.issued toLowerCase e p.1) ∪ p.2).
Proof.
  destruct p as [s used]. cbn [fst snd]. intros Hinv Hnd Hfresh.
  destruct e as [c g i o|createId now rawInput|c|c g|c|];
    cbn [Pool.issued] in *;
    try rewrite list_to_set_nil, (left_id_L ∅ (∪)).
  - now apply pipeline_worker.
  - cbn [Pool.perform].
    pose proof (newRecords_fresh toLowerCase createId now rawInput (Pool.hook s)) as Hq.
    unfold enqueueDomains in *.
    set (toAdd := newRecords toLowerCase createId now rawInput (Pool.hook s)) in *.
    clearbody toAdd.
    pose proof (pipeline_enqueue_list toAdd (Pool.hook s) (Pool.pools s) used) as Hlist.
    assert (Hs : Pool.mkSystem (Pool.hook s) (Pool.pools s) = s) by (now destruct s).
    rewrite Hs in Hlist. specialize (Hlist Hinv Hnd Hfresh Hq).
    destruct toAdd as [|r l];
      (refine (pipeline_mono _ _ _ _ _ _ _ Hlist);
       [done|exact (quieter_refl _)|intros c g i b cand H; exact H]).
  - destruct (control_quiet toLowerCase (Pool.Start c) s I) as [Hq Hat].
    now apply (pipeline_mono s _ used used).
  - destruct (control_quiet toLowerCase (Pool.Finish c g) s I) as [Hq Hat].
    now apply (pipeline_mono s _ used used).
  - destruct (control_quiet toLowerCase (Pool.Stop c) s I) as [Hq Hat].
    now apply (pipeline_mono s _ used used).
  - now apply pipeline_clear.
Qed.

Lemma NoDup_fmap_agree {A B} (f : A -> B) (l : list A) (x y : A) :
  NoDup (f <$> l) -> x ∈ l -> y ∈ l -> f x = f y -> x = y.
Proof.
  intros Hnd Hx Hy Heq.
  apply list_elem_of_lookup_1 in Hx as [i Hi]. apply list_elem_of_lookup_1 in Hy as [j Hj].
  assert (Hij : i = j).
  { apply (NoDup_lookup (f <$> l) i j (f x) Hnd).
    - now rewrite list_lookup_fmap, Hi.
    - now rewrite list_lookup_fmap, Hj, Heq. }
  subst j. congruence.
Qed.

Lemma loadQueue_members (P : DomainRecord -> bool) (items : list DomainRecord)
    (q : list jsstring * gset jsstring) (k : jsstring) :
  k ∈ (fold_left (fun q item => if P item then addToQueue q (id item) else q) items q).2
  <-> k ∈ q.2 \/ exists r, r ∈ items /\ P r = true /\ id r = k.
Proof.
  revert q. induction items as [|item l IH]; intros q; simpl.
  - split; [tauto|]. intros [H|(r & H & _)]; [exact H|]. now apply elem_of_nil in H.
  - rewrite IH. destruct (P item) eqn:HP.
    + rewrite addToQueue_members. split.
      * intros [[->|H]|(r & Hr & H)]; [right; exists item|tauto|right; exists r].
        -- split; [now left|tauto].
        -- split; [now right|tauto].
      * intros [H|(r & Hr & HPr & Hid)]; [tauto|].
        apply elem_of_cons in Hr as [->|Hr]; [left; left; congruence|].
        right. exists r. tauto.
    + split.
      * intros [H|(r & Hr & H)]; [tauto|]. right. exists r. split; [now right|tauto].
      * intros [H|(r & Hr & HPr & Hid)]; [tauto|].
        apply elem_of_cons in Hr as [->|Hr]; [congruence|].
        right. exists r. tauto.
Qed.

Lemma pipeline_initial (p : Pool.System * gset jsstring) :
  Pool.initialUnique p -> pipelineInvariant p.
Proof.
  intros (items & Hnd & ->). unfold pipelineInvariant. cbn [fst snd Pool.hook Pool.pools].
  assert (Hstored : forall k r, stored k (loadRecords items initialHook) = Some r ->
                      r ∈ items /\ id r = k).
  { intros k r. unfold stored. simpl.
    destruct (buildIndex items !! k) as [idx|] eqn:E; [|discriminate]. simpl. intros Hr.
    destruct (buildIndex_lookup items k idx E) as (r' & Hr' & Hid).
    assert (r' = r) by congruence. subst r'.
    split; [now apply list_elem_of_lookup_2 in Hr|exact Hid]. }
  assert (Hnone : forall c g i w,
            ~ workerAt (Pool.mkSystem (loadRecords items initialHook) (mkPer [] []))
                c g i w).
  { intros c g i w (pool & Hg & _). destruct c; discriminate. }
  assert (Hidle : forall c cand,
            ~ looksUp c (Pool.mkSystem (loadRecords items initialHook) (mkPer [] [])) cand).
  { intros c cand (g & i & b & H). now apply Hnone in H. }
  split; [apply loadRecords_invariant|].
  split; [split|split; [|split; [|split; [|split]]]].
  - intros k r Hk Hs. simpl in Hk. apply loadQueue_members in Hk as [Hk|(r' & Hr' & HP & Hid)].
    + now apply not_elem_of_empty in Hk.
    + destruct (Hstored k r Hs) as [Hr Hidr].
      assert (r' = r) by (apply (NoDup_fmap_agree id items); congruence).
      subst r'. now apply bool_decide_eq_true in HP.
  - intros k r Hk Hs. simpl in Hk. apply loadQueue_members in Hk as [Hk|(r' & Hr' & HP & Hid)].
    + now apply not_elem_of_empty in Hk.
    + destruct (Hstored k r Hs) as [Hr Hidr].
      assert (r' = r) by (apply (NoDup_fmap_agree id items); congruence).
      now subst r'.
  - intros k H. apply elem_of_list_to_set, list_elem_of_fmap.
    destruct H as [H|[H|[H|H]]].
    + destruct H as [idx H]. destruct (buildIndex_lookup items k idx H) as (r & Hr & Hid).
      exists r. split; [congruence|now apply list_elem_of_lookup_2 in Hr].
    + simpl in H. apply loadQueue_members in H as [H|(r & Hr & _ & Hid)].
      * now apply not_elem_of_empty in H.
      * exists r. split; [congruence|exact Hr].
    + simpl in H. apply loadQueue_members in H as [H|(r & Hr & _ & Hid)].
      * now apply not_elem_of_empty in H.
      * exists r. split; [congruence|exact Hr].
    + destruct H as (c & cand & _ & H). now apply Hidle in H.
  - intros k (c & cand & _ & H). now apply Hidle in H.
  - intros c g i b cand c' g' i' b' cand' H. now apply Hnone in H.
  - intros cand H. now apply Hidle in H.
  - intros cand H. now apply Hidle in H.
Qed.

Lemma pipeline_reachable (toLowerCase : jsstring -> jsstring)
    (p : Pool.System * gset jsstring) :
  Pool.reachableUnique toLowerCase p -> pipelineInvariant p.
Proof.
  intros (p0 & Hinit & Hsteps). apply pipeline_initial in Hinit.
  induction Hsteps as [|x y z Hstep _ IH]; [exact Hinit|].
  apply IH. destruct Hstep as (e & Hen & Hnd & Hfresh & ->).
  unfold Pool.performUnique. now apply pipeline_perform.
Qed.

(** ** Keys that are never looked up again *)

(** A step that leaves key [x] alone. *)
Lemma settled_step (x : jsstring) (final : DomainRecord) (s s' : Pool.System)
    (used used' : gset jsstring) :
  used ⊆ used' ->
  (forall c candidate, looksUp c s' candidate -> looksUp c s candidate \/ id candidate <> x) ->
  (x ∉ dnsQueueSetRef (Pool.hook s) -> x ∉ dnsQueueSetRef (Pool.hook s')) ->
  (x ∉ rdapQueueSetRef (Pool.hook s) -> x ∉ rdapQueueSetRef (Pool.hook s')) ->
  (stored x (Pool.hook s') = stored x (Pool.hook s) \/ stored x (Pool.hook s') = None) ->
  settled x final (s, used) -> settled x final (s', used').
Proof.
  intros Hsub Hlu Hd Hr Hs (H1 & H2 & H3 & H4 & H5). unfold settled. cbn [fst snd] in *.
  split; [now apply Hsub|]. split; [now apply Hd|]. split; [now apply Hr|].
  split.
  - intros (c & cand & Hid & H). destruct (Hlu c cand H) as [H'|H']; [|contradiction].
    apply H4. now exists c, cand.
  - intros r Hr'. destruct Hs as [Hs|Hs]; rewrite Hs in Hr'; [now apply H5|discriminate].
Qed.

Lemma quieter_keeps (x : jsstring) (st st' : HookState) :
  quieter st st' ->
  (x ∉ dnsQueueSetRef st -> x ∉ dnsQueueSetRef st')
  /\ (x ∉ rdapQueueSetRef st -> x ∉ rdapQueueSetRef st')
  /\ stored x st' = stored x st.
Proof.
  intros Hq. pose proof (stored_quieter st st' x Hq) as Hs.
  destruct Hq as (_ & _ & Hd & Hr). split; [|split; [|exact Hs]].
  - intros H Hin. now apply H, Hd.
  - intros H Hin. now apply H, Hr.
Qed.

Lemma upsertOne_keeps (x : jsstring) (st : HookState) (item : DomainRecord) :
  coherent st -> x <> id item ->
  (x ∉ dnsQueueSetRef st -> x ∉ dnsQueueSetRef (upsertOne st item))
  /\ (x ∉ rdapQueueSetRef st -> x ∉ rdapQueueSetRef (upsertOne st item))
  /\ stored x (upsertOne st item) = stored x st.
Proof.
  intros Hc Hne. destruct (upsertOne_untouched st item x Hc Hne) as (Hs & Hd & Hr).
  rewrite Hd, Hr. tauto.
Qed.

Lemma upsertRecords_keeps (x : jsstring) (items : list DomainRecord) (st : HookState) :
  coherent st -> (forall r, r ∈ items -> id r <> x) ->
  (x ∉ dnsQueueSetRef st -> x ∉ dnsQueueSetRef (upsertRecords items st))
  /\ (x ∉ rdapQueueSetRef st -> x ∉ rdapQueueSetRef (upsertRecords items st))
  /\ stored x (upsertRecords items st) = stored x st.
Proof.
  unfold upsertRecords. revert st.
  induction items as [|item l IH]; intros st Hc Hne; cbn [fold_left]; [tauto|].
  assert (Hx : x <> id item) by (intros ->; apply (Hne item); [now left|reflexivity]).
  destruct (upsertOne_keeps x st item Hc Hx) as (H1 & H2 & H3).
  destruct (IH (upsertOne st item)) as (H4 & H5 & H6).
  { now apply coherent_upsertOne. }
  { intros r Hr. apply Hne. now right. }
  rewrite H6, H3. split; [|split]; auto.
Qed.

(** The lookups that remain after worker [i] of call [g] of checker [c]
    has written the result of its own: they are for other keys. *)
Lemma write_lookups (c c' : Checker) (g i b n' : nat) (candidate candidate' : DomainRecord)
    (st' : HookState) (s : Pool.System) (used : gset jsstring) (pool : Pool.PoolState) :
  pipelineInvariant (s, used) ->
  get c (Pool.pools s) !! g = Some pool ->
  Pool.workers pool !! i = Some (Pool.Holding b candidate) ->
  looksUp c'
    (Pool.mkSystem st'
       (set c (<[g := Pool.mkPool (<[i := Pool.Written b candidate]> (Pool.workers pool)) n']>
                 (get c (Pool.pools s)))
            (Pool.pools s)))
    candidate' ->
  looksUp c' s candidate' /\ id candidate' <> id candidate.
Proof.
  intros (_ & _ & _ & _ & Hx & _) Hg Hw (g' & i' & b' & H). cbn [fst snd] in *.
  assert (Hat : workerAt s c g i (Pool.Holding b candidate)) by (now exists pool).
  apply (workerAt_update s c g i pool _ _ n' st' c' g' i' _ Hg Hw) in H
    as [(_ & _ & _ & H)|[Hne H]]; [discriminate|].
  split; [now exists g', i', b'|].
  intros Heq. apply Hne.
  now apply (Hx c' g' i' b' candidate' c g i b candidate).
Qed.

Lemma settled_worker (x : jsstring) (final : DomainRecord) (c : Checker) (g i : nat)
    (o : Pool.Oracle) (s : Pool.System) (used : gset jsstring) :
  pipelineInvariant (s, used) ->
  settled x final (s, used) -> settled x final (Pool.runWorker c g i o s, used).
Proof.
  intros Hinv Hset. pose proof Hinv as (Hc & _ & _ & _ & _ & _).
  pose proof Hset as (_ & Hxd & Hxr & Hxb & _). cbn [fst snd] in *.
  destruct (get c (Pool.pools s) !! g) as [pool|] eqn:Hg;
    [|unfold Pool.runWorker; now rewrite Hg].
  destruct (Pool.workers pool !! i) as [w|] eqn:Hw;
    [|unfold Pool.runWorker; now rewrite Hg, Hw].
  rewrite (runWorker_unfold c g i o s pool w Hg Hw).
  pose proof (workerStep_effect c o w (Pool.processedCount pool) (Pool.hook s) Hc) as Heff.
  destruct (Pool.workerStep c o w _ (Pool.hook s)) as [[w' n'] st'].
  destruct Heff as [w' st' Hnot Hq|b cand st1 Hnot Hq Hin Hs Hgone|b cand item -> Hid Hst].
  - destruct (quieter_keeps x _ _ Hq) as (H1 & H2 & H3).
    apply (settled_step x final s _ used used); try done; [|now left].
    intros c' cand (g' & i' & b & H). left.
    apply (workerAt_update s c g i pool w w' n' st' c' g' i' _ Hg Hw) in H
      as [(_ & _ & _ & H)|[_ H]]; [|now exists g', i', b].
    symmetry in H. now apply Hnot in H.
  - assert (Hne : x <> id cand).
    { intros ->. destruct c; simpl in Hin; contradiction. }
    destruct (quieter_keeps x _ _ Hq) as (H1 & H2 & H3).
    assert (Hc1 : coherent st1) by (now apply (coherent_quieter (Pool.hook s))).
    apply (settled_step x final s _ used used); try done.
    + intros c' cand' (g' & i' & b' & H).
      apply (workerAt_update s c g i pool w _ n' _ c' g' i' _ Hg Hw) in H
        as [(_ & _ & _ & H)|[_ H]].
      * right. injection H as _ ->. congruence.
      * left. now exists g', i', b'.
    + cbn [Pool.hook]. destruct c; [|exact H1].
      intros H. now apply upsertOne_keeps, H1.
    + cbn [Pool.hook]. destruct c; [|exact H2].
      intros H. now apply upsertOne_keeps, H2.
    + cbn [Pool.hook]. left. destruct c; [|exact H3].
      destruct (upsertOne_keeps x st1 (withStatus Checking cand) Hc1 Hne) as (_ & _ & H).
      now rewrite H.
  - assert (Hne : x <> id item).
    { rewrite Hid. intros ->. apply Hxb. exists c, cand. split; [reflexivity|].
      exists g, i, b. now exists pool. }
    destruct (upsertOne_keeps x (Pool.hook s) item Hc Hne) as (H1 & H2 & H3).
    apply (settled_step x final s _ used used); try done; [|now left].
    intros c' cand' H. left.
    now apply (write_lookups c c' g i b n' cand cand' (upsertOne (Pool.hook s) item)
                 s used pool).
Qed.

Lemma settled_perform (toLowerCase : jsstring -> jsstring) (x : jsstring)
    (final : DomainRecord) (e : Pool.Event) (p : Pool.System * gset jsstring) :
  pipelineInvariant p ->
  (forall k, k ∈ Pool.issued toLowerCase e p.1 -> k ∉ p.2) ->
  settled x final p -> settled x final (Pool.performUnique toLowerCase e p).
Proof.
  destruct p as [s used]. unfold Pool.performUnique. cbn [fst snd].
  intros Hinv Hfresh Hset.
  assert (Hc : coherent (Pool.hook s)) by apply Hinv.
  assert (Hquiet : forall e',
            match e' with
            | Pool.Start _ | Pool.Finish _ _ | Pool.Stop _ => True
            | _ => False
            end ->
            settled x final (Pool.perform toLowerCase e' s, used)).
  { intros e' He'. destruct (control_quiet toLowerCase e' s He') as [Hq Hat].
    destruct (quieter_keeps x _ _ Hq) as (H1 & H2 & H3).
    apply (settled_step x final s _ used used); try done; [|now left].
    intros c' cand (g' & i' & b & H). left. exists g', i', b. now apply Hat. }
  destruct e as [c g i o|createId now rawInput|c|c g|c|].
  - cbn [Pool.issued Pool.perform]. rewrite list_to_set_nil, (left_id_L ∅ (∪)).
    now apply settled_worker.
  - cbn [Pool.issued Pool.perform] in *. unfold enqueueDomains.
    set (toAdd := newRecords toLowerCase createId now rawInput (Pool.hook s)) in *.
    clearbody toAdd.
    assert (Hne : forall r, r ∈ toAdd -> id r <> x).
    { intros r Hr Heq. apply (Hfresh x); [|apply Hset].
      apply list_elem_of_fmap. now exists r. }
    destruct (upsertRecords_keeps x toAdd (Pool.hook s) Hc Hne) as (H1 & H2 & H3).
    apply (settled_step x final s _ used _); [apply union_subseteq_r| | | | |exact Hset].
    + intros c cand H. left. exact H.
    + destruct toAdd; [done|exact H1].
    + destruct toAdd; [done|exact H2].
    + left. destruct toAdd; [done|exact H3].
  - cbn [Pool.issued]. rewrite list_to_set_nil, (left_id_L ∅ (∪)). now apply Hquiet.
  - cbn [Pool.issued]. rewrite list_to_set_nil, (left_id_L ∅ (∪)). now apply Hquiet.
  - cbn [Pool.issued]. rewrite list_to_set_nil, (left_id_L ∅ (∪)). now apply Hquiet.
  - cbn [Pool.issued Pool.perform]. rewrite list_to_set_nil, (left_id_L ∅ (∪)).
    apply (settled_step x final s _ used used); try done.
    + intros c cand H. left. exact H.
    + right. unfold stored. simpl. now rewrite lookup_empty.
Qed.

Lemma settled_forever (toLowerCase : jsstring -> jsstring) (x : jsstring)
    (final : DomainRecord) (p p' : Pool.System * gset jsstring) :
  rtc (Pool.stepUnique toLowerCase) p p' ->
  pipelineInvariant p -> settled x final p ->
  pipelineInvariant p' /\ settled x final p'.
Proof.
  induction 1 as [|p q r Hstep _ IH]; [tauto|].
  intros Hinv Hset. destruct Hstep as (e & Hen & Hnd & Hfresh & ->).
  apply IH.
  - unfold Pool.performUnique. now apply pipeline_perform.
  - now apply settled_perform.
Qed.

(** The step of a worker that holds a candidate: the write of the result
    of its lookup. *)
Lemma runWorker_holding (c : Checker) (g i : nat) (o : Pool.Oracle) (s : Pool.System)
    (b : nat) (candidate : DomainRecord) :
  workerAt s c g i (Pool.Holding b candidate) ->
  exists pool,
    get c (Pool.pools s) !! g = Some pool
    /\ Pool.workers pool !! i = Some (Pool.Holding b candidate)
    /\ Pool.runWorker c g i o s =
       Pool.mkSystem
         (upsertOne (Pool.hook s)
            (processOneLookup c (Pool.clock o) (Pool.dnsFetched o) (Pool.rdapFetched o)
               candidate))
         (set c (<[g := Pool.mkPool (<[i := Pool.Written b candidate]> (Pool.workers pool))
                                    (Pool.processedCount pool)]>
                   (get c (Pool.pools s)))
              (Pool.pools s)).
Proof.
  intros (pool & Hg & Hw). exists pool. split; [exact Hg|]. split; [exact Hw|].
  now rewrite (runWorker_unfold c g i o s pool _ Hg Hw).
Qed.

(** A result that is neither queued nor eligible for the verify stage
    settles its key: from the write on, the key is in neither queue set,
    no worker looks it up, and its record in the store is that result. *)
Lemma write_settles (toLowerCase : jsstring -> jsstring) (s : Pool.System)
    (used : gset jsstring) (c : Checker) (g i before : nat) (candidate : DomainRecord)
    (o : Pool.Oracle) :
  pipelineInvariant (s, used) ->
  workerAt s c g i (Pool.Holding before candidate) ->
  let processed :=
    processOneLookup c (Pool.clock o) (Pool.dnsFetched o) (Pool.rdapFetched o) candidate in
  status processed <> Queued -> isRdapCandidate processed = false ->
  stored (id candidate) (Pool.hook (Pool.runWorker c g i o s)) = Some processed
  /\ forall p', rtc (Pool.stepUnique toLowerCase) (Pool.runWorker c g i o s, used) p' ->
       settled (id candidate) processed p'.
Proof.
  intros Hinv Hat. cbn zeta.
  set (processed := processOneLookup c (Pool.clock o) (Pool.dnsFetched o)
                      (Pool.rdapFetched o) candidate).
  intros Hst Hnot.
  pose proof Hinv as (Hc & Hsound & Hknown & Hbusy & Hx & Havail). cbn [fst snd] in *.
  assert (Hid : id processed = id candidate) by apply processOneLookup_id.
  assert (Hb : busy s (id candidate)) by (now apply (looksUp_busy c s g i before)).
  pose proof (pipeline_worker c g i o s used Hinv) as Hinv1.
  destruct (runWorker_holding c g i o s before candidate Hat) as (pool & Hg & Hw & Hrun).
  rewrite Hrun in *. fold processed in Hinv1 |- *. cbn [Pool.hook].
  assert (Hstored : stored (id candidate) (upsertOne (Pool.hook s) processed)
                    = Some processed).
  { rewrite <- Hid. now apply stored_upsertOne_same. }
  split; [exact Hstored|].
  assert (Hset : settled (id candidate) processed
            (Pool.mkSystem (upsertOne (Pool.hook s) processed)
               (set c (<[g := Pool.mkPool (<[i := Pool.Written before candidate]>
                                             (Pool.workers pool))
                                          (Pool.processedCount pool)]>
                         (get c (Pool.pools s)))
                    (Pool.pools s)), used)).
  { destruct (Hbusy _ Hb) as [Hnd Hnr]. unfold settled. cbn [fst snd Pool.hook].
    split; [apply Hknown; auto|]. split; [|split; [|split]].
    - intros H. apply upsertOne_dns_grows in H as [H|[_ H]]; [contradiction|congruence].
    - intros H. apply upsertOne_rdap_grows in H as [H|[_ H]]; [contradiction|congruence].
    - intros (c' & cand' & Heq & H).
      apply (write_lookups c c' g i before _ candidate cand' _ s used pool Hinv Hg Hw) in H.
      tauto.
    - intros r Hr. congruence. }
  intros p' Hsteps.
  now destruct (settled_forever toLowerCase _ _ _ _ Hsteps Hinv1 Hset).
Qed.

Lemma claimedByDns_reachable :
  Pool.reachableUnique DomainUtils.asciiToLowerCase claimedByDns.
Proof.
  eexists. split.
  - exists [exampleRecord Queued RdapNotChecked]. split; [|reflexivity].
    apply NoDup_singleton.
  - eapply rtc_l.
    { exists (Pool.Start Dns). split; [exact I|]. split; [constructor|].
      split; [|reflexivity]. intros k Hk. now apply elem_of_nil in Hk. }
    eapply rtc_l; [|apply rtc_refl].
    exists (Pool.WorkerStep Dns 0 0 failingOracle).
    split; [eexists; split; [reflexivity|vm_compute; lia]|].
    split; [constructor|]. split; [|reflexivity].
    intros k Hk. now apply elem_of_nil in Hk.
Qed.

Lemma claimedByDns_holding :
  workerAt claimedByDns.1 Dns 0 0
    (Pool.Holding 0 (exampleRecord Queued RdapNotChecked)).
Proof. eexists. split; vm_compute; reflexivity. Qed.

(** C7. A queued item whose resolve-stage lookup is answered with an
    authoritative-positive answer (a numeric [Status] other than 3, 2 and
    5) becomes taken, and its [rdapStatus] is not_checked, as it was when
    the item was queued by [enqueueDomains].  From the
    write of that result on, in every state reached (by the workers of
    every call of both checkers and by enqueue, start, stop and clear
    requests, identifiers being issued once), its record, while in the
    store, is that same record: the item never satisfies the eligibility
    predicate of the verify stage, is never a member of the RDAP queue,
    and is never looked up again. *)
Theorem taken_item_never_verify_eligible
    (toLowerCase : jsstring -> jsstring) (s : Pool.System) (used : gset jsstring)
    (g i before : nat) (candidate : DomainRecord) (o : Pool.Oracle) (code : StatusField) :
  Pool.reachableUnique toLowerCase (s, used) ->
  workerAt s Dns g i (Pool.Holding before candidate) ->
  Pool.dnsFetched o = DnsResponse true (Some code) ->
  authoritativePositive code ->
  let processed :=
    processOneLookup Dns (Pool.clock o) (Pool.dnsFetched o) (Pool.rdapFetched o)
                     candidate in
  status candidate = Queued
  /\ status processed = Taken
  /\ rdapStatus processed = RdapNotChecked
  /\ isRdapCandidate processed = false
  /\ stored (id candidate) (Pool.hook (Pool.runWorker Dns g i o s)) = Some processed
  /\ forall p', rtc (Pool.stepUnique toLowerCase) (Pool.runWorker Dns g i o s, used) p' ->
       (forall r, stored (id candidate) (Pool.hook p'.1) = Some r ->
          r = processed /\ isRdapCandidate r = false)
       /\ (id candidate ∉ rdapQueueSetRef (Pool.hook p'.1))
       /\ (forall c candidate', looksUp c p'.1 candidate' -> id candidate' <> id candidate).
Proof.
  intros Hreach Hat Hfetch Hcode. cbn zeta.
  set (processed := processOneLookup Dns (Pool.clock o) (Pool.dnsFetched o)
                      (Pool.rdapFetched o) candidate).
  pose proof (pipeline_reachable _ _ Hreach) as Hinv.
  assert (Hqueued : status candidate = Queued).
  { destruct Hinv as (_ & _ & _ & _ & _ & _ & Hqd). apply Hqd. now exists g, i, before. }
  assert (Hst : status processed = Taken /\ rdapStatus processed = RdapNotChecked).
  { unfold processed. simpl. rewrite Hfetch. now apply runDnsLookup_positive. }
  destruct Hst as [Hst Hrd].
  assert (Hnot : isRdapCandidate processed = false).
  { apply not_candidate_status. congruence. }
  destruct (write_settles toLowerCase s used Dns g i before candidate o Hinv Hat)
    as [Hstored Hever]; [fold processed; congruence|exact Hnot|].
  fold processed in Hstored, Hever.
  split; [exact Hqueued|]. split; [exact Hst|]. split; [exact Hrd|].
  split; [exact Hnot|]. split; [exact Hstored|].
  intros p' Hsteps. destruct (Hever p' Hsteps) as (_ & _ & Hr' & Hb' & Hs').
  split; [|split].
  - intros r Hr. apply Hs' in Hr. subst r. tauto.
  - exact Hr'.
  - intros c cand' H Heq. apply Hb'. now exists c, cand'.
Qed.

Lemma taken_item_never_verify_eligible_witness :
  let o := Pool.mkOracle 9 (DnsResponse true (Some (StatusInteger 0))) RdapFetchThrows in
  status <$> stored (js "id-1") (Pool.hook (Pool.runWorker Dns 0 0 o claimedByDns.1))
  = Some Taken.
Proof.
  cbn zeta.
  pose proof (taken_item_never_verify_eligible DomainUtils.asciiToLowerCase
                claimedByDns.1 claimedByDns.2 0 0 0 (exampleRecord Queued RdapNotChecked)
                (Pool.mkOracle 9 (DnsResponse true (Some (StatusInteger 0)))
                               RdapFetchThrows)
                (StatusInteger 0) claimedByDns_reachable claimedByDns_holding) as H.
  cbn zeta in H. destruct H as (_ & _ & _ & _ & H & _).
  - reflexivity.
  - simpl. lia.
  - change (id (exampleRecord Queued RdapNotChecked)) with (js "id-1") in H.
    now rewrite H.
Defined.

(** X1. A result that is neither queued nor eligible for the verify stage
    is final.  When a worker of either checker, of any call, writes such a
    result (taken or unknown from the DNS lookup, or a result whose RDAP
    answer is available or taken), then in every state reached afterwards
    (by the workers of every call of both checkers and by enqueue, start,
    stop and clear requests, identifiers being issued once) the item is a
    member of neither queue set, no worker has a lookup outstanding for
    it, and its record, while in the store, is the result written. *)
Theorem final_result_is_never_looked_up_again
    (toLowerCase : jsstring -> jsstring) (s : Pool.System) (used : gset jsstring)
    (c : Checker) (g i before : nat) (candidate : DomainRecord) (o : Pool.Oracle) :
  Pool.reachableUnique toLowerCase (s, used) ->
  workerAt s c g i (Pool.Holding before candidate) ->
  let processed :=
    processOneLookup c (Pool.clock o) (Pool.dnsFetched o) (Pool.rdapFetched o) candidate in
  status processed <> Queued ->
  isRdapCandidate processed = false ->
  stored (id candidate) (Pool.hook (Pool.runWorker c g i o s)) = Some processed
  /\ forall p', rtc (Pool.stepUnique toLowerCase) (Pool.runWorker c g i o s, used) p' ->
       (id candidate ∉ dnsQueueSetRef (Pool.hook p'.1))
       /\ (id candidate ∉ rdapQueueSetRef (Pool.hook p'.1))
       /\ (forall c' candidate', looksUp c' p'.1 candidate' -> id candidate' <> id candidate)
       /\ (forall r, stored (id candidate) (Pool.hook p'.1) = Some r -> r = processed).
Proof.
  intros Hreach Hat. cbn zeta. intros Hst Hnot.
  pose proof (pipeline_reachable _ _ Hreach) as Hinv.
  destruct (write_settles toLowerCase s used c g i before candidate o Hinv Hat Hst Hnot)
    as [Hstored Hever].
  split; [exact Hstored|].
  intros p' Hsteps. destruct (Hever p' Hsteps) as (_ & Hd' & Hr' & Hb' & Hs').
  split; [exact Hd'|]. split; [exact Hr'|]. split; [|exact Hs'].
  intros c' cand' H Heq. apply Hb'. now exists c', cand'.
Qed.

Lemma final_result_is_never_looked_up_again_witness :
  stored (js "id-1") (Pool.hook (Pool.runWorker Dns 0 0 failingOracle claimedByDns.1))
  = Some (processOneLookup Dns (Pool.clock failingOracle) (Pool.dnsFetched failingOracle)
            (Pool.rdapFetched failingOracle) (exampleRecord Queued RdapNotChecked)).
Proof.
  pose proof (final_result_is_never_looked_up_again DomainUtils.asciiToLowerCase
                claimedByDns.1 claimedByDns.2 Dns 0 0 0 (exampleRecord Queued RdapNotChecked)
                failingOracle claimedByDns_reachable claimedByDns_holding) as H.
  cbn zeta in H. destruct H as (H & _).
  - vm_compute. discriminate.
  - vm_compute. reflexivity.
  - exact H.
Defined.

(** C8. The code breaks the claim: on the answer NXDOMAIN ([Status] 3)
    the resolve stage itself runs the RDAP lookup and stores its result,
    available, taken or unknown, in [rdapStatus].  In the run
    [claimedByDns] the RDAP checker is never started; when the DNS lookup
    of its record is answered NXDOMAIN and rdap.org answers 404, the write
    of the DNS worker stores the record with [rdapStatus] available. *)
Theorem resolve_stage_sets_rdapStatus :
  let queued := exampleRecord Queued RdapNotChecked in
  let nxdomain := DnsResponse true (Some (StatusInteger 3)) in
  rdapStatus (processOneLookup Dns 9 nxdomain (RdapResponse 404) queued) = RdapAvailable
  /\ rdapStatus (processOneLookup Dns 9 nxdomain (RdapResponse 200) queued) = RdapTaken
  /\ rdapStatus (processOneLookup Dns 9 nxdomain RdapFetchThrows queued) = RdapUnknown
  /\ (let written :=
        Pool.runWorker Dns 0 0 (Pool.mkOracle 9 nxdomain (RdapResponse 404))
                       claimedByDns.1 in
      rdap (Pool.pools written) = []
      /\ rdapStatus <$> stored (js "id-1") (Pool.hook written) = Some RdapAvailable).
Proof.
  cbn zeta. split; [reflexivity|]. split; [reflexivity|]. split; [reflexivity|].
  split; vm_compute; reflexivity.
Qed.

(** ** Failed lookups *)








(** X2. In every state reached (by the workers of every call of both
    checkers and by enqueue, start, stop and clear requests, identifiers
    being issued once), [popCandidate] hands out eligible records only: a
    queued record to the DNS checker, and to the RDAP checker an available
    record whose RDAP status is not final. *)
Theorem popCandidate_returns_eligible
    (toLowerCase : jsstring -> jsstring) (s : Pool.System) (used : gset jsstring)
    (r : DomainRecord) :
  Pool.reachableUnique toLowerCase (s, used) ->
  ((popCandidate Dns (Pool.hook s)).1 = Some r -> status r = Queued)
  /\ ((popCandidate Rdap (Pool.hook s)).1 = Some r ->
      status r = Available /\ rdapStatus r ∉ rdapFinalStatuses).
Proof.
  intros (Hc & [HS1 HS2] & _)%pipeline_reachable. cbn [fst snd] in *.
  split; intros Hpop.
  - destruct (popCandidate_found Dns _ r Hc Hpop) as (Hin & _ & Hs & _).
    now apply (HS1 (id r)).
  - destruct (popCandidate_found Rdap _ r Hc Hpop) as (Hin & _ & Hs & _).
    pose proof (HS2 (id r) r Hin Hs) as Hcand. split; [now apply candidate_status|].
    unfold isRdapCandidate in Hcand. apply andb_prop in Hcand as [_ Hcand].
    apply negb_true_iff, bool_decide_eq_false in Hcand. exact Hcand.
Qed.

Lemma popCandidate_returns_eligible_witness :
  let queued := exampleRecord Queued RdapNotChecked in
  let st := loadRecords [queued] initialHook in
  (popCandidate Dns st).1 = Some queued /\ status queued = Queued.
Proof.
  cbn zeta. split; [vm_compute; reflexivity|].
  apply (popCandidate_returns_eligible DomainUtils.asciiToLowerCase
           (Pool.mkSystem (loadRecords [exampleRecord Queued RdapNotChecked] initialHook)
                          (mkPer [] []))
           (list_to_set (id <$> [exampleRecord Queued RdapNotChecked]))
           (exampleRecord Queued RdapNotChecked)).
  - eexists. split; [|apply rtc_refl].
    exists [exampleRecord Queued RdapNotChecked]. split; [apply NoDup_singleton|reflexivity].
  - vm_compute. reflexivity.
Defined.

(** X3. In every state reached (by the workers of every call of both
    checkers and by enqueue, start, stop and clear requests, identifiers
    being issued once), no two workers, of whatever checker and call, have
    a lookup outstanding for the same key; a key with an outstanding
    lookup is a member of neither queue set; the RDAP checker only looks
    up available items and the DNS checker only queued ones. *)
Theorem stages_work_on_different_keys
    (toLowerCase : jsstring -> jsstring) (s : Pool.System) (used : gset jsstring) :
  Pool.reachableUnique toLowerCase (s, used) ->
  (forall c g i b candidate c' g' i' b' candidate',
      workerAt s c g i (Pool.Holding b candidate) ->
      workerAt s c' g' i' (Pool.Holding b' candidate') ->
      id candidate = id candidate' -> c = c' /\ g = g' /\ i = i')
  /\ (forall c candidate, looksUp c s candidate ->
        (id candidate ∉ dnsQueueSetRef (Pool.hook s))
        /\ (id candidate ∉ rdapQueueSetRef (Pool.hook s)))
  /\ (forall candidate, looksUp Rdap s candidate -> status candidate = Available)
  /\ (forall candidate, looksUp Dns s candidate -> status candidate = Queued).
Proof.
  intros (_ & _ & _ & Hbusy & Hx & Havail & Hqd)%pipeline_reachable. cbn [fst snd] in *.
  split; [exact Hx|]. split; [|split; [exact Havail|exact Hqd]].
  intros c cand H. apply Hbusy. now exists c, cand.
Qed.

Lemma stages_work_on_different_keys_witness :
  js "id-1" ∉ dnsQueueSetRef (Pool.hook claimedByDns.1).
Proof.
  destruct (stages_work_on_different_keys DomainUtils.asciiToLowerCase
              claimedByDns.1 claimedByDns.2 claimedByDns_reachable) as (_ & H & _).
  apply (H Dns (exampleRecord Queued RdapNotChecked)).
  exists 0%nat, 0%nat, 0%nat. exact claimedByDns_holding.
Defined.

(** ** More on the lookups *)

Lemma runDnsLookup_status_available now df rf (r : DomainRecord) :
  status (runDnsLookup now df rf r) = Available <->
  df = DnsResponse true (Some (StatusInteger 3)).
Proof.
  destruct (decide (df = DnsResponse true (Some (StatusInteger 3)))) as [->|Hne].
  - split; reflexivity.
  - split; [|contradiction]. unfold runDnsLookup.
    case_lookup; try discriminate; try congruence.
Qed.

Lemma runDnsLookup_ignores_rdap now df rf rf' (r : DomainRecord) :
  df <> DnsResponse true (Some (StatusInteger 3)) ->
  runDnsLookup now df rf r = runDnsLookup now df rf' r.
Proof.
  intros Hne. unfold runDnsLookup. case_lookup; try reflexivity; congruence.
Qed.

(** X4. The DNS lookup always settles the record it is given: whatever the
    network does, the result has one of the statuses available, taken and
    unknown (never queued or checking), the identifier, the domain, the
    core, the creation time and the source of the record, and the time of
    the lookup in [checkedAt].  The status is available exactly for the
    answer NXDOMAIN, and for every other answer the result does not depend
    on the RDAP service. *)
Theorem runDnsLookup_settles_record
    (now : Z) (dnsFetched : DnsFetch) (rdapFetched rdapFetched' : RdapFetch)
    (record : DomainRecord) :
  let next := runDnsLookup now dnsFetched rdapFetched record in
  (status next = Available \/ status next = Taken \/ status next = Unknown)
  /\ id next = id record /\ domain next = domain record /\ core next = core record
  /\ createdAt next = createdAt record /\ source next = source record
  /\ checkedAt next = Some now
  /\ (status next = Available <->
      dnsFetched = DnsResponse true (Some (StatusInteger 3)))
  /\ (dnsFetched <> DnsResponse true (Some (StatusInteger 3)) ->
      runDnsLookup now dnsFetched rdapFetched' record = next).
Proof.
  cbn zeta. split.
  { unfold runDnsLookup. case_lookup; simpl; tauto. }
  split; [apply runDnsLookup_id|].
  split; [unfold runDnsLookup; case_lookup; reflexivity|].
  split; [unfold runDnsLookup; case_lookup; reflexivity|].
  split; [unfold runDnsLookup; case_lookup; reflexivity|].
  split; [unfold runDnsLookup; case_lookup; reflexivity|].
  split; [unfold runDnsLookup; case_lookup; reflexivity|].
  split; [apply runDnsLookup_status_available|].
  intros Hne. now apply runDnsLookup_ignores_rdap.
Qed.

Lemma runDnsLookup_settles_record_witness :
  runDnsLookup 9 DnsFetchThrows (RdapResponse 200) (exampleRecord Queued RdapNotChecked)
  = runDnsLookup 9 DnsFetchThrows RdapFetchThrows (exampleRecord Queued RdapNotChecked).
Proof.
  apply (runDnsLookup_settles_record 9 DnsFetchThrows RdapFetchThrows (RdapResponse 200)
           (exampleRecord Queued RdapNotChecked)).
  discriminate.
Defined.

(** X5. The RDAP lookup answers available exactly for the HTTP status 404,
    taken exactly for a status from 200 to 299, and unknown for every
    other status and for a failed request; it never answers not_checked.
    [runRdapOnly] stores that answer and the time of the lookup and leaves
    the status and every other field of the record as they were. *)
Theorem runRdapLookup_classifies (now : Z) (rdapFetched : RdapFetch)
    (record : DomainRecord) :
  (runRdapLookup rdapFetched = RdapAvailable <-> rdapFetched = RdapResponse 404)
  /\ (runRdapLookup rdapFetched = RdapTaken <->
      exists h, rdapFetched = RdapResponse h /\ 200 <= h <= 299)
  /\ (runRdapLookup rdapFetched = RdapUnknown <->
      rdapFetched = RdapFetchThrows
      \/ exists h, rdapFetched = RdapResponse h /\ h <> 404 /\ ~ (200 <= h <= 299))
  /\ runRdapLookup rdapFetched <> RdapNotChecked
  /\ runRdapOnly now rdapFetched record
     = mkRecord (id record) (domain record) (core record) (status record)
                (runRdapLookup rdapFetched) (createdAt record) (Some now)
                (source record).
Proof.
  assert (Hok : forall h, responseOk h = true <-> 200 <= h <= 299).
  { intros h. unfold responseOk. rewrite andb_true_iff, !Z.leb_le. tauto. }
  split; [|split; [|split; [|split; [apply runRdapLookup_checked|reflexivity]]]].
  - destruct rdapFetched as [|h]; simpl; [split; discriminate|].
    destruct (Z.eqb_spec h 404) as [->|Hne]; [tauto|].
    split; [destruct (responseOk h); discriminate|]. intros [= ->]. contradiction.
  - destruct rdapFetched as [|h]; simpl.
    { split; [discriminate|]. intros (h & ? & _). discriminate. }
    destruct (Z.eqb_spec h 404) as [->|Hne].
    { split; [discriminate|]. intros (h & [= <-] & ?). lia. }
    destruct (responseOk h) eqn:E.
    + split; [|reflexivity]. intros _. exists h. split; [reflexivity|]. now apply Hok.
    + split; [discriminate|]. intros (h' & [= <-] & Hr). apply Hok in Hr. congruence.
  - destruct rdapFetched as [|h]; simpl; [tauto|].
    destruct (Z.eqb_spec h 404) as [->|Hne].
    { split; [discriminate|]. intros [?|(h & [= <-] & ? & _)]; [discriminate|congruence]. }
    destruct (responseOk h) eqn:E.
    + split; [discriminate|]. intros [?|(h' & [= <-] & _ & Hr)]; [discriminate|].
      exfalso. apply Hr. now apply Hok.
    + split; [|reflexivity]. intros _. right. exists h. split; [reflexivity|].
      split; [exact Hne|]. intros Hr. apply Hok in Hr. congruence.
Qed.

(** ** The store as a keyed collection *)

Lemma lastUpdate_cons (k : jsstring) (item : DomainRecord) (l : list DomainRecord) :
  lastUpdate k (item :: l) =
  match lastUpdate k l with
  | Some r => Some r
  | None => if decide (id item = k) then Some item else None
  end.
Proof.
  unfold lastUpdate. destruct (decide (id item = k)) as [Heq|Hne].
  - rewrite filter_cons_True by exact Heq.
    destruct (filter (fun r => id r = k) l) as [|x t] eqn:E; [reflexivity|].
    rewrite last_cons. now destruct (last (x :: t)).
  - rewrite filter_cons_False by exact Hne. now destruct (last _).
Qed.

Lemma stored_upsertRecords (updates : list DomainRecord) (st : HookState) (k : jsstring) :
  coherent st ->
  stored k (upsertRecords updates st) =
  match lastUpdate k updates with
  | Some r => Some r
  | None => stored k st
  end.
Proof.
  unfold upsertRecords. revert st.
  induction updates as [|item l IH]; intros st Hc; cbn [fold_left]; [reflexivity|].
  rewrite IH by (now apply coherent_upsertOne). rewrite lastUpdate_cons.
  destruct (lastUpdate k l); [reflexivity|].
  destruct (decide (id item = k)) as [<-|Hne].
  - now apply stored_upsertOne_same.
  - apply stored_upsertOne_other; [exact Hc|congruence].
Qed.

Lemma index_stable_upsertOne (st : HookState) (item : DomainRecord) (k : jsstring)
    (idx : nat) :
  indexRef st !! k = Some idx -> indexRef (upsertOne st item) !! k = Some idx.
Proof.
  intros H. rewrite upsertOne_index.
  destruct (indexRef st !! id item) eqn:E; [exact H|].
  rewrite lookup_insert_ne; [exact H|]. intros <-. congruence.
Qed.

Lemma length_upsertOne (st : HookState) (item : DomainRecord) :
  (length (recordsRef st) <= length (recordsRef (upsertOne st item)))%nat.
Proof.
  rewrite upsertOne_records. destruct (indexRef st !! id item).
  - now rewrite length_insert.
  - rewrite length_app. simpl. lia.
Qed.

Lemma upsertRecords_stable (updates : list DomainRecord) (st : HookState) :
  (forall k idx, indexRef st !! k = Some idx ->
     indexRef (upsertRecords updates st) !! k = Some idx)
  /\ (length (recordsRef st) <= length (recordsRef (upsertRecords updates st)))%nat.
Proof.
  unfold upsertRecords. revert st.
  induction updates as [|item l IH]; intros st; cbn [fold_left]; [split; [tauto|lia]|].
  destruct (IH (upsertOne st item)) as [H1 H2]. split.
  - intros k idx H. now apply H1, index_stable_upsertOne.
  - etrans; [apply length_upsertOne|exact H2].
Qed.

(** X6. A batch upsert is a keyed write in which the last update of a key
    wins: after [upsertRecords updates] the store holds, for every key, the
    last record of [updates] with that key, and what it held before when
    the batch has none.  No key ever changes its position in the array,
    and the array never gets shorter. *)
Theorem upsert_last_write_wins
    (updates : list DomainRecord) (st : HookState) (k : jsstring) :
  coherent st ->
  stored k (upsertRecords updates st) =
    match lastUpdate k updates with
    | Some r => Some r
    | None => stored k st
    end
  /\ (forall idx, indexRef st !! k = Some idx ->
        indexRef (upsertRecords updates st) !! k = Some idx)
  /\ (length (recordsRef st) <= length (recordsRef (upsertRecords updates st)))%nat
  /\ coherent (upsertRecords updates st).
Proof.
  intros Hc. split; [now apply stored_upsertRecords|].
  destruct (upsertRecords_stable updates st) as [H1 H2].
  split; [intros idx; apply H1|]. split; [exact H2|].
  now apply coherent_upsertRecords.
Qed.

Lemma upsert_last_write_wins_witness :
  stored (js "id-1")
    (upsertRecords [exampleRecord Queued RdapNotChecked;
                    exampleRecord Taken RdapNotChecked] initialHook)
  = Some (exampleRecord Taken RdapNotChecked).
Proof.
  pose proof (upsert_last_write_wins
                [exampleRecord Queued RdapNotChecked; exampleRecord Taken RdapNotChecked]
                initialHook (js "id-1")) as [H _].
  - intros i idx. simpl. rewrite lookup_empty. discriminate.
  - rewrite H. vm_compute. reflexivity.
Defined.

(** ** [deriveCore] and [parseDomainInput] *)

Lemma splitAcc_no_separator (isSep : N -> bool) (current s : jsstring) :
  forallb (fun c => negb (isSep c)) s = true ->
  DomainUtils.splitAcc isSep current s = [current ++ s].
Proof.
  revert current. induction s as [|c s IH]; intros current; simpl.
  - now rewrite app_nil_r.
  - intros [Hc Hs]%andb_prop. apply negb_true_iff in Hc. rewrite Hc.
    rewrite IH by exact Hs. now rewrite <- app_assoc.
Qed.

Lemma splitAcc_last_piece (isSep : N -> bool) (current a b : jsstring) (c : N) :
  isSep c = true -> forallb (fun c => negb (isSep c)) b = true ->
  DomainUtils.splitAcc isSep current (a ++ c :: b)
  = DomainUtils.splitAcc isSep current a ++ [b].
Proof.
  intros Hc Hb. revert current. induction a as [|x a IH]; intros current; simpl.
  - rewrite Hc. now rewrite splitAcc_no_separator.
  - destruct (isSep x); [now rewrite IH|apply IH].
Qed.

Lemma splitAcc_nonempty (isSep : N -> bool) (current s : jsstring) :
  DomainUtils.splitAcc isSep current s <> [].
Proof.
  revert current. induction s as [|c s IH]; intros current; simpl; [discriminate|].
  destruct (isSep c); [discriminate|apply IH].
Qed.

(** Splitting at the dots and joining with dots gives the string back. *)
Lemma joinDots_splitAcc (current s : jsstring) :
  DomainUtils.joinDots (DomainUtils.splitAcc isDot current s) = current ++ s.
Proof.
  revert current. induction s as [|c s IH]; intros current; simpl.
  - now rewrite app_nil_r.
  - destruct (isDot c) eqn:Hc.
    + apply N.eqb_eq in Hc. subst c.
      pose proof (splitAcc_nonempty isDot [] s) as Hne.
      specialize (IH []). destruct (DomainUtils.splitAcc isDot [] s) as [|p rest];
        [contradiction|].
      change (DomainUtils.joinDots (current :: p :: rest))
        with (current ++ js "." ++ DomainUtils.joinDots (p :: rest)).
      rewrite IH. reflexivity.
    + rewrite IH. now rewrite <- app_assoc.
Qed.

(** X7. [deriveCore] removes a leading [www.] and then the last label: for
    a domain that is, after the removal of [www.], [core ++ "." ++ tld]
    with no dot in [tld], the result is [core]; a domain that has no dot
    after the removal of [www.] is returned without its [www.].  Splitting
    a string at its dots and joining the pieces with dots gives the string
    back. *)
Theorem deriveCore_drops_last_label (domain core tld : jsstring) :
  let trimmed := if startsWith (js "www.") domain then drop 4 domain else domain in
  (includes 46%N trimmed = false -> DomainUtils.deriveCore domain = trimmed)
  /\ (trimmed = core ++ js "." ++ tld -> includes 46%N tld = false ->
      DomainUtils.deriveCore domain = core)
  /\ DomainUtils.joinDots (DomainUtils.splitOn isDot domain) = domain.
Proof.
  cbn zeta. unfold DomainUtils.deriveCore.
  set (trimmed := if startsWith (js "www.") domain then drop 4 domain else domain).
  assert (Hnodot : forall s, includes 46%N s = false ->
            forallb (fun c => negb (isDot c)) s = true).
  { intros s H. apply forallb_forall. intros c Hc.
    unfold includes in H. apply negb_true_iff. unfold isDot.
    destruct (N.eqb_spec c 46) as [->|]; [|reflexivity].
    assert (existsb (N.eqb 46) s = true); [|congruence].
    apply existsb_exists. exists 46%N. split; [exact Hc|apply N.eqb_refl]. }
  split; [|split].
  - intros H. unfold DomainUtils.splitOn.
    rewrite splitAcc_no_separator by (now apply Hnodot). reflexivity.
  - intros Heq Htld. rewrite Heq. unfold DomainUtils.splitOn.
    change (core ++ js "." ++ tld) with (core ++ 46%N :: tld).
    rewrite splitAcc_last_piece by (try reflexivity; now apply Hnodot).
    pose proof (splitAcc_nonempty isDot [] core) as Hne.
    rewrite length_app. cbn [length].
    rewrite bool_decide_eq_false_2.
    2:{ destruct (DomainUtils.splitAcc isDot [] core); [contradiction|simpl; lia]. }
    replace (length (DomainUtils.splitAcc isDot [] core) + 1 - 1)%nat
      with (length (DomainUtils.splitAcc isDot [] core)) by lia.
    rewrite take_app_length. apply (joinDots_splitAcc [] core).
  - apply (joinDots_splitAcc [] domain).
Qed.

Lemma deriveCore_drops_last_label_witness :
  DomainUtils.deriveCore (js "www.shop.example.com") = js "shop.example".
Proof.
  apply (deriveCore_drops_last_label (js "www.shop.example.com") (js "shop.example")
           (js "com")); reflexivity.
Defined.

Lemma splitAcc_pieces (isSep : N -> bool) (current s : jsstring) :
  forallb (fun c => negb (isSep c)) current = true ->
  Forall (fun piece => forallb (fun c => negb (isSep c)) piece = true)
         (DomainUtils.splitAcc isSep current s).
Proof.
  revert current. induction s as [|c s IH]; intros current Hcur; simpl.
  - now constructor.
  - destruct (isSep c) eqn:Hc.
    + constructor; [exact Hcur|]. now apply IH.
    + apply IH. rewrite forallb_app, Hcur. simpl. now rewrite Hc.
Qed.

Lemma forallb_trim (q : N -> bool) (s : jsstring) :
  forallb q s = true -> forallb q (trim s) = true.
Proof.
  intros H. unfold trim.
  destruct (dropWhileEnd_prefix isWhiteSpace (dropWhile isWhiteSpace s)) as [post Hp].
  pose proof (forallb_dropWhile isWhiteSpace q s H) as Hd.
  rewrite Hp, forallb_app in Hd. now apply andb_prop in Hd as [Hd _].
Qed.

Lemma trim_ends (s : jsstring) (c : N) :
  (head (trim s) = Some c -> isWhiteSpace c = false)
  /\ (last (trim s) = Some c -> isWhiteSpace c = false).
Proof.
  unfold trim. split.
  - intros H%dropWhileEnd_head. now apply dropWhile_head in H.
  - apply dropWhileEnd_last.
Qed.

Lemma trim_trim (s : jsstring) : trim (trim s) = trim s.
Proof.
  unfold trim at 1. rewrite dropWhile_fixed.
  - apply dropWhileEnd_fixed. intros c. apply trim_ends.
  - intros c. apply trim_ends.
Qed.

(** X8. Every entry that [parseDomainInput] returns is non-empty, has no
    white space at either end, and contains neither a comma nor a line
    feed; an input without any other character than commas, line feeds
    and white space gives no entry. *)
Theorem parseDomainInput_entries (raw : jsstring) :
  Forall (fun entry =>
            entry <> []
            /\ trim entry = entry
            /\ forallb (fun c => negb (DomainUtils.isEntrySeparator c)) entry = true)
         (DomainUtils.parseDomainInput raw)
  /\ (forallb (fun c => DomainUtils.isEntrySeparator c || isWhiteSpace c) raw = true ->
      DomainUtils.parseDomainInput raw = []).
Proof.
  unfold DomainUtils.parseDomainInput, DomainUtils.splitOn. split.
  - apply Forall_forall. intros entry Hin.
    apply list_elem_of_In, filter_In in Hin as [Hin Hne].
    apply in_map_iff in Hin as (piece & <- & Hpiece).
    split; [intros Heq; rewrite Heq in Hne; discriminate|].
    split; [apply trim_trim|].
    apply forallb_trim.
    pose proof (splitAcc_pieces DomainUtils.isEntrySeparator [] raw eq_refl) as Hall.
    rewrite Forall_forall in Hall. apply Hall. now apply list_elem_of_In.
  - intros Hraw.
    assert (Hgen : forall current,
              forallb isWhiteSpace current = true ->
              List.filter (fun entry => negb (isEmpty entry))
                (List.map trim (DomainUtils.splitAcc DomainUtils.isEntrySeparator current raw))
              = []).
    { assert (Hblank : forall s, forallb isWhiteSpace s = true -> trim s = []).
      { intros s Hs. unfold trim.
        assert (Hd : dropWhile isWhiteSpace s = []).
        { induction s as [|c s IH]; [reflexivity|]. simpl in *.
          apply andb_prop in Hs as [Hc Hs]. rewrite Hc. now apply IH. }
        now rewrite Hd. }
      induction raw as [|c raw IH]; intros current Hcur; simpl.
      - now rewrite (Hblank current Hcur).
      - simpl in Hraw. apply andb_prop in Hraw as [Hc Hraw].
        destruct (DomainUtils.isEntrySeparator c) eqn:Hsep; simpl.
        + rewrite (Hblank current Hcur). simpl. now apply IH.
        + apply IH; [exact Hraw|]. rewrite forallb_app, Hcur. simpl.
          simpl in Hc. now rewrite Hc. }
    now apply Hgen.
Qed.

(** ** [enqueueDomains] *)

(** The invariant of the loop of [enqueueDomains]: the set [existing] is
    the set of the domains of the store and of the records created so
    far. *)
Lemma enqueueEntry_loop (toLowerCase : jsstring -> jsstring)
    (createId : nat -> jsstring) (now : nat -> Z) (records : list DomainRecord)
    (entries : list jsstring) (acc : gset jsstring * list DomainRecord) :
  (forall d, d ∈ acc.1 <-> d ∈ domain <$> records \/ d ∈ domain <$> acc.2) ->
  Forall (newlyQueued records) acc.2 ->
  NoDup (domain <$> acc.2) ->
  (forall k r, acc.2 !! k = Some r -> id r = createId k /\ createdAt r = now k) ->
  let final := fold_left (enqueueEntry toLowerCase createId now) entries acc in
  (forall d, d ∈ final.1 <-> d ∈ domain <$> records \/ d ∈ domain <$> final.2)
  /\ Forall (newlyQueued records) final.2
  /\ NoDup (domain <$> final.2)
  /\ (forall k r, final.2 !! k = Some r -> id r = createId k /\ createdAt r = now k).
Proof.
  revert acc. induction entries as [|e l IH]; intros acc Hset Hall Hnd Hidx; cbn zeta.
  { simpl. tauto. }
  cbn [fold_left]. apply IH; unfold enqueueEntry;
    destruct (DomainUtils.normalizeDomain toLowerCase e) as [d|] eqn:Hnorm; try assumption;
    destruct (decide (d ∈ acc.1)) as [Hin|Hout]; try assumption; cbn [fst snd].
  - intros d'. rewrite elem_of_union, elem_of_singleton, fmap_app, elem_of_app, Hset.
    simpl. rewrite list_elem_of_singleton. tauto.
  - apply Forall_app. split; [exact Hall|]. constructor; [|constructor].
    unfold newlyQueued. simpl. repeat split; try reflexivity.
    + now apply (normalizeDomain_wellFormed toLowerCase e).
    + now apply (normalizeDomain_wellFormed toLowerCase e).
    + now apply (normalizeDomain_wellFormed toLowerCase e).
    + now apply (normalizeDomain_wellFormed toLowerCase e).
    + now apply (normalizeDomain_wellFormed toLowerCase e).
    + intros Hd. apply Hout, Hset. now left.
  - rewrite fmap_app. apply NoDup_app. split; [exact Hnd|]. split.
    + intros d' Hd' Hd''. simpl in Hd''. apply list_elem_of_singleton in Hd''. subst d'.
      apply Hout, Hset. now right.
    + simpl. apply NoDup_singleton.
  - intros k r Hk. apply lookup_app_Some in Hk as [Hk|[Hlen Hk]]; [now apply Hidx|].
    destruct (k - length acc.2)%nat as [|n] eqn:E; [|now destruct n].
    simpl in Hk. injection Hk as <-. simpl.
    assert (k = length acc.2) by lia. now subst k.
Qed.

Lemma newRecords_spec (toLowerCase : jsstring -> jsstring)
    (createId : nat -> jsstring) (now : nat -> Z) (rawInput : jsstring) (st : HookState) :
  let toAdd := newRecords toLowerCase createId now rawInput st in
  (forall d, d ∈ (fold_left (enqueueEntry toLowerCase createId now)
                    (DomainUtils.parseDomainInput rawInput)
                    (list_to_set (domain <$> recordsRef st), [])).1 <->
             d ∈ domain <$> recordsRef st \/ d ∈ domain <$> toAdd)
  /\ Forall (newlyQueued (recordsRef st)) toAdd
  /\ NoDup (domain <$> toAdd)
  /\ (forall k r, toAdd !! k = Some r -> id r = createId k /\ createdAt r = now k).
Proof.
  apply (enqueueEntry_loop toLowerCase createId now (recordsRef st)
           (DomainUtils.parseDomainInput rawInput)
           (list_to_set (domain <$> recordsRef st), [])); cbn [fst snd].
  - intros d. rewrite elem_of_list_to_set. split; [tauto|].
    intros [H|H]; [exact H|]. now apply elem_of_nil in H.
  - constructor.
  - constructor.
  - intros k r H. discriminate.
Qed.

(** X9. The records that [enqueueDomains] creates are queued and not yet
    checked; their domains are well-formed results of [normalizeDomain],
    pairwise distinct and not in the store yet, with the core derived from
    the domain; the k-th of them has the k-th identifier and the k-th time
    that the call obtained. *)
Theorem enqueue_creates_new_queued_records
    (toLowerCase : jsstring -> jsstring) (createId : nat -> jsstring) (now : nat -> Z)
    (rawInput : jsstring) (st : HookState) :
  let toAdd := newRecords toLowerCase createId now rawInput st in
  Forall (newlyQueued (recordsRef st)) toAdd
  /\ NoDup (domain <$> toAdd)
  /\ (forall k r, toAdd !! k = Some r -> id r = createId k /\ createdAt r = now k)
  /\ enqueueDomains toLowerCase createId now rawInput st =
     match toAdd with
     | [] => withMessage MsgNoNewDomains st
     | _ => withMessage (MsgAdded (length toAdd)) (upsertRecords toAdd st)
     end.
Proof.
  cbn zeta.
  destruct (newRecords_spec toLowerCase createId now rawInput st) as (_ & H1 & H2 & H3).
  repeat split; try assumption; now apply H3.
Qed.

Lemma upsertRecords_appends (items : list DomainRecord) (st : HookState) :
  NoDup (id <$> items) ->
  (forall r, r ∈ items -> indexRef st !! id r = None) ->
  recordsRef (upsertRecords items st) = recordsRef st ++ items.
Proof.
  unfold upsertRecords. revert st.
  induction items as [|item l IH]; intros st Hnd Hfresh; cbn [fold_left].
  - now rewrite app_nil_r.
  - rewrite fmap_cons in Hnd. apply NoDup_cons in Hnd as [Hnot Hnd].
    assert (Hitem : indexRef st !! id item = None) by (apply Hfresh; now left).
    rewrite IH.
    + rewrite upsertOne_records, Hitem, <- app_assoc. reflexivity.
    + exact Hnd.
    + intros r Hr. rewrite upsertOne_index, Hitem.
      rewrite lookup_insert_ne; [apply Hfresh; now right|].
      intros Heq. apply Hnot. rewrite Heq. apply list_elem_of_fmap. now exists r.
Qed.

Lemma enqueueEntry_grows (toLowerCase : jsstring -> jsstring)
    (createId : nat -> jsstring) (now : nat -> Z)
    (entries : list jsstring) (acc : gset jsstring * list DomainRecord) :
  acc.1 ⊆ (fold_left (enqueueEntry toLowerCase createId now) entries acc).1.
Proof.
  revert acc. induction entries as [|e l IH]; intros acc; cbn [fold_left]; [done|].
  etrans; [|apply IH]. unfold enqueueEntry.
  destruct (DomainUtils.normalizeDomain toLowerCase e) as [d|]; [|done].
  destruct (decide (d ∈ acc.1)); [done|]. cbn [fst]. apply union_subseteq_r.
Qed.

(** A second pass over the same entries, with a set that contains the set
    the first pass ended with, creates nothing. *)
Lemma enqueueEntry_second_pass (toLowerCase : jsstring -> jsstring)
    (createId createId' : nat -> jsstring) (now now' : nat -> Z)
    (entries : list jsstring) (acc acc' : gset jsstring * list DomainRecord) :
  (fold_left (enqueueEntry toLowerCase createId now) entries acc).1 ⊆ acc'.1 ->
  fold_left (enqueueEntry toLowerCase createId' now') entries acc' = acc'.
Proof.
  revert acc. induction entries as [|e l IH]; intros acc Hsub; cbn [fold_left] in *;
    [reflexivity|].
  assert (Hstep : enqueueEntry toLowerCase createId' now' acc' e = acc').
  { unfold enqueueEntry.
    destruct (DomainUtils.normalizeDomain toLowerCase e) as [d|] eqn:Hnorm; [|reflexivity].
    rewrite decide_True; [reflexivity|]. apply Hsub.
    apply (enqueueEntry_grows toLowerCase createId now l). unfold enqueueEntry.
    rewrite Hnorm. destruct (decide (d ∈ acc.1)) as [Hin|Hout]; [exact Hin|].
    cbn [fst]. apply elem_of_union_l. now apply elem_of_singleton. }
  rewrite Hstep. now apply (IH (enqueueEntry toLowerCase createId now acc e)).
Qed.

(** X10. Enqueuing is idempotent: when the identifiers of the records
    created by an enqueue are distinct and not yet in the index, the
    records are appended to the store in the order of their creation, and
    enqueuing the same input again creates no record and only sets the
    message. *)
Theorem enqueue_twice_adds_nothing
    (toLowerCase : jsstring -> jsstring) (createId createId' : nat -> jsstring)
    (now now' : nat -> Z) (rawInput : jsstring) (st : HookState) :
  let toAdd := newRecords toLowerCase createId now rawInput st in
  let st' := enqueueDomains toLowerCase createId now rawInput st in
  NoDup (id <$> toAdd) ->
  (forall r, r ∈ toAdd -> indexRef st !! id r = None) ->
  recordsRef st' = recordsRef st ++ toAdd
  /\ newRecords toLowerCase createId' now' rawInput st' = []
  /\ enqueueDomains toLowerCase createId' now' rawInput st'
     = withMessage MsgNoNewDomains st'.
Proof.
  cbn zeta. intros Hnd Hfresh.
  assert (Hrec : recordsRef (enqueueDomains toLowerCase createId now rawInput st)
                 = recordsRef st ++ newRecords toLowerCase createId now rawInput st).
  { unfold enqueueDomains.
    pose proof (upsertRecords_appends _ st Hnd Hfresh) as Happ.
    destruct (newRecords toLowerCase createId now rawInput st) as [|r l].
    - simpl. now rewrite app_nil_r.
    - exact Happ. }
  assert (Hnone : newRecords toLowerCase createId' now' rawInput
                    (enqueueDomains toLowerCase createId now rawInput st) = []).
  { destruct (newRecords_spec toLowerCase createId now rawInput st) as (Hset & _).
    unfold newRecords at 1. rewrite Hrec.
    rewrite (enqueueEntry_second_pass toLowerCase createId createId' now now'
               (DomainUtils.parseDomainInput rawInput)
               (list_to_set (domain <$> recordsRef st), [])); [reflexivity|].
    cbn [fst]. intros d Hd. apply Hset in Hd.
    rewrite elem_of_list_to_set, fmap_app, elem_of_app. exact Hd. }
  split; [exact Hrec|]. split; [exact Hnone|].
  unfold enqueueDomains at 1. now rewrite Hnone.
Qed.

Lemma enqueue_twice_adds_nothing_witness :
  let createId := fun k : nat => js "id-" ++ [N.of_nat k] in
  let st' := enqueueDomains DomainUtils.asciiToLowerCase createId (fun _ => 7)
               (js "a.test, B.test") initialHook in
  newRecords DomainUtils.asciiToLowerCase createId (fun _ => 8) (js "a.test, B.test") st'
  = [].
Proof.
  cbn zeta.
  apply (enqueue_twice_adds_nothing DomainUtils.asciiToLowerCase
           (fun k : nat => js "id-" ++ [N.of_nat k]) (fun k : nat => js "id-" ++ [N.of_nat k])
           (fun _ => 7) (fun _ => 8) (js "a.test, B.test") initialHook).
  - vm_compute. repeat constructor; intros H; repeat (apply elem_of_cons in H as [H|H];
      [discriminate|]); now apply elem_of_nil in H.
  - intros r Hr. simpl. apply lookup_empty.
Defined.

(** ** The order in which [popCandidate] serves a queue *)

Lemma popLoop_skips (inFlight : gset jsstring) (index : gmap jsstring nat)
    (records : list DomainRecord) (queue : list jsstring) (members : gset jsstring) :
  let r := popLoop inFlight index records queue members in
  let skip := fun j => j ∉ members \/ j ∈ inFlight \/ index !! j = None in
  (forall k, k ∈ members -> k ∉ r.2 ->
     index !! k = None \/ exists found, r.1.1 = Some (k, found))
  /\ match r.1.1 with
     | Some (i, _) =>
         ~ skip i /\ exists skipped, queue = skipped ++ i :: r.1.2 /\ Forall skip skipped
     | None => r.1.2 = [] /\ Forall skip queue
     end.
Proof.
  cbn zeta. revert members.
  induction queue as [|j rest IH]; intros members; cbn [popLoop].
  { cbn [fst snd]. split; [intros k H1 H2; contradiction|]. split; [reflexivity|constructor]. }
  destruct (decide (j ∉ members)) as [Hj|Hj].
  { destruct (IH members) as [IH1 IH2]. split; [exact IH1|].
    destruct (popLoop inFlight index records rest members).1.1 as [[i found]|].
    - destruct IH2 as (Hi & skipped & Hrest & Hall). split; [exact Hi|].
      exists (j :: skipped). split; [simpl; f_equal; exact Hrest|]. constructor; [now left|exact Hall].
    - destruct IH2 as [Hq Hall]. split; [exact Hq|]. constructor; [now left|exact Hall]. }
  destruct (decide (j ∈ inFlight)) as [Hf|Hf].
  { destruct (IH members) as [IH1 IH2]. split; [exact IH1|].
    destruct (popLoop inFlight index records rest members).1.1 as [[i found]|].
    - destruct IH2 as (Hi & skipped & Hrest & Hall). split; [exact Hi|].
      exists (j :: skipped). split; [simpl; f_equal; exact Hrest|].
      constructor; [right; now left|exact Hall].
    - destruct IH2 as [Hq Hall]. split; [exact Hq|].
      constructor; [right; now left|exact Hall]. }
  apply dec_stable in Hj.
  destruct (index !! j) as [idx|] eqn:Hidx.
  { cbn [fst snd]. split.
    - intros k Hk Hout. right. exists (records !! idx).
      destruct (decide (k = j)) as [->|Hne]; [reflexivity|].
      exfalso. apply Hout. apply elem_of_difference. split; [exact Hk|].
      now rewrite elem_of_singleton.
    - split.
      + intros [H|[H|H]]; [now apply H|now apply Hf|congruence].
      + exists []. split; [reflexivity|constructor]. }
  destruct (IH (members ∖ {[j]})) as [IH1 IH2].
  assert (Hweak : forall k,
            k ∉ members ∖ {[j]} \/ k ∈ inFlight \/ index !! k = None ->
            k ∉ members \/ k ∈ inFlight \/ index !! k = None).
  { intros k [H|[H|H]]; [|right; now left|right; now right].
    destruct (decide (k = j)) as [->|Hne]; [right; now right|].
    left. intros Hk. apply H. apply elem_of_difference. split; [exact Hk|].
    now rewrite elem_of_singleton. }
  split.
  - intros k Hk Hout. destruct (decide (k = j)) as [->|Hne]; [now left|].
    apply IH1; [|exact Hout]. apply elem_of_difference. split; [exact Hk|].
    now rewrite elem_of_singleton.
  - destruct (popLoop inFlight index records rest (members ∖ {[j]})).1.1 as [[i found]|].
    + destruct IH2 as (Hi & skipped & Hrest & Hall). split.
      * intros H. apply Hi. destruct H as [H|[H|H]]; [|right; now left|right; now right].
        left. intros Hin. apply H. apply elem_of_difference in Hin. tauto.
      * exists (j :: skipped). split; [simpl; f_equal; exact Hrest|].
        constructor; [right; now right|].
        eapply Forall_impl; [exact Hall|]. exact Hweak.
    + destruct IH2 as [Hq Hall]. split; [exact Hq|].
      constructor; [right; now right|].
      eapply Forall_impl; [exact Hall|]. exact Hweak.
Qed.

(** X11. [popCandidate] serves a queue in its order: the record it
    returns is the record stored for the first entry of the queue that is
    a member of the queue set, is not in flight and has an index; the
    entries before it are dropped with it, the entries after it stay in
    the queue in their order, and no key leaves the queue set except the
    returned one and keys without an index. *)
Theorem popCandidate_serves_first_eligible
    (c : Checker) (st : HookState) (r : DomainRecord) :
  coherent st ->
  (popCandidate c st).1 = Some r ->
  stored (id r) st = Some r
  /\ ~ passedOver c st (id r)
  /\ (exists skipped,
        queueOf c st = skipped ++ id r :: queueOf c (popCandidate c st).2
        /\ Forall (passedOver c st) skipped)
  /\ (forall k, k ∈ queueSetOf c st -> k ∉ queueSetOf c (popCandidate c st).2 ->
        k = id r \/ indexRef st !! k = None).
Proof.
  intros Hc Hpop.
  destruct (popCandidate_found c st r Hc Hpop) as (_ & _ & Hstored & _).
  split; [exact Hstored|].
  revert Hpop. rewrite popCandidate_unfold. cbn zeta. cbn [fst snd].
  pose proof (popLoop_skips (get c (inFlightRef st)) (indexRef st) (recordsRef st)
                (queueOf c st) (queueSetOf c st)) as [Hset Hq].
  cbn zeta in Hset, Hq.
  destruct (withQueue_fields c
              (popLoop (get c (inFlightRef st)) (indexRef st) (recordsRef st)
                       (queueOf c st) (queueSetOf c st)).1.2
              (popLoop (get c (inFlightRef st)) (indexRef st) (recordsRef st)
                       (queueOf c st) (queueSetOf c st)).2 st)
    as (_ & _ & _ & _ & _ & _ & _ & Eq & Es).
  rewrite Eq, Es.
  destruct (popLoop (get c (inFlightRef st)) (indexRef st) (recordsRef st)
              (queueOf c st) (queueSetOf c st)).1.1 as [[i found]|] eqn:E;
    [|discriminate].
  simpl. intros ->.
  destruct (popLoop_found _ _ _ _ _ _ _ E) as (_ & _ & (idx & Hidx & Hrec) & _).
  destruct (Hc _ _ Hidx) as (r' & Hr' & Hid).
  assert (r' = r) by congruence. subst r'. subst i.
  destruct Hq as (Hi & skipped & Hqueue & Hall).
  split; [exact Hi|]. split; [now exists skipped|].
  intros k Hk Hout. destruct (Hset k Hk Hout) as [H|[found H]]; [now right|].
  left. congruence.
Qed.

Lemma popCandidate_serves_first_eligible_witness :
  let queued := exampleRecord Queued RdapNotChecked in
  let st := loadRecords [queued] initialHook in
  stored (js "id-1") st = Some queued.
Proof.
  cbn zeta.
  apply (popCandidate_serves_first_eligible Dns
           (loadRecords [exampleRecord Queued RdapNotChecked] initialHook)
           (exampleRecord Queued RdapNotChecked)).
  - exact (proj1 (loadRecords_invariant _ _)).
  - vm_compute. reflexivity.
Defined.

(** X12. When [popCandidate] returns nothing, it has emptied the queue:
    every entry it had was no member of the queue set, in flight or
    without an index, and only keys without an index have left the queue
    set. *)
Theorem popCandidate_none_drains (c : Checker) (st : HookState) :
  coherent st ->
  (popCandidate c st).1 = None ->
  queueOf c (popCandidate c st).2 = []
  /\ Forall (passedOver c st) (queueOf c st)
  /\ (forall k, k ∈ queueSetOf c st -> k ∉ queueSetOf c (popCandidate c st).2 ->
        indexRef st !! k = None).
Proof.
  intros Hc. rewrite popCandidate_unfold. cbn zeta. cbn [fst snd].
  pose proof (popLoop_skips (get c (inFlightRef st)) (indexRef st) (recordsRef st)
                (queueOf c st) (queueSetOf c st)) as [Hset Hq].
  cbn zeta in Hset, Hq.
  destruct (withQueue_fields c
              (popLoop (get c (inFlightRef st)) (indexRef st) (recordsRef st)
                       (queueOf c st) (queueSetOf c st)).1.2
              (popLoop (get c (inFlightRef st)) (indexRef st) (recordsRef st)
                       (queueOf c st) (queueSetOf c st)).2 st)
    as (_ & _ & _ & _ & _ & _ & _ & Eq & Es).
  rewrite Eq, Es.
  destruct (popLoop (get c (inFlightRef st)) (indexRef st) (recordsRef st)
              (queueOf c st) (queueSetOf c st)).1.1 as [[i found]|] eqn:E.
  - destruct (popLoop_found _ _ _ _ _ _ _ E) as (_ & _ & (idx & Hidx & Hrec) & _).
    destruct (Hc _ _ Hidx) as (r' & Hr' & Hid).
    simpl. rewrite Hrec, Hr'. discriminate.
  - intros _. destruct Hq as [Hempty Hall].
    split; [exact Hempty|]. split; [exact Hall|].
    intros k Hk Hout. destruct (Hset k Hk Hout) as [H|[found H]]; [exact H|discriminate].
Qed.

Lemma popCandidate_none_drains_witness :
  let taken := exampleRecord Taken RdapNotChecked in
  queueOf Rdap (popCandidate Rdap (loadRecords [taken] initialHook)).2 = [].
Proof.
  cbn zeta.
  apply (popCandidate_none_drains Rdap
           (loadRecords [exampleRecord Taken RdapNotChecked] initialHook)).
  - exact (proj1 (loadRecords_invariant _ _)).
  - vm_compute. reflexivity.
Defined.

(** ** [normalizeDomain] on addresses *)

Lemma letter_cases c :
  isAsciiLetter c = true -> ((97 <= c <= 122) \/ (65 <= c <= 90))%N.
Proof.
  unfold isAsciiLetter, inRange. intros H.
  apply orb_prop in H as [H|H]; apply andb_prop in H as [H1 H2];
    apply N.leb_le in H1; apply N.leb_le in H2; lia.
Qed.

Lemma letter_not_white c : isAsciiLetter c = true -> isWhiteSpace c = false.
Proof.
  intros H%letter_cases. unfold isWhiteSpace, inRange.
  repeat (apply orb_false_intro);
    try (apply andb_false_iff; rewrite !N.leb_gt; lia);
    try (apply N.eqb_neq; lia).
Qed.

Lemma delimiter_cases c : isDelimiter c = true -> (c = 47 \/ c = 63 \/ c = 35)%N.
Proof.
  unfold isDelimiter. intros H.
  repeat (apply orb_prop in H; destruct H as [H|H]); apply N.eqb_eq in H; lia.
Qed.

Lemma delimiter_not_white c : isDelimiter c = true -> isWhiteSpace c = false.
Proof.
  intros H%delimiter_cases. unfold isWhiteSpace, inRange.
  repeat (apply orb_false_intro);
    try (apply andb_false_iff; rewrite !N.leb_gt; lia);
    try (apply N.eqb_neq; lia).
Qed.

Lemma delimiter_not_letter c : isDelimiter c = true -> isAsciiLetter c = false.
Proof.
  intros H%delimiter_cases. unfold isAsciiLetter, inRange.
  apply orb_false_intro; apply andb_false_iff; rewrite !N.leb_gt; lia.
Qed.

Lemma removeWhiteSpace_app (s t : jsstring) :
  DomainUtils.removeWhiteSpace (s ++ t)
  = DomainUtils.removeWhiteSpace s ++ DomainUtils.removeWhiteSpace t.
Proof. unfold DomainUtils.removeWhiteSpace. apply List.filter_app. Qed.

Lemma removeWhiteSpace_fixed (s : jsstring) :
  forallb (fun c => negb (isWhiteSpace c)) s = true ->
  DomainUtils.removeWhiteSpace s = s.
Proof. apply filter_all. Qed.

Lemma removeWhiteSpace_suffix (s : jsstring) :
  urlSuffix s -> urlSuffix (DomainUtils.removeWhiteSpace s).
Proof.
  intros [->|(d & tail & -> & Hd)]; [now left|]. right.
  exists d, (DomainUtils.removeWhiteSpace tail). split; [|exact Hd].
  unfold DomainUtils.removeWhiteSpace. simpl.
  now rewrite (delimiter_not_white d Hd).
Qed.

Lemma dropWhile_app_stop (p : N -> bool) (s t : jsstring) :
  forallb p s = true -> head t ≫= (fun c => Some (p c)) <> Some true ->
  dropWhile p (s ++ t) = t /\ takeWhile p (s ++ t) = s.
Proof.
  intros Hs Ht. induction s as [|a s IH]; simpl.
  - destruct t as [|c t]; [split; reflexivity|]. simpl in Ht. simpl.
    destruct (p c); [congruence|split; reflexivity].
  - simpl in Hs. apply andb_prop in Hs as [Ha Hs]. rewrite Ha.
    destruct (IH Hs) as [-> ->]. split; reflexivity.
Qed.

(** After a host, and what follows it, no scheme is found. *)
Lemma stripScheme_host (host suffix : jsstring) :
  forallb isDomainChar host = true -> urlSuffix suffix ->
  DomainUtils.stripScheme (host ++ suffix) = host ++ suffix.
Proof.
  intros Hhost Hsuffix. unfold DomainUtils.stripScheme.
  assert (Hhead : head (dropWhile isAsciiLetter (host ++ suffix)) <> Some 58%N).
  { induction host as [|a host IH]; simpl.
    - destruct Hsuffix as [->|(d & tail & -> & Hd)]; [discriminate|].
      simpl. rewrite (delimiter_not_letter d Hd). simpl.
      apply delimiter_cases in Hd. intros [= ->]. lia.
    - simpl in Hhost. apply andb_prop in Hhost as [Ha Hhost].
      destruct (isAsciiLetter a); [now apply IH|]. simpl.
      intros [= ->]. discriminate. }
  destruct (startsWith (js "://") (dropWhile isAsciiLetter (host ++ suffix))) eqn:E.
  - exfalso. apply Hhead. now apply (startsWith_head (js "://")).
  - now rewrite andb_false_r.
Qed.

Lemma stripLeadingSlashes_host (host suffix : jsstring) :
  host <> [] -> forallb isDomainChar host = true ->
  DomainUtils.stripLeadingSlashes (host ++ suffix) = host ++ suffix.
Proof.
  intros Hne Hhost. unfold DomainUtils.stripLeadingSlashes.
  destruct host as [|a host]; [congruence|]. simpl in Hhost.
  apply andb_prop in Hhost as [Ha _].
  destruct (startsWith (js "//") ((a :: host) ++ suffix)) eqn:E; [|reflexivity].
  apply (startsWith_head (js "//") _ 47%N) in E; [|reflexivity].
  simpl in E. injection E as ->. discriminate.
Qed.

(** The three prefixes are removed by [stripScheme] and
    [stripLeadingSlashes]. *)
Lemma strip_prefix (prefix host suffix : jsstring) :
  urlPrefix prefix -> host <> [] -> forallb isDomainChar host = true ->
  urlSuffix suffix ->
  DomainUtils.stripLeadingSlashes (DomainUtils.stripScheme (prefix ++ host ++ suffix))
  = host ++ suffix.
Proof.
  intros [->|[->|(scheme & Hne & Hletters & ->)]] Hhost Hchars Hsuffix.
  - simpl. rewrite stripScheme_host by assumption.
    now apply stripLeadingSlashes_host.
  - reflexivity.
  - rewrite <- app_assoc. unfold DomainUtils.stripScheme.
    destruct (dropWhile_app_stop isAsciiLetter scheme (js "://" ++ host ++ suffix))
      as [-> ->]; [exact Hletters|simpl; discriminate|].
    destruct scheme as [|a scheme]; [congruence|].
    cbn [isEmpty negb andb]. change (startsWith (js "://") (js "://" ++ host ++ suffix))
      with (startsWith [] (host ++ suffix)). cbn [startsWith].
    change (drop 3 (js "://" ++ host ++ suffix)) with (host ++ suffix).
    now apply stripLeadingSlashes_host.
Qed.

Lemma beforeDelimiter_host (host suffix : jsstring) :
  forallb isDomainChar host = true -> urlSuffix suffix ->
  DomainUtils.beforeDelimiter (host ++ suffix) = host.
Proof.
  intros Hhost Hsuffix. unfold DomainUtils.beforeDelimiter.
  apply (dropWhile_app_stop (fun c => negb (isDelimiter c)) host suffix).
  - apply forallb_forall. rewrite forallb_forall in Hhost. intros c Hc.
    now rewrite (domainChar_not_delimiter c (Hhost c Hc)).
  - destruct Hsuffix as [->|(d & tail & -> & Hd)]; [discriminate|].
    simpl. rewrite Hd. discriminate.
Qed.

(** X13. [normalizeDomain] keeps the host of an address: when the trimmed
    and lower-cased input is a host over [[a-z0-9.-]] that neither starts
    nor ends with a dot, possibly after [//] or a scheme with [://], and
    possibly followed by a path, a query or a fragment, the result is that
    host, with [.com] appended when the host has no dot. *)
Theorem normalizeDomain_keeps_host
    (toLowerCase : jsstring -> jsstring) (value prefix host suffix : jsstring) :
  value <> [] ->
  toLowerCase (trim value) = prefix ++ host ++ suffix ->
  urlPrefix prefix -> urlSuffix suffix ->
  host <> [] -> forallb isDomainChar host = true ->
  head host <> Some 46%N -> last host <> Some 46%N ->
  DomainUtils.normalizeDomain toLowerCase value
  = Some (if includes 46%N host then host else host ++ js ".com").
Proof.
  intros Hvalue Hlower Hprefix Hsuffix Hne Hchars Hhead Hlast.
  unfold DomainUtils.normalizeDomain.
  assert (E1 : isEmpty value = false) by (destruct value; [congruence|reflexivity]).
  assert (E2 : isEmpty host = false) by (destruct host; [congruence|reflexivity]).
  assert (E3 : isEmpty (toLowerCase (trim value)) = false).
  { rewrite Hlower. destruct prefix; [|reflexivity].
    destruct host; [congruence|reflexivity]. }
  assert (Hws : DomainUtils.removeWhiteSpace (prefix ++ host ++ suffix)
                = prefix ++ host ++ DomainUtils.removeWhiteSpace suffix).
  { rewrite !removeWhiteSpace_app. f_equal; [|f_equal].
    - apply removeWhiteSpace_fixed.
      destruct Hprefix as [->|[->|(scheme & _ & Hletters & ->)]]; try reflexivity.
      rewrite forallb_app. apply andb_true_intro. split; [|reflexivity].
      apply forallb_forall. rewrite forallb_forall in Hletters. intros c Hc.
      now rewrite (letter_not_white c (Hletters c Hc)).
    - apply removeWhiteSpace_fixed.
      apply forallb_forall. rewrite forallb_forall in Hchars. intros c Hc.
      now rewrite (domainChar_not_white c (Hchars c Hc)). }
  assert (Hdots : DomainUtils.stripDots host = host).
  { unfold DomainUtils.stripDots. rewrite (dropWhile_fixed isDot host).
    - apply dropWhileEnd_fixed. intros c Hc. unfold isDot.
      apply N.eqb_neq. congruence.
    - intros c Hc. unfold isDot. apply N.eqb_neq. congruence. }
  rewrite E1, E3, Hlower, Hws.
  rewrite (strip_prefix prefix host _ Hprefix Hne Hchars
             (removeWhiteSpace_suffix _ Hsuffix)).
  rewrite (beforeDelimiter_host host _ Hchars (removeWhiteSpace_suffix _ Hsuffix)).
  rewrite Hdots, E2. unfold DomainUtils.testDomain.
  destruct (includes 46%N host).
  - now rewrite E2, Hchars.
  - rewrite forallb_app, Hchars. destruct host; [congruence|reflexivity].
Qed.

Lemma normalizeDomain_keeps_host_witness :
  DomainUtils.normalizeDomain DomainUtils.asciiToLowerCase
    (js " HTTPS://Example.org/a path?q=1 ")
  = Some (js "example.org").
Proof.
  apply (normalizeDomain_keeps_host DomainUtils.asciiToLowerCase
           (js " HTTPS://Example.org/a path?q=1 ")
           (js "https://") (js "example.org") (js "/a path?q=1")).
  - discriminate.
  - vm_compute. reflexivity.
  - right. right. exists (js "https"). split; [discriminate|]. split; reflexivity.
  - right. exists 47%N, (js "a path?q=1"). split; reflexivity.
  - discriminate.
  - reflexivity.
  - discriminate.
  - vm_compute. discriminate.
Defined.

(** ** The two revisions of [upsertRecords] *)

Lemma indexComplete_upsertOne (st : HookState) (item : DomainRecord) :
  indexComplete st -> indexComplete (upsertOne st item).
Proof.
  intros Hi idx r. rewrite upsertOne_records, upsertOne_index.
  destruct (indexRef st !! id item) as [k|] eqn:E.
  - destruct (decide (idx = k)) as [->|Hne].
    + intros H. apply list_lookup_insert_Some in H as [(_ & <- & _)|[? _]];
        [exact E|congruence].
    + rewrite list_lookup_insert_ne by congruence. apply Hi.
  - intros H. apply lookup_app_Some in H as [H|[Hlen H]].
    + pose proof (Hi _ _ H) as Hr. rewrite lookup_insert_ne; [exact Hr|congruence].
    + destruct (idx - length (recordsRef st))%nat as [|n] eqn:En; [|now destruct n].
      simpl in H. injection H as <-.
      assert (idx = length (recordsRef st)) by lia. subst idx.
      apply lookup_insert_eq.
Qed.

Lemma indexComplete_upsertRecords (updates : list DomainRecord) (st : HookState) :
  indexComplete st -> indexComplete (upsertRecords updates st).
Proof.
  unfold upsertRecords. revert st.
  induction updates as [|item l IH]; intros st H; cbn [fold_left]; [exact H|].
  apply IH. now apply indexComplete_upsertOne.
Qed.

Lemma indexComplete_NoDup (st : HookState) :
  indexComplete st -> NoDup (id <$> recordsRef st).
Proof.
  intros Hi. apply NoDup_alt. intros i j k Hi' Hj'.
  apply list_lookup_fmap_Some in Hi' as (r & -> & Hr).
  apply list_lookup_fmap_Some in Hj' as (r' & Heq & Hr').
  pose proof (Hi _ _ Hr) as H1. pose proof (Hi _ _ Hr') as H2.
  rewrite Heq in H1. congruence.
Qed.

Lemma mapSet_keys (map : HookV1.JsMap) (key : jsstring) (value : DomainRecord) :
  (HookV1.mapSet map key value).*1
  = if decide (key ∈ map.*1) then map.*1 else map.*1 ++ [key].
Proof.
  unfold HookV1.mapSet. destruct (decide (key ∈ map.*1)).
  - rewrite <- list_fmap_compose. apply list_fmap_ext. intros i [k v] _. simpl.
    destruct (decide (k = key)) as [->|]; reflexivity.
  - now rewrite fmap_app.
Qed.

(** A [Map] built from entries with distinct keys holds the entries in
    their order. *)
Lemma newMap_distinct (entries acc : HookV1.JsMap) :
  NoDup (acc.*1 ++ entries.*1) ->
  fold_left (fun map entry => HookV1.mapSet map entry.1 entry.2) entries acc
  = acc ++ entries.
Proof.
  revert acc. induction entries as [|[k v] l IH]; intros acc Hnd; cbn [fold_left].
  - now rewrite app_nil_r.
  - assert (Hk : k ∉ acc.*1).
    { apply NoDup_app in Hnd as (_ & Hd & _). intros Hin.
      apply (Hd k Hin). rewrite fmap_cons. now left. }
    unfold HookV1.mapSet at 2. cbn [fst snd]. rewrite decide_False by exact Hk.
    rewrite IH.
    + now rewrite <- app_assoc.
    + rewrite fmap_app, <- app_assoc. exact Hnd.
Qed.

Lemma mapSet_upsertOne (st : HookState) (item : DomainRecord) :
  coherent st -> indexComplete st ->
  HookV1.mapSet ((fun r => (id r, r)) <$> recordsRef st) (id item) item
  = (fun r => (id r, r)) <$> recordsRef (upsertOne st item).
Proof.
  intros Hc Hi. rewrite upsertOne_records. unfold HookV1.mapSet.
  assert (Hkeys : ((fun r => (id r, r)) <$> recordsRef st).*1 = id <$> recordsRef st).
  { rewrite <- list_fmap_compose. reflexivity. }
  rewrite Hkeys.
  destruct (indexRef st !! id item) as [k|] eqn:E.
  - destruct (Hc _ _ E) as (r0 & Hr0 & Hid0).
    rewrite decide_True.
    2:{ apply list_elem_of_fmap. exists r0. split; [now symmetry|].
        now apply list_elem_of_lookup_2 with k. }
    rewrite <- list_fmap_compose. apply list_eq. intros i.
    rewrite !list_lookup_fmap.
    destruct (decide (i = k)) as [->|Hne].
    + rewrite list_lookup_insert_eq by (now apply lookup_lt_Some with r0).
      rewrite Hr0. simpl. now rewrite decide_True by exact Hid0.
    + rewrite list_lookup_insert_ne by congruence.
      destruct (recordsRef st !! i) as [r|] eqn:Hr; [|reflexivity]. simpl.
      rewrite decide_False; [reflexivity|].
      intros Heq. pose proof (Hi _ _ Hr) as Hidx. rewrite Heq, E in Hidx. congruence.
  - rewrite decide_False.
    2:{ intros Hin. apply list_elem_of_fmap in Hin as (r & Heq & Hr).
        apply list_elem_of_lookup in Hr as [idx Hr].
        pose proof (Hi _ _ Hr) as Hidx. rewrite <- Heq, E in Hidx. discriminate. }
    now rewrite fmap_app.
Qed.

Lemma count_tally (pred : DomainRecord -> bool) (records : list DomainRecord) :
  HookV1.count pred records = tally pred records.
Proof.
  unfold HookV1.count. induction records as [|r l IH]; [reflexivity|].
  cbn [List.filter tally]. destruct (pred r); [|lia].
  cbn [length]. lia.
Qed.

(** X14. The two revisions of the hook agree on a store in which the
    index and the array describe each other: the array that the queue
    revision's [upsertRecords] leaves in place is the array that the first
    revision builds by merging the updates into a [Map] of the previous
    records; and when the incremental counters were those of the array
    before the write, they are afterwards the counters that the first
    revision computes by filtering. *)
Theorem upsert_agrees_with_map_merge (updates : list DomainRecord) (st : HookState) :
  coherent st -> indexComplete st ->
  let st' := upsertRecords updates st in
  recordsRef st' = HookV1.upsertRecords updates (recordsRef st)
  /\ indexComplete st'
  /\ (statsExact st ->
      queueCount (statsRef st') = HookV1.queueCount (recordsRef st')
      /\ totalAvailable (statsRef st') = HookV1.totalAvailable (recordsRef st')
      /\ totalTaken (statsRef st') = HookV1.totalTaken (recordsRef st')
      /\ totalChecked (statsRef st') = HookV1.totalChecked (recordsRef st')
      /\ takenOverall (statsRef st') = HookV1.takenOverall (recordsRef st')).
Proof.
  intros Hc Hi. cbn zeta. split; [|split].
  - destruct updates as [|u l]; [reflexivity|].
    unfold HookV1.upsertRecords, HookV1.newMap.
    rewrite (newMap_distinct _ []).
    2:{ simpl. rewrite <- list_fmap_compose. now apply indexComplete_NoDup. }
    rewrite app_nil_l.
    assert (Hgen : forall items st0, coherent st0 -> indexComplete st0 ->
              fold_left (fun map item => HookV1.mapSet map (id item) item) items
                        ((fun r => (id r, r)) <$> recordsRef st0)
              = (fun r => (id r, r)) <$> recordsRef (upsertRecords items st0)).
    { unfold upsertRecords. induction items as [|item items IH]; intros st0 Hc0 Hi0;
        cbn [fold_left]; [reflexivity|].
      rewrite (mapSet_upsertOne st0 item Hc0 Hi0).
      apply IH; [now apply coherent_upsertOne|now apply indexComplete_upsertOne]. }
    rewrite (Hgen (u :: l) st Hc Hi), <- list_fmap_compose.
    symmetry. apply list_fmap_id.
  - now apply indexComplete_upsertRecords.
  - intros Hs.
    destruct (upsertRecords_invariant updates st (conj Hc Hs)) as [_ Hs'].
    unfold statsExact in Hs'. rewrite Hs', recomputeStats_tally.
    unfold HookV1.queueCount, HookV1.totalAvailable, HookV1.totalTaken,
      HookV1.totalChecked, HookV1.takenOverall.
    rewrite !count_tally. cbn [queueCount totalAvailable totalTaken totalChecked takenOverall].
    repeat split; reflexivity.
Qed.

Lemma upsert_agrees_with_map_merge_witness :
  let updates := [exampleRecord Taken RdapNotChecked; exampleRecord Unknown RdapNotChecked] in
  let st := loadRecords [exampleRecord Queued RdapNotChecked] initialHook in
  recordsRef (upsertRecords updates st) = HookV1.upsertRecords updates (recordsRef st).
Proof.
  cbn zeta.
  apply (upsert_agrees_with_map_merge
           [exampleRecord Taken RdapNotChecked; exampleRecord Unknown RdapNotChecked]
           (loadRecords [exampleRecord Queued RdapNotChecked] initialHook)).
  - exact (proj1 (loadRecords_invariant _ _)).
  - intros idx r H. destruct idx as [|idx]; [|discriminate].
    injection H as <-. vm_compute. reflexivity.
Defined.

(** ** The table of the page *)

Lemma ceilDiv_bounds (n : Z) :
  0 <= n ->
  let t := DomainCheckerPage.ceilDiv n DomainCheckerPage.PAGE_SIZE in
  n <= 20 * t /\ (0 < n -> 20 * (t - 1) < n) /\ (n = 0 -> t = 0).
Proof.
  intros Hn. cbn zeta. unfold DomainCheckerPage.ceilDiv, DomainCheckerPage.PAGE_SIZE.
  pose proof (Z.div_mod n 20 ltac:(lia)) as Hdiv.
  pose proof (Z.mod_pos_bound n 20 ltac:(lia)) as Hmod.
  destruct (Z.eqb_spec (n mod 20) 0) as [E|E]; lia.
Qed.

Lemma totalPages_bounds (sortedRecords : list DomainRecord) :
  let t := DomainCheckerPage.totalPages sortedRecords in
  let n := Z.of_nat (length sortedRecords) in
  1 <= t /\ n <= 20 * t /\ (0 < n -> 20 * (t - 1) < n).
Proof.
  cbn zeta. unfold DomainCheckerPage.totalPages.
  pose proof (ceilDiv_bounds (Z.of_nat (length sortedRecords)) ltac:(lia)) as H.
  cbn zeta in H. lia.
Qed.

Lemma slice_range {A : Type} (a b : Z) (array : list A) :
  0 <= a <= b ->
  DomainCheckerPage.slice a b array
  = take (Z.to_nat (b - a)) (drop (Z.to_nat a) array).
Proof.
  intros Hab. unfold DomainCheckerPage.slice, DomainCheckerPage.relativeIndex.
  destruct (Z.ltb_spec a 0) as [?|_]; [lia|].
  destruct (Z.ltb_spec b 0) as [?|_]; [lia|].
  destruct (Z.le_gt_cases a (Z.of_nat (length array))) as [Ha|Ha].
  - rewrite (Z.min_l a) by lia.
    destruct (Z.le_gt_cases b (Z.of_nat (length array))) as [Hb|Hb].
    + now rewrite (Z.min_l b) by lia.
    + rewrite (Z.min_r b) by lia.
      rewrite !take_ge; [reflexivity| |]; rewrite length_drop; lia.
  - rewrite (Z.min_r a), (Z.min_r b) by lia.
    rewrite Z.sub_diag. simpl. rewrite take_0.
    rewrite (drop_ge array (Z.to_nat a)) by lia. now rewrite take_nil.
Qed.

Lemma pagedRecords_rows (page : Z) (sortedRecords : list DomainRecord) :
  1 <= page ->
  DomainCheckerPage.pagedRecords page sortedRecords
  = take 20 (drop (Z.to_nat (20 * (DomainCheckerPage.safePage page sortedRecords - 1)))
                  sortedRecords).
Proof.
  intros Hpage. unfold DomainCheckerPage.pagedRecords, DomainCheckerPage.PAGE_SIZE.
  pose proof (totalPages_bounds sortedRecords) as (Ht & _). cbn zeta in Ht.
  assert (Hp : 1 <= DomainCheckerPage.safePage page sortedRecords).
  { unfold DomainCheckerPage.safePage. lia. }
  rewrite slice_range by lia. f_equal; [lia|]. f_equal. lia.
Qed.

Lemma chunks_concat {A : Type} (n : nat) (array : list A) :
  (length array <= 20 * n)%nat ->
  concat ((fun i => take 20 (drop (20 * i) array)) <$> seq 0 n) = array.
Proof.
  revert array. induction n as [|n IH]; intros array Hlen.
  - destruct array; [reflexivity|simpl in Hlen; lia].
  - cbn [seq fmap list_fmap concat]. rewrite Nat.mul_0_r, drop_0.
    rewrite <- fmap_S_seq, <- list_fmap_compose.
    rewrite <- (take_drop 20 array) at 2. f_equal.
    rewrite <- (IH (drop 20 array)) by (rewrite length_drop; lia).
    f_equal. apply list_fmap_ext. intros _ i _. simpl.
    rewrite drop_drop. do 2 f_equal. lia.
Qed.

(** X15. The page shown is always a page that exists: for a page number
    of at least 1 the page shown is between 1 and [totalPages], its rows
    are the at most 20 records that follow the 20 * (page - 1) first ones,
    and when the table has a record the page shown has one too and holds
    the records numbered [showingStart] to [showingEnd]. *)
Theorem shown_page_exists (page : Z) (sortedRecords : list DomainRecord) :
  1 <= page ->
  let p := DomainCheckerPage.safePage page sortedRecords in
  let shown := DomainCheckerPage.pagedRecords page sortedRecords in
  let first := DomainCheckerPage.showingStart page sortedRecords in
  let final := DomainCheckerPage.showingEnd page sortedRecords in
  1 <= p <= DomainCheckerPage.totalPages sortedRecords
  /\ DomainCheckerPage.clampPage page sortedRecords = p
  /\ (length shown <= 20)%nat
  /\ (forall k, (k < 20)%nat ->
        shown !! k = sortedRecords !! (Z.to_nat (20 * (p - 1)) + k)%nat)
  /\ (sortedRecords <> [] ->
      shown <> [] /\ first <= final <= Z.of_nat (length sortedRecords)
      /\ Z.of_nat (length shown) = final - first + 1).
Proof.
  intros Hpage. cbn zeta.
  pose proof (totalPages_bounds sortedRecords) as (Ht & Hn & Hlast). cbn zeta in *.
  rewrite (pagedRecords_rows page sortedRecords Hpage).
  unfold DomainCheckerPage.showingStart, DomainCheckerPage.showingEnd,
    DomainCheckerPage.clampPage, DomainCheckerPage.PAGE_SIZE.
  set (p := DomainCheckerPage.safePage page sortedRecords).
  assert (Hp : 1 <= p <= DomainCheckerPage.totalPages sortedRecords
               /\ p = Z.min page (DomainCheckerPage.totalPages sortedRecords)).
  { unfold p, DomainCheckerPage.safePage. lia. }
  split; [tauto|]. split.
  { destruct (Z.gtb_spec page (DomainCheckerPage.totalPages sortedRecords)); lia. }
  split; [rewrite length_take; lia|]. split.
  { intros k Hk. rewrite lookup_take_lt by exact Hk. now rewrite lookup_drop. }
  intros Hne.
  assert (Hpos : 0 < Z.of_nat (length sortedRecords)).
  { destruct sortedRecords; [congruence|simpl; lia]. }
  specialize (Hlast Hpos).
  assert (Hlen : Z.of_nat (length (take 20 (drop (Z.to_nat (20 * (p - 1))) sortedRecords)))
                 = Z.min (p * 20) (Z.of_nat (length sortedRecords)) - ((p - 1) * 20 + 1) + 1).
  { rewrite length_take, length_drop. lia. }
  split; [|split; [lia|exact Hlen]].
  intros Hnil. rewrite Hnil in Hlen. simpl in Hlen. lia.
Qed.

Lemma shown_page_exists_witness :
  DomainCheckerPage.clampPage 7 [exampleRecord Queued RdapNotChecked] = 1.
Proof.
  destruct (shown_page_exists 7 [exampleRecord Queued RdapNotChecked] ltac:(lia))
    as (_ & H & _).
  exact H.
Defined.

(** X16. The pages partition the table: the pages 1 to [totalPages], one
    after the other, are the sorted records, each record once and in its
    order. *)
Theorem pages_partition_the_table (sortedRecords : list DomainRecord) :
  concat ((fun p : nat => DomainCheckerPage.pagedRecords (Z.of_nat p) sortedRecords)
            <$> seq 1 (Z.to_nat (DomainCheckerPage.totalPages sortedRecords)))
  = sortedRecords.
Proof.
  pose proof (totalPages_bounds sortedRecords) as (Ht & Hn & _). cbn zeta in *.
  rewrite <- fmap_S_seq, <- list_fmap_compose.
  etrans; [|apply (chunks_concat (Z.to_nat (DomainCheckerPage.totalPages sortedRecords))
                     sortedRecords); lia].
  f_equal. apply list_fmap_ext. intros k i Hi.
  apply lookup_seq in Hi as [-> Hk]. simpl plus.
  unfold compose. rewrite pagedRecords_rows by lia.
  unfold DomainCheckerPage.safePage. do 2 f_equal. lia.
Qed.



(** X18. The filters only narrow the table: the records shown are records
    of the store in their order, each of them has the status and the RDAP
    status that are selected and a core whose length is within the bounds
    that are given; bounds that contradict each other show nothing; and
    with every filter in its initial state all records are shown. *)
Theorem filters_narrow_the_table
    (toLowerCase : jsstring -> jsstring) (parseInt : jsstring -> option Z)
    (f : DomainCheckerPage.Filters) (records : list DomainRecord) :
  toLowerCase [] = [] -> parseInt [] = None ->
  let shown := DomainCheckerPage.filteredRecords toLowerCase parseInt f records in
  sublist shown records
  /\ Forall (fun item =>
               (forall s, DomainCheckerPage.statusFilter f = Some s -> status item = s)
               /\ (forall r, DomainCheckerPage.rdapFilter f = Some r -> rdapStatus item = r)
               /\ (forall m, parseInt (DomainCheckerPage.minChars f) = Some m ->
                     m <= Z.of_nat (length (core item)))
               /\ (forall m, parseInt (DomainCheckerPage.maxChars f) = Some m ->
                     Z.of_nat (length (core item)) <= m))
            shown
  /\ (forall lo hi, parseInt (DomainCheckerPage.minChars f) = Some lo ->
        parseInt (DomainCheckerPage.maxChars f) = Some hi -> hi < lo -> shown = [])
  /\ DomainCheckerPage.filteredRecords toLowerCase parseInt
       (DomainCheckerPage.mkFilters None None [] [] []) records = records.
Proof.
  intros Hlower Hparse. cbn zeta. unfold DomainCheckerPage.filteredRecords.
  assert (Hshown : forall item,
            DomainCheckerPage.matches toLowerCase parseInt f item = true ->
            (forall s, DomainCheckerPage.statusFilter f = Some s -> status item = s)
            /\ (forall r, DomainCheckerPage.rdapFilter f = Some r -> rdapStatus item = r)
            /\ (forall m, parseInt (DomainCheckerPage.minChars f) = Some m ->
                  m <= Z.of_nat (length (core item)))
            /\ (forall m, parseInt (DomainCheckerPage.maxChars f) = Some m ->
                  Z.of_nat (length (core item)) <= m)).
  { intros item. unfold DomainCheckerPage.matches. cbn zeta.
    rewrite !andb_true_iff. intros ((((H1 & H2) & _) & H4) & H5).
    split; [|split; [|split]].
    - intros s E. rewrite E in H1. now apply bool_decide_eq_true in H1.
    - intros r E. rewrite E in H2. now apply bool_decide_eq_true in H2.
    - intros m E. rewrite E in H4. apply Z.geb_le in H4. exact H4.
    - intros m E. rewrite E in H5. apply Z.leb_le in H5. exact H5. }
  split; [|split; [|split]].
  - induction records as [|r l IH]; simpl; [constructor|].
    destruct (DomainCheckerPage.matches toLowerCase parseInt f r);
      [now apply sublist_skip|now apply sublist_cons].
  - apply Forall_forall. intros item Hin.
    apply list_elem_of_In, filter_In in Hin as [_ Hm]. now apply Hshown.
  - intros lo hi Hlo Hhi Hcontra.
    induction records as [|r l IH]; simpl; [reflexivity|].
    destruct (DomainCheckerPage.matches toLowerCase parseInt f r) eqn:E; [|exact IH].
    destruct (Hshown r E) as (_ & _ & H4 & H5).
    specialize (H4 lo Hlo). specialize (H5 hi Hhi). lia.
  - induction records as [|r l IH]; simpl; [reflexivity|].
    unfold DomainCheckerPage.matches at 1.
    cbn [DomainCheckerPage.statusFilter DomainCheckerPage.rdapFilter
         DomainCheckerPage.searchTerm DomainCheckerPage.minChars
         DomainCheckerPage.maxChars].
    change (trim []) with (@nil N). rewrite Hlower, Hparse. cbn. now rewrite IH.
Qed.

Lemma filters_narrow_the_table_witness :
  let records := [exampleRecord Queued RdapNotChecked; exampleRecord Taken RdapTaken] in
  DomainCheckerPage.filteredRecords DomainUtils.asciiToLowerCase
    (fun s => if isEmpty s then None else Some 3)
    (DomainCheckerPage.mkFilters None None [] [] []) records = records.
Proof.
  cbn zeta.
  apply (filters_narrow_the_table DomainUtils.asciiToLowerCase
           (fun s => if isEmpty s then None else Some 3)
           (DomainCheckerPage.mkFilters (Some Taken) None (js "a") (js "3") [])
           [exampleRecord Queued RdapNotChecked; exampleRecord Taken RdapTaken]);
    reflexivity.
Defined.

(** ** A pool whose queue and queue set disagree *)




Lemma afterDroppedEntry_reachable :
  Pool.reachable DomainUtils.asciiToLowerCase afterDroppedEntry.
Proof.
  exists (Pool.mkSystem
            (loadRecords [exampleRecord Available RdapNotChecked; otherRecord] initialHook)
            (mkPer [] [])).
  split; [eexists; reflexivity|].
  unfold afterDroppedEntry, droppedEntryRun. cbn [fold_left].
  eapply rtc_l; [exists (Pool.Start Rdap); split; [exact I|reflexivity]|].
  eapply rtc_l; [exists (Pool.WorkerStep Rdap 0 0 failingOracle); split; [eexists; split; [reflexivity|vm_compute; lia]|reflexivity]|].
  eapply rtc_l; [exists (Pool.WorkerStep Rdap 0 1 answeringOracle); split; [eexists; split; [reflexivity|vm_compute; lia]|reflexivity]|].
  eapply rtc_l; [exists (Pool.WorkerStep Rdap 0 1 answeringOracle); split; [eexists; split; [reflexivity|vm_compute; lia]|reflexivity]|].
  eapply rtc_l; [exists (Pool.WorkerStep Rdap 0 0 failingOracle); split; [eexists; split; [reflexivity|vm_compute; lia]|reflexivity]|].
  eapply rtc_l; [exists (Pool.WorkerStep Rdap 0 1 answeringOracle); split; [eexists; split; [reflexivity|vm_compute; lia]|reflexivity]|].
  eapply rtc_l; [exists (Pool.WorkerStep Rdap 0 1 answeringOracle); split; [eexists; split; [reflexivity|vm_compute; lia]|reflexivity]|].
  eapply rtc_l; [exists (Pool.WorkerStep Rdap 0 1 answeringOracle); split; [eexists; split; [reflexivity|vm_compute; lia]|reflexivity]|].
  apply rtc_refl.
Qed.



(** ** The rate limiter of the RDAP lookups *)

Lemma lockInvariant_initial (t : Z) : lockInvariant (RdapLock.initial t).
Proof.
  unfold lockInvariant, RdapLock.initial. cbn.
  repeat split; try reflexivity.
  all: intros; discriminate.
Qed.

Lemma hasReleased_withPhase (c : RdapLock.Call) (ph : RdapLock.CallPhase) :
  hasReleased (RdapLock.withPhase ph c)
  <-> exists started settled, ph = RdapLock.Released started settled.
Proof. reflexivity. Qed.

(** A call that has not released the lock moves on: the requirements on
    its new phase under which the invariant is kept. *)
Lemma lockInvariant_update (s : RdapLock.State) (i : nat) (c : RdapLock.Call)
      (ph : RdapLock.CallPhase) (resolved : list bool) :
  lockInvariant s ->
  RdapLock.calls s !! i = Some c ->
  ~ hasReleased c ->
  length resolved = length (RdapLock.promises s) ->
  resolved !! 0%nat = Some true ->
  (forall j : nat, j <> i -> resolved !! S j = RdapLock.promises s !! S j) ->
  (resolved !! S i = Some true
   <-> exists started settled, ph = RdapLock.Released started settled) ->
  timely (RdapLock.clock s) (RdapLock.withPhase ph c) ->
  (forall t : Z, RdapLock.startedAt (RdapLock.withPhase ph c) = Some t ->
                 predecessorsDone s i t) ->
  lockInvariant
    (RdapLock.mkState resolved (RdapLock.rdapLock s)
                      (<[i := RdapLock.withPhase ph c]> (RdapLock.calls s))
                      (RdapLock.clock s)).
Proof.
  intros (Hlock & Hlen & Hzero & Hcalls & Horder) Hi Hopen Hlen' Hzero' Hother Hown
         Htimes Hstart.
  assert (Hlater : forall (j : nat) (cj : RdapLock.Call) (t : Z),
             (i < j)%nat -> RdapLock.calls s !! j = Some cj ->
             RdapLock.startedAt cj = Some t -> False).
  { intros j cj t Hlt Hj Ht.
    destruct (Horder j cj t Hj Ht i c Hlt Hi) as (a & u & Hph & _).
    apply Hopen. exists a, u. exact Hph. }
  unfold lockInvariant. cbn [RdapLock.rdapLock RdapLock.promises RdapLock.calls RdapLock.clock].
  rewrite length_insert.
  split; [exact Hlock|]. split; [lia|]. split; [exact Hzero'|]. split.
  - intros j cj Hj.
    apply list_lookup_insert_Some in Hj as [(<- & <- & _)|(Hne & Hj)].
    + destruct (Hcalls i c Hi) as (Hprev & Hrel & _ & _).
      split; [exact Hprev|]. split; [exact Hrel|]. split; [|exact Htimes].
      rewrite hasReleased_withPhase. exact Hown.
    + destruct (Hcalls j cj Hj) as (Hprev & Hrel & Hres & Htime).
      split; [exact Hprev|]. split; [exact Hrel|]. split; [|exact Htime].
      rewrite (Hother j); [exact Hres|]. intros ->. apply Hne. reflexivity.
  - intros j cj t Hj Ht h ch Hlt Hh.
    cbn [RdapLock.calls] in Hh.
    apply list_lookup_insert_Some in Hj as [(<- & <- & _)|(Hne & Hj)].
    + apply list_lookup_insert_Some in Hh as [(<- & _ & _)|(_ & Hh)]; [lia|].
      exact (Hstart t Ht h ch Hlt Hh).
    + apply list_lookup_insert_Some in Hh as [(<- & _ & _)|(_ & Hh)].
      * exfalso. exact (Hlater j cj t Hlt Hj Ht).
      * exact (Horder j cj t Hj Ht h ch Hlt Hh).
Qed.

Lemma lockInvariant_perform (e : RdapLock.Event) (s : RdapLock.State) :
  lockInvariant s -> RdapLock.enabled e s -> lockInvariant (RdapLock.perform e s).
Proof.
  intros Hinv Hen.
  pose proof Hinv as (Hlock & Hlen & Hzero & Hcalls & Horder).
  destruct e as [from|i|i|i|d]; cbn [RdapLock.perform].
  - (* Enter *)
    unfold lockInvariant.
    cbn [RdapLock.rdapLock RdapLock.promises RdapLock.calls RdapLock.clock].
    rewrite !length_app. cbn [length].
    split; [lia|]. split; [lia|]. split.
    { rewrite lookup_app_l; [exact Hzero|lia]. }
    split.
    + intros j cj Hj. apply lookup_app_Some in Hj as [Hj|(Hge & Hj)].
      * destruct (Hcalls j cj Hj) as (Hprev & Hrel & Hres & Htime).
        split; [exact Hprev|]. split; [exact Hrel|]. split; [|exact Htime].
        apply lookup_lt_Some in Hj.
        rewrite lookup_app_l; [exact Hres|lia].
      * apply list_lookup_singleton_Some in Hj as [Hj <-].
        cbn [RdapLock.previous RdapLock.release].
        assert (j = length (RdapLock.calls s)) as -> by lia.
        split; [exact Hlock|]. split; [exact Hlen|]. split; [|exact I].
        rewrite <- Hlen.
        rewrite lookup_app_r; [|lia]. rewrite Nat.sub_diag. cbn.
        split; [discriminate|]. intros (a & u & Hph). discriminate.
    + intros j cj t Hj Ht h ch Hlt Hh.
      cbn [RdapLock.calls] in Hh.
      apply lookup_app_Some in Hj as [Hj|(Hge & Hj)].
      * apply lookup_app_Some in Hh as [Hh|(Hge & _)].
        -- exact (Horder j cj t Hj Ht h ch Hlt Hh).
        -- apply lookup_lt_Some in Hj. lia.
      * apply list_lookup_singleton_Some in Hj as [_ <-]. discriminate.
  - (* Resume *)
    destruct Hen as (c & Hi & Hresolved).
    rewrite Hi.
    destruct (RdapLock.phase c) as [|a|a u|a u] eqn:Hph; try exact Hinv.
    destruct (Hcalls i c Hi) as (Hprev & _ & _ & _).
    rewrite Hprev in Hresolved.
    apply lockInvariant_update; try assumption; try reflexivity.
    + intros (a & u & Hrel). congruence.
    + split.
      * intros Hres. apply (proj1 (proj1 (proj2 (proj2 (Hcalls i c Hi))))) in Hres.
        destruct Hres as (a & u & Hrel). congruence.
      * intros (a & u & Hrel). discriminate.
    + unfold timely. cbn. lia.
    + intros t Ht. cbn in Ht. injection Ht as <-.
      destruct i as [|i0]; [intros h ch Hlt; lia|].
      assert (Hsome : is_Some (RdapLock.calls s !! i0)).
      { apply lookup_lt_is_Some. apply lookup_lt_Some in Hi. lia. }
      destruct Hsome as (c0 & Hi0).
      destruct (Hcalls i0 c0 Hi0) as (_ & _ & Hres0 & Htime0).
      apply Hres0 in Hresolved as (a0 & u0 & Hph0).
      unfold timely in Htime0. rewrite Hph0 in Htime0.
      intros h ch Hlt Hh.
      destruct (decide (h = i0)) as [->|Hne].
      * rewrite Hi0 in Hh. injection Hh as <-.
        exists a0, u0. split; [exact Hph0|]. lia.
      * assert (Hs0 : RdapLock.startedAt c0 = Some a0).
        { unfold RdapLock.startedAt. rewrite Hph0. reflexivity. }
        destruct (Horder i0 c0 a0 Hi0 Hs0 h ch ltac:(lia) Hh) as (a & u & Hrel & Hau & Hcool).
        exists a, u. split; [exact Hrel|]. unfold RdapLock.COOL_DOWN in *. lia.
  - (* Settle *)
    destruct (RdapLock.calls s !! i) as [c|] eqn:Hi; [|exact Hinv].
    destruct (RdapLock.phase c) as [|a|a u|a u] eqn:Hph; try exact Hinv.
    destruct (Hcalls i c Hi) as (_ & _ & Hres & Htime).
    unfold timely in Htime. rewrite Hph in Htime.
    apply lockInvariant_update; try assumption; try reflexivity.
    + intros (a' & u' & Hrel). congruence.
    + split.
      * intros Hr. apply Hres in Hr as (a' & u' & Hrel). congruence.
      * intros (a' & u' & Hrel). discriminate.
    + unfold timely. cbn. lia.
    + intros t Ht. cbn in Ht. injection Ht as <-.
      apply (Horder i c a Hi).
      unfold RdapLock.startedAt. rewrite Hph. reflexivity.
  - (* Fire *)
    destruct Hen as (c & a & u & Hi & Hph & Hcool).
    rewrite Hi, Hph.
    destruct (Hcalls i c Hi) as (_ & Hrel & Hres & Htime).
    unfold timely in Htime. rewrite Hph in Htime.
    rewrite Hrel.
    apply lockInvariant_update; try assumption.
    + intros (a' & u' & Hr). congruence.
    + apply length_insert.
    + rewrite list_lookup_insert_ne; [exact Hzero|lia].
    + intros j Hne. rewrite list_lookup_insert_ne; [reflexivity|lia].
    + split.
      * intros _. exists a, u. reflexivity.
      * intros _. apply list_lookup_insert_Some. left.
        split; [reflexivity|]. split; [reflexivity|].
        apply lookup_lt_Some in Hi. lia.
    + unfold timely. cbn. lia.
    + intros t Ht. cbn in Ht. injection Ht as <-.
      apply (Horder i c a Hi).
      unfold RdapLock.startedAt. rewrite Hph. reflexivity.
  - (* Tick *)
    cbn in Hen.
    unfold lockInvariant.
    cbn [RdapLock.rdapLock RdapLock.promises RdapLock.calls RdapLock.clock].
    split; [exact Hlock|]. split; [exact Hlen|]. split; [exact Hzero|]. split.
    + intros j cj Hj.
      destruct (Hcalls j cj Hj) as (Hprev & Hrel & Hres & Htime).
      split; [exact Hprev|]. split; [exact Hrel|]. split; [exact Hres|].
      unfold timely in *. destruct (RdapLock.phase cj); try exact I; lia.
    + intros j cj t Hj Ht h ch Hlt Hh.
      exact (Horder j cj t Hj Ht h ch Hlt Hh).
Qed.

Lemma lockInvariant_reachable (s : RdapLock.State) :
  RdapLock.reachable s -> lockInvariant s.
Proof.
  intros (t & Hrun). pose proof (lockInvariant_initial t) as Hinit.
  induction Hrun as [|x y z Hstep _ IH]; [exact Hinit|].
  apply IH. destruct Hstep as (e & Hen & ->).
  now apply lockInvariant_perform.
Qed.

Lemma filter_at_most_one {A : Type} (p : A -> bool) (l : list A) :
  (forall (i j : nat) (x y : A),
      l !! i = Some x -> l !! j = Some y -> p x = true -> p y = true -> i = j) ->
  (length (List.filter p l) <= 1)%nat.
Proof.
  induction l as [|x l IH]; intros Hone; [cbn; lia|].
  cbn [List.filter]. destruct (p x) eqn:Hx.
  - assert (Hnone : List.filter p l = []).
    { clear IH. induction l as [|y l IHl]; [reflexivity|].
      cbn [List.filter]. destruct (p y) eqn:Hy.
      - specialize (Hone 0%nat 1%nat x y eq_refl eq_refl Hx Hy). discriminate.
      - apply IHl. intros i j a b Hi Hj Ha Hb.
        destruct i as [|i], j as [|j]; try reflexivity.
        + specialize (Hone 0%nat (S (S j)) a b Hi Hj Ha Hb). discriminate.
        + specialize (Hone (S (S i)) 0%nat a b Hi Hj Ha Hb). discriminate.
        + specialize (Hone (S (S i)) (S (S j)) a b Hi Hj Ha Hb). lia. }
    rewrite Hnone. cbn. lia.
  - apply IH. intros i j a b Hi Hj Ha Hb.
    specialize (Hone (S i) (S j) a b Hi Hj Ha Hb). lia.
Qed.

Lemma afterLockRun_reachable : RdapLock.reachable afterLockRun.
Proof.
  exists 1000. unfold afterLockRun, lockRun. cbn [fold_left].
  eapply rtc_l; [eexists (RdapLock.Enter _); split; [exact I|reflexivity]|].
  eapply rtc_l; [exists (RdapLock.Resume 0); split; [eexists; split; reflexivity|reflexivity]|].
  eapply rtc_l; [eexists (RdapLock.Enter _); split; [exact I|reflexivity]|].
  eapply rtc_l; [eexists (RdapLock.Enter _); split; [exact I|reflexivity]|].
  eapply rtc_l; [exists (RdapLock.Tick 120); split; [cbn; lia|reflexivity]|].
  eapply rtc_l; [exists (RdapLock.Settle 0); split; [exact I|reflexivity]|].
  eapply rtc_l; [exists (RdapLock.Tick 500); split; [cbn; lia|reflexivity]|].
  eapply rtc_l; [exists (RdapLock.Fire 0); split;
                 [eexists _, _, _; split; [reflexivity|split; [reflexivity|vm_compute; discriminate]]
                 |reflexivity]|].
  eapply rtc_l; [exists (RdapLock.Resume 1); split; [eexists; split; reflexivity|reflexivity]|].
  eapply rtc_l; [exists (RdapLock.Tick 80); split; [cbn; lia|reflexivity]|].
  eapply rtc_l; [exists (RdapLock.Settle 1); split; [exact I|reflexivity]|].
  apply rtc_refl.
Qed.

Lemma twoLookups_reachable :
  Pool.reachable DomainUtils.asciiToLowerCase twoLookups.
Proof.
  exists (Pool.mkSystem
            (loadRecords [exampleRecord Available RdapNotChecked; otherRecord] initialHook)
            (mkPer [] [])).
  split; [eexists; reflexivity|].
  unfold twoLookups, twoLookupsRun. cbn [fold_left].
  eapply rtc_l; [exists (Pool.Start Rdap); split; [exact I|reflexivity]|].
  eapply rtc_l; [exists (Pool.WorkerStep Rdap 0 0 failingOracle); split; [eexists; split; [reflexivity|vm_compute; lia]|reflexivity]|].
  eapply rtc_l; [exists (Pool.WorkerStep Rdap 0 1 failingOracle); split; [eexists; split; [reflexivity|vm_compute; lia]|reflexivity]|].
  apply rtc_refl.
Qed.

(** C6 fails for the revision of the lookup service in which
    [runRdapLookup] is not wrapped in [withRdapLock]: after the RDAP
    checker was started on two eligible records and two of its workers
    each took one, two RDAP requests are outstanding at once. *)
Lemma rdap_requests_overlap :
  Pool.reachable DomainUtils.asciiToLowerCase twoLookups
  /\ rdapRequests twoLookups = [js "a.test"; js "b.test"]
  /\ (exists r1 r2,
        workerAt twoLookups Rdap 0 0 (Pool.Holding 0 r1)
        /\ workerAt twoLookups Rdap 0 1 (Pool.Holding 0 r2)
        /\ domain r1 = js "a.test" /\ domain r2 = js "b.test").
Proof.
  split; [exact twoLookups_reachable|]. split; [vm_compute; reflexivity|].
  exists (exampleRecord Available RdapNotChecked), otherRecord.
  split; [eexists; split; vm_compute; reflexivity|].
  split; [eexists; split; vm_compute; reflexivity|].
  split; reflexivity.
Qed.

(** C6.  The revision of the lookup service with [withRdapLock], in which
    every RDAP lookup, from [runDnsLookup] and from [runRdapOnly] alike,
    is the task of a call of [withRdapLock].  In every state that calls
    made in any number and at any times can reach:
    - at most one call is between the start of its task and the end of
      its cool-down; at most one request is outstanding;
    - when the task of a call has been started, every earlier call has
      released the lock, and its task had settled [COOL_DOWN] = 500 ms or
      more before that start;
    - a call that awaits the lock can resume exactly when every earlier
      call has released the lock;
    - the timer of a call can fire, and the lock be released, exactly
      from 500 ms after its task settled. *)
Theorem rdap_lock_serialises_lookups (s : RdapLock.State) :
  RdapLock.reachable s ->
  RdapLock.COOL_DOWN = 500
  /\ (forall (i j : nat) (ci cj : RdapLock.Call),
        RdapLock.calls s !! i = Some ci -> RdapLock.calls s !! j = Some cj ->
        RdapLock.holdsLock ci = true -> RdapLock.holdsLock cj = true -> i = j)
  /\ (length (occupants s) <= 1)%nat
  /\ (forall (i j : nat) (ci cj : RdapLock.Call) (t : Z),
        (i < j)%nat ->
        RdapLock.calls s !! i = Some ci -> RdapLock.calls s !! j = Some cj ->
        RdapLock.startedAt cj = Some t ->
        exists started settled,
          RdapLock.phase ci = RdapLock.Released started settled
          /\ started <= settled /\ settled + 500 <= t)
  /\ (forall (j : nat) (cj : RdapLock.Call),
        RdapLock.calls s !! j = Some cj ->
        RdapLock.phase cj = RdapLock.AwaitPrevious ->
        (RdapLock.enabled (RdapLock.Resume j) s
         <-> forall (h : nat) (ch : RdapLock.Call),
               (h < j)%nat -> RdapLock.calls s !! h = Some ch -> hasReleased ch))
  /\ (forall (i : nat) (c : RdapLock.Call) (started settled : Z),
        RdapLock.calls s !! i = Some c ->
        RdapLock.phase c = RdapLock.AwaitTimer started settled ->
        (RdapLock.enabled (RdapLock.Fire i) s <-> settled + 500 <= RdapLock.clock s)).
Proof.
  intros Hreach. apply lockInvariant_reachable in Hreach.
  destruct Hreach as (Hlock & Hlen & Hzero & Hcalls & Horder).
  assert (Hexcl : forall (i j : nat) (ci cj : RdapLock.Call),
             (i < j)%nat ->
             RdapLock.calls s !! i = Some ci -> RdapLock.calls s !! j = Some cj ->
             RdapLock.holdsLock ci = true -> RdapLock.holdsLock cj = true -> False).
  { intros i j ci cj Hlt Hi Hj Hci Hcj.
    assert (Hs : exists t, RdapLock.startedAt cj = Some t).
    { unfold RdapLock.holdsLock in Hcj. unfold RdapLock.startedAt.
      destruct (RdapLock.phase cj); try discriminate; eexists; reflexivity. }
    destruct Hs as (t & Ht).
    destruct (Horder j cj t Hj Ht i ci Hlt Hi) as (a & u & Hph & _).
    unfold RdapLock.holdsLock in Hci. rewrite Hph in Hci. discriminate. }
  assert (Hone : forall (i j : nat) (ci cj : RdapLock.Call),
             RdapLock.calls s !! i = Some ci -> RdapLock.calls s !! j = Some cj ->
             RdapLock.holdsLock ci = true -> RdapLock.holdsLock cj = true -> i = j).
  { intros i j ci cj Hi Hj Hci Hcj.
    destruct (Nat.lt_trichotomy i j) as [Hlt|[Heq|Hgt]]; [|exact Heq|].
    - exfalso. exact (Hexcl i j ci cj Hlt Hi Hj Hci Hcj).
    - exfalso. exact (Hexcl j i cj ci Hgt Hj Hi Hcj Hci). }
  split; [reflexivity|]. split; [exact Hone|].
  split; [apply filter_at_most_one; exact Hone|].
  split; [|split].
  - intros i j ci cj t Hlt Hi Hj Ht.
    exact (Horder j cj t Hj Ht i ci Hlt Hi).
  - intros j cj Hj Hph. split.
    + intros (c & Hc & Hres).
      rewrite Hj in Hc. injection Hc as <-.
      destruct (Hcalls j cj Hj) as (Hprev & _). rewrite Hprev in Hres.
      destruct j as [|j0]; [intros h ch Hlt; lia|].
      assert (Hsome : is_Some (RdapLock.calls s !! j0)).
      { apply lookup_lt_is_Some. apply lookup_lt_Some in Hj. lia. }
      destruct Hsome as (c0 & Hj0).
      destruct (Hcalls j0 c0 Hj0) as (_ & _ & Hres0 & _).
      apply Hres0 in Hres. pose proof Hres as (a0 & u0 & Hph0).
      intros h ch Hlt Hh.
      destruct (decide (h = j0)) as [->|Hne].
      * rewrite Hj0 in Hh. injection Hh as <-. exact Hres.
      * assert (Hs0 : RdapLock.startedAt c0 = Some a0).
        { unfold RdapLock.startedAt. rewrite Hph0. reflexivity. }
        destruct (Horder j0 c0 a0 Hj0 Hs0 h ch ltac:(lia) Hh) as (a & u & Hrel & _).
        exists a, u. exact Hrel.
    + intros Hall. exists cj. split; [exact Hj|].
      destruct (Hcalls j cj Hj) as (Hprev & _). rewrite Hprev.
      destruct j as [|j0]; [exact Hzero|].
      assert (Hsome : is_Some (RdapLock.calls s !! j0)).
      { apply lookup_lt_is_Some. apply lookup_lt_Some in Hj. lia. }
      destruct Hsome as (c0 & Hj0).
      destruct (Hcalls j0 c0 Hj0) as (_ & _ & Hres0 & _).
      apply Hres0. apply (Hall j0 c0); [lia|exact Hj0].
  - intros i c a u Hi Hph. split.
    + intros (c' & a' & u' & Hc' & Hph' & Hcool).
      rewrite Hi in Hc'. injection Hc' as <-.
      rewrite Hph in Hph'. injection Hph' as <- <-.
      exact Hcool.
    + intros Hcool. exists c, a, u. split; [exact Hi|]. split; [exact Hph|exact Hcool].
Qed.

Lemma rdap_lock_serialises_lookups_witness :
  RdapLock.reachable afterLockRun
  /\ (length (occupants afterLockRun) <= 1)%nat
  /\ (forall c0 : RdapLock.Call,
        RdapLock.calls afterLockRun !! 0%nat = Some c0 ->
        exists started settled,
          RdapLock.phase c0 = RdapLock.Released started settled
          /\ started <= settled /\ settled + 500 <= 1620).
Proof.
  split; [exact afterLockRun_reachable|].
  destruct (rdap_lock_serialises_lookups afterLockRun afterLockRun_reachable)
    as (_ & _ & Hocc & Hbefore & _).
  split; [exact Hocc|].
  intros c0 H0.
  apply (Hbefore 0%nat 1%nat c0
                 (RdapLock.mkCall RdapLock.FromRunDnsLookup 1 2
                                  (RdapLock.AwaitTimer 1620 1700)) 1620);
    [lia|exact H0|reflexivity|reflexivity].
Defined.
